(** * Moreland colour maps (package [moreland]): a shallow embedding

    The Go package converts between sRGB, linear RGB, CIE XYZ, CIE LAB and
    MSH and builds two colour maps on top: the diverging MSH map and the
    luminance map.  All arithmetic in the source is [float64]; it is
    embedded here as Rocq's primitive binary64 floats, so every operation
    rounds exactly as the hardware does and concrete runs can be evaluated.
    Each arithmetic operation rounds separately (no fused multiply-add).

    The transcendental functions of Go's [math] package ([Pow], [Sin],
    [Cos], [Acos], [Atan2]) are not part of this repository: they are a
    parameter of the development (class [math.Lib]).  Functions that Go
    specifies exactly ([Abs], [Sqrt], [Inf], [Max], [Min]) are defined. *)

From Stdlib Require Import ZArith Lia List Bool Floats.
From Stdlib Require Uint63.
From stdpp Require Import base list.
Import ListNotations.

Set Warnings "-inexact-float".
Set Default Proof Using "Type".

Local Open Scope float_scope.

Notation "x >? y" := (PrimFloat.ltb y x) (at level 70, no associativity) : float_scope.
Notation "x >=? y" := (PrimFloat.leb y x) (at level 70, no associativity) : float_scope.

(* ------------------------------------------------------------------ *)
(** ** Go's [math] package *)

Module math.

Class Lib := {
  Pow : float -> float -> float;
  Sin : float -> float;
  Cos : float -> float;
  Acos : float -> float;
  Atan2 : float -> float -> float
}.

Definition Abs (x : float) : float := PrimFloat.abs x.

Definition Sqrt (x : float) : float := PrimFloat.sqrt x.

Definition Inf (sign : Z) : float :=
  if (0 <=? sign)%Z then infinity else neg_infinity.

Definition IsNaN (f : float) : bool := negb (f =? f).

Definition IsInf (f : float) (sign : Z) : bool :=
  ((0 <=? sign)%Z && (f =? infinity)) || ((sign <=? 0)%Z && (f =? neg_infinity)).

Definition Signbit (x : float) : bool := get_sign x.

Definition Max (x y : float) : float :=
  if IsInf x 1 || IsInf y 1 then Inf 1
  else if IsNaN x || IsNaN y then nan
  else if (x =? 0) && (x =? y) then (if Signbit x then y else x)
  else if x >? y then x else y.

Definition Min (x y : float) : float :=
  if IsInf x (-1) || IsInf y (-1) then Inf (-1)
  else if IsNaN x || IsNaN y then nan
  else if (x =? 0) && (x =? y) then (if Signbit x then x else y)
  else if x <? y then x else y.

End math.

(* ------------------------------------------------------------------ *)
(** ** Data types *)

(** The colour types of convert.go.  Each record sits in a module of its
    own so that the fields keep the names they have in the source. *)

Module linearRGB.
Record t := mk { R : float; G : float; B : float }.
End linearRGB.

Module cieXYZ.
Record t := mk { X : float; Y : float; Z : float }.
End cieXYZ.

Module cieLAB.
Record t := mk { L : float; A : float; B : float }.
End cieLAB.

Module sRGBA.
Record t := mk { R : float; G : float; B : float; A : float }.
End sRGBA.

Module MSH.
Record t := mk { M : float; S : float; H : float }.
End MSH.

(** [color.Color] is an interface with one method, [RGBA], returning four
    [uint32]; a colour is represented by what that method returns. *)
Module color.
Record Color := mk { r : Z; g : Z; b : Z; a : Z }.

(** [color.NRGBA{R, G, B, A}.RGBA()] of the standard library: 8-bit
    channels widened to 16 bits and premultiplied by alpha. *)
Definition NRGBA (R G B A : Z) : Color :=
  let w (c : Z) := Z.lor c (Z.shiftl c 8) in
  let pre (c : Z) := ((w c * A) mod 2 ^ 32 / 255)%Z in
  mk (pre R) (pre G) (pre B) (w A).
End color.

(** [float64(n)] for an unsigned 32-bit [n]: exact. *)
Definition float64_of_uint32 (n : Z) : float := of_uint63 (Uint63.of_Z n).

(** [float64(n)] for an [int] (64-bit, two's complement). *)
Definition float64_of_int (n : Z) : float :=
  let mag (k : Z) : float :=
    if (k <? 2 ^ 63)%Z then of_uint63 (Uint63.of_Z k)
    else 9223372036854775808 in
  if (n <? 0)%Z then - mag (- n)%Z else mag n.

(** [n - 1] on [int] wraps around. *)
Definition int_pred (n : Z) : Z :=
  ((n - 1 + 2 ^ 63) mod 2 ^ 64 - 2 ^ 63)%Z.

(** The [error] values the package creates with [fmt.Errorf], one
    constructor per format string, carrying the formatted arguments. *)
Inductive error : Type :=
| ErrInvalidColor (c : sRGBA.t)
  (* "moreland: invalid color r:%g, g:%g, b:%g, a:%g" *)
| ErrDivergingMaxEqMin
  (* "moreland: DivergingMSH color map Max == Min" *)
| ErrLuminanceMaxZero
  (* "moreland: Luminance color map Max == 0" *)
| ErrOutOfRange (scalar max : float)
  (* "moreland: interpolation value (%g) out of range (0,%g)" *)
| ErrLuminanceOrder (i : nat) (L : float) (j : nat) (Lprev : float).
  (* "moreland: luminance of color %d (%g) is not greater than that of
     color %d (%g)" *)

(** A Go call either returns or panics. *)
Inductive panic : Type :=
| PanicError (e : error)            (* panic(err) *)
| PanicIndex (i : Z) (len : nat)    (* index out of range [i] with length len *)
| PanicMakeSlice                    (* makeslice: len out of range *)
| PanicSetMin.
  (* "moreland: Luminance minimum value cannot be changed from zero" *)

Inductive result (A : Type) : Type :=
| Ret (a : A)
| Panics (p : panic).
Arguments Ret {A} a.
Arguments Panics {A} p.

Definition rbind {A B : Type} (x : result A) (k : A -> result B) : result B :=
  match x with
  | Ret a => k a
  | Panics p => Panics p
  end.

Notation "'let*' x ':=' c1 'in' c2" := (rbind c1 (fun x => c2))
  (at level 10, x name, c1 at level 200, c2 at level 200).

(** Slice indexing [s[i]] and slice assignment [s[i] = v], with Go's
    bounds check. *)
Definition index {A : Type} (s : list A) (i : nat) : result A :=
  match s !! i with
  | Some v => Ret v
  | None => Panics (PanicIndex (Z.of_nat i) (length s))
  end.

Definition assign {A : Type} (s : list A) (i : Z) (v : A) : result (list A) :=
  if ((0 <=? i) && (i <? Z.of_nat (length s)))%Z
  then Ret (<[Z.to_nat i := v]> s)
  else Panics (PanicIndex i (length s)).

(** [make([]T, n)] for elements of [size] bytes, as runtime.makeslice
    of the gc toolchain decides it: the call panics when n is negative
    or when n elements take more than maxAlloc bytes, 1 << 48 on the
    64-bit ports ([int] has 64 bits here).  Within that limit the slice
    is taken to be allocated: running out of memory is a fatal error of
    the process that depends on the machine, and is not modelled. *)
Definition maxAlloc : Z := 2 ^ 48.

Definition makeslice_panics (size n : Z) : bool :=
  ((n <? 0) || (maxAlloc <? size * n))%Z.

(** A [color.Color] is an interface value: two words of 8 bytes. *)
Definition sizeof_Color : Z := 16.

(* ------------------------------------------------------------------ *)
(** ** convert.go *)

Section Convert.
Context `{ML : math.Lib}.

(** linearToS converts from a linear RGB component to an sRGB component. *)
Definition linearToS (v : float) : float :=
  if v >? 0.0031308 then 1.055 * math.Pow v (1 / 2.4) - 0.055
  else 12.92 * v.

(** sToLinear converts from an sRGB component to a linear RGB component. *)
Definition sToLinear (v : float) : float :=
  if v >? 0.04045 then math.Pow ((v + 0.055) / 1.055) 2.4
  else v / 12.92.

Definition linearRGB_XYZ (c : linearRGB.t) : cieXYZ.t :=
  let '(linearRGB.mk R G B) := c in
  {| cieXYZ.X := 0.4124 * R + 0.3576 * G + 0.1805 * B;
     cieXYZ.Y := 0.2126 * R + 0.7152 * G + 0.0722 * B;
     cieXYZ.Z := 0.0193 * R + 0.1192 * G + 0.9505 * B |}.

Definition cieXYZ_linearRGB (c : cieXYZ.t) : linearRGB.t :=
  let '(cieXYZ.mk X Y Z) := c in
  {| linearRGB.R := X * 3.2406 + Y * (-1.5372) + Z * (-0.4986);
     linearRGB.G := X * (-0.9689) + Y * 1.8758 + Z * 0.0415;
     linearRGB.B := X * 0.0557 + Y * (-0.204) + Z * 1.057 |}.

(** labTemp is an intermediate step in converting from CIE XYZ to CIE LAB. *)
Definition labTemp (v : float) : float :=
  if v >? 0.008856 then math.Pow v (1 / 3)
  else 7.787 * v + 16 / 116.

Definition cieXYZ_LAB (c : cieXYZ.t) : cieLAB.t :=
  let tempX := labTemp (cieXYZ.X c / 0.9505) in
  let tempY := labTemp (cieXYZ.Y c) in
  let tempZ := labTemp (cieXYZ.Z c / 1.089) in
  {| cieLAB.L := (116 * tempY) - 16;
     cieLAB.A := 500 * (tempX - tempY);
     cieLAB.B := 200 * (tempY - tempZ) |}.

Definition sRGBA_linearRGB (c : sRGBA.t) : linearRGB.t :=
  {| linearRGB.R := sToLinear (sRGBA.R c);
     linearRGB.G := sToLinear (sRGBA.G c);
     linearRGB.B := sToLinear (sRGBA.B c) |}.

Definition sRGBA_LAB (c : sRGBA.t) : cieLAB.t :=
  cieXYZ_LAB (linearRGB_XYZ (sRGBA_linearRGB c)).

(** colorTosRGBA converts a color to an sRGBA: the channels are divided
    by alpha, with no test for alpha = 0. *)
Definition colorTosRGBA (c : color.Color) : sRGBA.t :=
  let '(color.mk r g b a) := c in
  let alpha := float64_of_uint32 a / 65535 in
  {| sRGBA.R := float64_of_uint32 r / alpha / 65535;
     sRGBA.G := float64_of_uint32 g / alpha / 65535;
     sRGBA.B := float64_of_uint32 b / alpha / 65535;
     sRGBA.A := alpha |}.

Definition linearRGB_S (c : linearRGB.t) (alpha : float) : sRGBA.t :=
  {| sRGBA.R := linearToS (linearRGB.R c);
     sRGBA.G := linearToS (linearRGB.G c);
     sRGBA.B := linearToS (linearRGB.B c);
     sRGBA.A := alpha |}.

End Convert.

(** check returns an error if any of the channels in c are out of range. *)
Definition sRGBA_check (c : sRGBA.t) : option error :=
  let '(sRGBA.mk R G B A) := c in
  if (R >? 1) || (G >? 1) || (B >? 1) || (A >? 1)
     || (R <? 0) || (G <? 0) || (B <? 0) || (A <? 0)
  then Some (ErrInvalidColor c)
  else None.

(** fix forces all channels in c to be within the range (0,1).  The
    source mutates [c] through eight successive [if]s. *)
Definition sRGBA_fix (c : sRGBA.t) : sRGBA.t :=
  let '(sRGBA.mk R G B A) := c in
  let R := if R >? 1 then 1 else R in
  let G := if G >? 1 then 1 else G in
  let B := if B >? 1 then 1 else B in
  let A := if A >? 1 then 1 else A in
  let R := if R <? 0 then 0 else R in
  let G := if G <? 0 then 0 else G in
  let B := if B <? 0 then 0 else B in
  let A := if A <? 0 then 0 else A in
  sRGBA.mk R G B A.

(** [uint32(x)] for a float64 [x]: the fraction is discarded
    (truncation towards zero).  When the truncated value does not fit
    in 32 bits, or [x] is NaN or infinite, the conversion succeeds but
    its result is implementation-dependent: [None] here. *)
Definition float64_trunc (x : float) : option Z :=
  match Prim2SF x with
  | S754_zero _ => Some 0%Z
  | S754_finite s m e =>
    let n := Z.shiftl (Z.pos m) e in Some (if s then (- n)%Z else n)
  | _ => None
  end.

Definition uint32_of_float64 (x : float) : option Z :=
  match float64_trunc x with
  | Some n => if ((0 <=? n) && (n <? 2 ^ 32))%Z then Some n else None
  | None => None
  end.

(** RGBA implements the color.Color interface: the channels are
    premultiplied by alpha and scaled to 16 bits. *)
Definition sRGBA_RGBA (c : sRGBA.t) : option Z * option Z * option Z * option Z :=
  let '(sRGBA.mk R G B A) := c in
  (uint32_of_float64 (R * A * 65535), uint32_of_float64 (G * A * 65535),
   uint32_of_float64 (B * A * 65535), uint32_of_float64 (A * 65535)).

(** The constants of xyzTemp.  Go evaluates the constant expression
    [a*xlim + b] exactly and rounds once, which gives [ylim] below
    (evaluating it in binary64 would give the float just before). *)
Definition xyzTemp_a : float := 7.787.
Definition xyzTemp_b : float := 16 / 116.
Definition xyzTemp_ylim : float := 0.20689270648275862.

(** xyzTemp is an intermediate step in converting from CIE LAB to CIE XYZ. *)
Definition xyzTemp (v : float) : float :=
  if v >? xyzTemp_ylim then v * v * v
  else (v - xyzTemp_b) / xyzTemp_a.

(** Reference white-point D65 *)
Definition xn : float := 0.95047.
Definition yn : float := 1.0.
Definition zn : float := 1.08883.

Definition cieLAB_XYZ (c : cieLAB.t) : cieXYZ.t :=
  let '(cieLAB.mk L A B) := c in
  {| cieXYZ.X := xn * xyzTemp ((A / 500) + (L + 16) / 116);
     cieXYZ.Y := yn * xyzTemp ((L + 16) / 116);
     cieXYZ.Z := zn * xyzTemp ((L + 16) / 116 - (B / 200)) |}.

Section ConvertMSH.
Context `{ML : math.Lib}.

(** sRGB converts a CIE LAB color to an sRGBA color, where alpha is
    opacity between 0 and 1. *)
Definition cieLAB_sRGB (c : cieLAB.t) (alpha : float) : sRGBA.t :=
  linearRGB_S (cieXYZ_linearRGB (cieLAB_XYZ c)) alpha.

Definition cieLAB_MSH (c : cieLAB.t) : MSH.t :=
  let '(cieLAB.mk L A B) := c in
  let m := math.Pow (L * L + A * A + B * B) 0.5 in
  {| MSH.M := m;
     MSH.S := math.Acos (L / m);
     MSH.H := math.Atan2 B A |}.

(** lab converts a MSH color to a CIELAB color. *)
Definition MSH_lab (c : MSH.t) : cieLAB.t :=
  {| cieLAB.L := MSH.M c * math.Cos (MSH.S c);
     cieLAB.A := MSH.M c * math.Sin (MSH.S c) * math.Cos (MSH.H c);
     cieLAB.B := MSH.M c * math.Sin (MSH.S c) * math.Sin (MSH.H c) |}.

(** ColorToMSH converts a color to MSH space. *)
Definition ColorToMSH (c : color.Color) : MSH.t :=
  cieLAB_MSH (sRGBA_LAB (colorTosRGBA c)).

(** The local variable [signH] of hueTwist. *)
Definition signH (c : MSH.t) : float := MSH.H c / math.Abs (MSH.H c).

Definition hueTwist (c : MSH.t) (convergeM : float) : float :=
  signH c * MSH.S c * math.Sqrt (convergeM * convergeM - MSH.M c * MSH.M c)
  / (MSH.M c * math.Sin (MSH.S c)).

End ConvertMSH.

(* ------------------------------------------------------------------ *)
(** ** The colours a map returns and method calls

    [At] returns a [color.Color] holding an [sRGBA] value, or the nil
    interface: the returned colour is an [option sRGBA.t].  A [Palette]
    is the slice of the colours returned by [At]. *)

Definition Palette : Type := list (option sRGBA.t).

(** Colors fulfils the palette.Palette interface. *)
Definition Palette_Colors (p : Palette) : list (option sRGBA.t) := p.

(** A method call seen from the caller: it maps the state of the
    receiver before the call to the outcome and the state after it.  A
    method with a value receiver runs on a copy of the receiver, so
    whatever its body assigns to that copy is lost when it returns. *)
Definition call (S A : Type) : Type := S -> A * S.

Definition value_receiver {S A : Type} (body : call S A) : call S A :=
  fun caller => let local := caller in (fst (body local), caller).

(* ------------------------------------------------------------------ *)
(** ** The diverging map (type DivergingMSH) *)

Module DivergingMSH.

(** The field [end] of the source is [end_] here ([end] is a keyword). *)
Record t := mk {
  start : MSH.t;
  end_ : MSH.t;
  ConvergePoint : float;
  ConvergeM : float;
  Alpha : float;
  min : float;
  max : float
}.

Definition with_min (v : float) (p : t) : t :=
  mk (start p) (end_ p) (ConvergePoint p) (ConvergeM p) (Alpha p) v (max p).

Definition with_max (v : float) (p : t) : t :=
  mk (start p) (end_ p) (ConvergePoint p) (ConvergeM p) (Alpha p) (min p) v.

(** NewDivergingMSH creates a new diverging color map where start and
    end are the start and end point colors in MSH space. *)
Definition NewDivergingMSH (start end_ : MSH.t) : t :=
  {| start := start; end_ := end_; ConvergeM := 88; ConvergePoint := 0.5;
     Alpha := 1; min := 0; max := 0 |}.

Definition SetMax (v : float) : call t unit := fun p => (tt, with_max v p).

Definition SetMin (v : float) : call t unit := fun p => (tt, with_min v p).

Definition Max : call t float := fun p => (max p, p).

Definition Min : call t float := fun p => (min p, p).

Section Methods.
Context `{ML : math.Lib}.

(** interpolateMSHDiverging performs a color interpolation through MSH
    space.  [var H float64] starts at zero and is assigned only when
    scalar > ConvergePoint. *)
Definition interpolateMSHDiverging (p : t) (scalar : float) : MSH.t :=
  let startHTwist := hueTwist (start p) (ConvergeM p) in
  let endHTwist := hueTwist (end_ p) (ConvergeM p) in
  if scalar <? ConvergePoint p then
    let interp := scalar / ConvergePoint p in
    {| MSH.M := (ConvergeM p - MSH.M (start p)) * interp + MSH.M (start p);
       MSH.S := MSH.S (start p) * (1 - interp);
       MSH.H := MSH.H (start p) + startHTwist * interp |}
  else
    let interp1 := (scalar - 1) / (ConvergePoint p - 1) in
    let interp2 := scalar / ConvergePoint p - 1 in
    let H := if scalar >? ConvergePoint p
             then MSH.H (end_ p) + endHTwist * interp1 else 0 in
    {| MSH.M := (ConvergeM p - MSH.M (end_ p)) * interp1 + MSH.M (end_ p);
       MSH.S := MSH.S (end_ p) * interp2;
       MSH.H := H |}.

(** At, as a function of the receiver's fields: the method reads the
    receiver and assigns to none of its fields. *)
Definition At_ (p : t) (scalar : float) : option sRGBA.t * option error :=
  if min p =? max p then (None, Some ErrDivergingMaxEqMin)
  else
    let scalar := (scalar - min p) / max p in
    let o := linearRGB_S
               (cieXYZ_linearRGB (cieLAB_XYZ (MSH_lab (interpolateMSHDiverging p scalar))))
               (Alpha p) in
    (Some o, sRGBA_check o).

(** At implements the palette.ColorMap interface (pointer receiver). *)
Definition At (scalar : float) : call t (option sRGBA.t * option error) :=
  fun p => (At_ p scalar, p).

(** The sampling loop of Palette: [n] iterations remain, [v] is the
    next scalar. *)
Fixpoint Palette_loop (p : t) (delta : float) (n : nat) (v : float)
  : result Palette :=
  match n with
  | O => Ret []
  | S n' =>
    let '(c, err) := At_ p v in
    match err with
    | Some e => Panics (PanicError e)
    | None =>
      let* cs := Palette_loop p delta n' (v + delta) in
      Ret (c :: cs)
    end
  end.

(** The body of Palette, run on the method's own copy [p] of the
    receiver; it returns the copy as it is when the method ends.
    [make([]color.Color, nColors)] comes after the default domain and
    delta, and panics for a negative or too large nColors. *)
Definition Palette_body (nColors : Z) : call t (result Palette) :=
  fun p =>
    let p := if (max p =? 0) && (min p =? 0)
             then with_max 1 (with_min 0 p) else p in
    let delta := (max p - min p) / float64_of_int (int_pred nColors) in
    let v := min p in
    if makeslice_panics sizeof_Color nColors then (Panics PanicMakeSlice, p)
    else (Palette_loop p delta (Z.to_nat nColors) v, p).

(** Palette has a value receiver. *)
Definition Palette (nColors : Z) : call t (result Palette) :=
  value_receiver (Palette_body nColors).

End Methods.

(** SmoothBlueRed is a smooth diverging color palette ranging from blue
    to red. *)
Definition SmoothBlueRed : t :=
  NewDivergingMSH (MSH.mk 80 1.08 (-1.1)) (MSH.mk 80 1.08 0.5).

Definition SmoothPurpleOrange : t :=
  NewDivergingMSH (MSH.mk 64.97539711 0.899434815 (-0.899431964))
                  (MSH.mk 85.00850996 0.949730284 0.950636521).

Definition SmoothGreenPurple : t :=
  NewDivergingMSH (MSH.mk 78.04105346 0.885011982 2.499491379)
                  (MSH.mk 64.97539711 0.899434815 (-0.899431964)).

Definition SmoothBlueTan : t :=
  NewDivergingMSH (MSH.mk 79.94788321 0.798754784 (-1.401313221))
                  (MSH.mk 80.07193125 0.799798811 1.401089787).

Definition SmoothGreenRed : t :=
  NewDivergingMSH (MSH.mk 78.04105346 0.885011982 2.499491379)
                  (MSH.mk 76.96722122 0.949483656 0.499492043).

End DivergingMSH.

(* ------------------------------------------------------------------ *)
(** ** Go's [sort] package: binary search *)

Module sort.

(** The loop of [sort.Search]: while i < j, probe h = (i+j)/2.  Every
    iteration shrinks j - i, so [fuel] = n iterations always suffice
    (lemma [search_loop_fuel]). *)
Fixpoint search_loop (fuel : nat) (f : nat -> bool) (i j : nat) : nat :=
  match fuel with
  | O => i
  | S fuel' =>
    if (i <? j)%nat then
      let h := ((i + j) / 2)%nat in
      if negb (f h) then search_loop fuel' f (h + 1)%nat j
      else search_loop fuel' f i h
    else i
  end.

Definition Search (n : nat) (f : nat -> bool) : nat := search_loop n f 0%nat n.

(** SearchFloat64s(a, x) = Search(len(a), func(i) { return a[i] >= x }).
    The probe h is always below len(a) (lemma [search_loop_probes]). *)
Definition SearchFloat64s (a : list float) (x : float) : nat :=
  Search (length a)
         (fun i => match a !! i with Some v => v >=? x | None => false end).

End sort.

(* ------------------------------------------------------------------ *)
(** ** The luminance map (luminance.go) *)

Module Luminance.

Record t := mk {
  colors : list cieLAB.t;
  scalars : list float;
  Alpha : float;
  max : float
}.

Definition with_max (v : float) (l : t) : t :=
  mk (colors l) (scalars l) (Alpha l) v.

Definition SetMax (v : float) : call t unit := fun l => (tt, with_max v l).

(** SetMin panics whenever it is called. *)
Definition SetMin (v : float) : call t (result unit) :=
  fun l => (Panics PanicSetMin, l).

Definition Max : call t float := fun l => (max l, l).

Definition Min : call t float := fun l => (0, l).

Section Methods.
Context `{ML : math.Lib}.

(** The first loop of NewLuminance, at index [i] with the colours
    [cs] still to visit.  It ends with the filled array and the running
    maximum and minimum, or with the error returned from inside. *)
Fixpoint NewLuminance_loop (cs : list color.Color) (i : nat)
    (colors : list cieLAB.t) (max min : float)
  : result (list cieLAB.t * float * float + error) :=
  match cs with
  | [] => Ret (inl (colors, max, min))
  | c :: cs' =>
    let lab := sRGBA_LAB (colorTosRGBA c) in
    let* colors := assign colors (Z.of_nat i) lab in
    let max := math.Max max (cieLAB.L lab) in
    let min := math.Min min (cieLAB.L lab) in
    match i with
    | O => NewLuminance_loop cs' (S i) colors max min
    | S j =>
      let* prev := index colors j in
      if cieLAB.L lab <=? cieLAB.L prev
      then Ret (inr (ErrLuminanceOrder i (cieLAB.L lab) j (cieLAB.L prev)))
      else NewLuminance_loop cs' (S i) colors max min
    end
  end.

(** The second loop: scalars[i] = (c.L - min) / rnge for every colour. *)
Fixpoint NewLuminance_normalize (cs : list cieLAB.t) (i : nat)
    (scalars : list float) (min rnge : float) : result (list float) :=
  match cs with
  | [] => Ret scalars
  | c :: cs' =>
    let* scalars := assign scalars (Z.of_nat i) ((cieLAB.L c - min) / rnge) in
    NewLuminance_normalize cs' (S i) scalars min rnge
  end.

(** NewLuminance creates a new Luminance color scale from the given
    controlColors. *)
Definition NewLuminance (controlColors : list color.Color)
  : result (option t * option error) :=
  let n := length controlColors in
  let colors := replicate n (cieLAB.mk 0 0 0) in
  let scalars := replicate n 0 in
  let* r := NewLuminance_loop controlColors 0 colors (math.Inf (-1)) (math.Inf 1) in
  match r with
  | inr err => Ret (None, Some err)
  | inl (colors, max, min) =>
    let rnge := max - min in
    let* scalars := NewLuminance_normalize colors 0 scalars min rnge in
    let* scalars := assign scalars 0 0 in
    let* scalars := assign scalars (Z.of_nat (length scalars) - 1) 1 in
    Ret (Some {| colors := colors; scalars := scalars; Alpha := 1; max := 0 |},
         None)
  end.

(** At, as a function of the receiver's fields (the method assigns to
    none of them). *)
Definition At_ (l : t) (scalar : float) : result (option sRGBA.t * option error) :=
  if max l =? 0 then Ret (None, Some ErrLuminanceMaxZero)
  else
    let scalar := scalar / max l in
    if (scalar <? 0) || (scalar >? 1)
    then Ret (None, Some (ErrOutOfRange scalar (max l)))
    else
      let i := sort.SearchFloat64s (scalars l) scalar in
      if (i =? 0)%nat then
        let* c := index (colors l) i in
        Ret (Some (linearRGB_S (cieXYZ_linearRGB (cieLAB_XYZ c)) (Alpha l)), None)
      else
        let* c1 := index (colors l) (i - 1) in
        let* c2 := index (colors l) i in
        let* s1 := index (scalars l) (i - 1) in
        let* s2 := index (scalars l) i in
        let frac := (scalar - s1) / (s2 - s1) in
        let o := linearRGB_S
                   (cieXYZ_linearRGB
                      (cieLAB_XYZ
                         {| cieLAB.L := frac * (cieLAB.L c2 - cieLAB.L c1) + cieLAB.L c1;
                            cieLAB.A := frac * (cieLAB.A c2 - cieLAB.A c1) + cieLAB.A c1;
                            cieLAB.B := frac * (cieLAB.B c2 - cieLAB.B c1) + cieLAB.B c1 |}))
                   (Alpha l) in
        Ret (Some (sRGBA_fix o), None).

(** At implements the palette.ColorMap interface (pointer receiver). *)
Definition At (scalar : float) : call t (result (option sRGBA.t * option error)) :=
  fun l => (At_ l scalar, l).

Fixpoint Palette_loop (l : t) (delta : float) (n : nat) (v : float)
  : result Palette :=
  match n with
  | O => Ret []
  | S n' =>
    let* r := At_ l v in
    let '(c, err) := r in
    match err with
    | Some e => Panics (PanicError e)
    | None =>
      let* cs := Palette_loop l delta n' (v + delta) in
      Ret (c :: cs)
    end
  end.

(** The body of Palette, run on the method's own copy [l];
    [make([]color.Color, nColors)] panics for a negative or too large
    nColors. *)
Definition Palette_body (nColors : Z) : call t (result Palette) :=
  fun l =>
    let l := if max l =? 0 then with_max 1 l else l in
    let delta := max l / float64_of_int (int_pred nColors) in
    let v := 0 in
    if makeslice_panics sizeof_Color nColors then (Panics PanicMakeSlice, l)
    else (Palette_loop l delta (Z.to_nat nColors) v, l).

(** Palette has a value receiver. *)
Definition Palette (nColors : Z) : call t (result Palette) :=
  value_receiver (Palette_body nColors).

End Methods.

(** BlackBody is based on the colors of black body radiation. *)
Definition BlackBody : t :=
  {| colors :=
       [ cieLAB.mk 0 0 0;
         cieLAB.mk 39.112572747719774 55.92470934659227 37.65159714510402;
         cieLAB.mk 58.45705480680232 43.34389690857626 65.95409116544081;
         cieLAB.mk 84.13253643355525 (-6.459770854468639) 82.41994470228775;
         cieLAB.mk 100 0 0 ];
     scalars := [0; 0.39112572747719776; 0.5845705480680232; 0.8413253643355525; 1];
     Alpha := 1;
     max := 0 |}.

(** ExtendedBlackBody derives a color map based on the colors of black
    body radiation with some blue and purple hues thrown in at the lower
    end. *)
Definition ExtendedBlackBody : t :=
  {| colors :=
       [ cieLAB.mk 0 0 0;
         cieLAB.mk 21.873483862751876 50.19882295659109 (-74.66982659778306);
         cieLAB.mk 34.506542513775905 75.41302687474061 (-88.73807072507786);
         cieLAB.mk 47.02980511087303 70.93217189227919 33.59880053746508;
         cieLAB.mk 65.17482203230537 49.14591409658836 56.86480950937553;
         cieLAB.mk 84.13253643355525 (-6.459770854468639) 82.41994470228775;
         cieLAB.mk 100 0 0 ];
     scalars :=
       [ 0; 0.21873483862751875; 0.34506542513775906; 0.4702980511087303;
         0.6517482203230537; 0.8413253643355525; 1 ];
     Alpha := 1;
     max := 0 |}.

(** Kindlmann uses the colors first proposed in a paper by Kindlmann,
    Reinhard, and Creem. *)
Definition Kindlmann : t :=
  {| colors :=
       [ cieLAB.mk 0 0 0;
         cieLAB.mk 10.479520542426698 34.05557958902206 (-34.21934877170809);
         cieLAB.mk 21.03011379005111 52.30473571100955 (-61.852601228346536);
         cieLAB.mk 31.03098927978494 23.814976212074402 (-57.73419358300511);
         cieLAB.mk 40.21480513626115 (-24.858012706049536) (-7.322176588219942);
         cieLAB.mk 52.73108089333358 (-19.064976357731634) (-25.558178073848147);
         cieLAB.mk 60.007326812392634 (-61.75624590074585) 56.43522875191319;
         cieLAB.mk 69.81578343076002 (-58.33353084882392) 68.37457857626646;
         cieLAB.mk 79.55703752324776 (-22.50477758899383) 78.57946686200843;
         cieLAB.mk 89.818961593653 7.586705160677109 15.375961528833981;
         cieLAB.mk 100 0 0 ];
     scalars :=
       [ 0; 0.10479520542426699; 0.2103011379005111; 0.3103098927978494;
         0.4021480513626115; 0.5273108089333358; 0.6000732681239264;
         0.6981578343076003; 0.7955703752324775; 0.89818961593653; 1 ];
     Alpha := 1;
     max := 0 |}.

(** ExtendedKindlmann uses the colors from Kindlmann but also adds more
    hues by doing a more than 360 degree loop around the hues. *)
Definition ExtendedKindlmann : t :=
  {| colors :=
       [ cieLAB.mk 0 0 0;
         cieLAB.mk 13.371291966477482 40.39368469479174 (-47.73239449160565);
         cieLAB.mk 25.072421338587574 (-18.01441053740843) (-5.313556572210176);
         cieLAB.mk 37.411516363056116 (-43.058336774976055) 39.30203907343062;
         cieLAB.mk 49.75026355291354 (-15.774050138318895) 53.507917567416094;
         cieLAB.mk 61.643756252245225 52.67703578954919 43.82595336046358;
         cieLAB.mk 74.93187540089825 50.92061741619164 (-30.235411697966242);
         cieLAB.mk 87.64732748562544 14.355163639545697 (-17.471161313826332);
         cieLAB.mk 100 0 0 ];
     scalars :=
       [ 0; 0.13371291966477483; 0.25072421338587575; 0.37411516363056113;
         0.4975026355291354; 0.6164375625224523; 0.7493187540089825;
         0.8764732748562544; 1 ];
     Alpha := 1;
     max := 0 |}.

End Luminance.

(* ------------------------------------------------------------------ *)
(** ** A runnable instance of [math.Lib]

    Low-order series that follow the special cases Go documents ([NaN]
    in, [NaN] out; [Pow(x, 0) = Pow(1, y) = 1]; [Pow(x, 1) = x];
    [Pow(x, 0.5) = Sqrt(x)]).  It serves to run the code on concrete
    inputs; the theorems below hold for every instance. *)

Module approx.

Definition Sin (x : float) : float :=
  let x2 := x * x in
  x * (1 - x2 / 6 * (1 - x2 / 20 * (1 - x2 / 42 * (1 - x2 / 72)))).

Definition Cos (x : float) : float :=
  let x2 := x * x in
  1 - x2 / 2 * (1 - x2 / 12 * (1 - x2 / 30 * (1 - x2 / 56 * (1 - x2 / 90)))).

(** ln x = 2 atanh ((x - 1) / (x + 1)), after halving the exponent range
    with square roots. *)
Definition Log (x : float) : float :=
  let r := math.Sqrt (math.Sqrt (math.Sqrt (sqrt x))) in
  let z := (r - 1) / (r + 1) in
  let z2 := z * z in
  32 * z * (1 + z2 * (1 / 3 + z2 * (1 / 5 + z2 * (1 / 7 + z2 / 9)))).

(** e^w = (e^(w/256))^256. *)
Definition Exp (w : float) : float :=
  let u := w / 256 in
  let e := 1 + u * (1 + u / 2 * (1 + u / 3 * (1 + u / 4 * (1 + u / 5)))) in
  let sq (y : float) := y * y in
  sq (sq (sq (sq (sq (sq (sq (sq e))))))).

Definition Pow (x y : float) : float :=
  if (y =? 0) || (x =? 1) then 1
  else if y =? 1 then x
  else if math.IsNaN x || math.IsNaN y then nan
  else if y =? 0.5 then math.Sqrt x
  else Exp (y * Log x).

Definition Acos (x : float) : float :=
  let a := math.Sqrt (1 - x) in
  a * (1.5707963267948966 - x * (0.2145988016 - x * (0.0889789874 - x * 0.0501743046))).

Definition Atan2 (y x : float) : float :=
  let t := y / (math.Sqrt (x * x + y * y) + x) in
  let t2 := t * t in
  2 * t * (1 - t2 * (1 / 3 - t2 * (1 / 5 - t2 * (1 / 7 - t2 / 9)))).

Definition lib : math.Lib :=
  {| math.Pow := Pow; math.Sin := Sin; math.Cos := Cos;
     math.Acos := Acos; math.Atan2 := Atan2 |}.

End approx.

(* ================================================================== *)
(** * Properties *)

(* ------------------------------------------------------------------ *)
(** ** Facts of binary64 arithmetic

    Proved from the specification of the primitive operations
    ([FloatAxioms]) by computing on [spec_float]. *)

Module Rounding.
Local Open Scope Z_scope.

Lemma digits2_pos_size (p : positive) : digits2_pos p = Pos.size p.
Proof. induction p; cbn; congruence. Qed.

Lemma digits2_pos_bounds (p : positive) :
  2 ^ (Z.pos (digits2_pos p) - 1) <= Z.pos p < 2 ^ Z.pos (digits2_pos p).
Proof.
  induction p as [p IH|p IH|]; cbn [digits2_pos]; [| |cbn; lia].
  all: rewrite Pos2Z.inj_succ;
    replace (Z.succ (Z.pos (digits2_pos p)) - 1) with (Z.pos (digits2_pos p) - 1 + 1) by lia;
    rewrite Z.pow_succ_r by lia; rewrite Z.pow_add_r by lia; lia.
Qed.

Lemma digits2_pos_unique (p : positive) (n : Z) :
  2 ^ (n - 1) <= Z.pos p < 2 ^ n -> Z.pos (digits2_pos p) = n.
Proof.
  intros [Hlo Hhi]. pose proof (digits2_pos_bounds p) as [Blo Bhi].
  assert (0 < n).
  { destruct (Z_lt_le_dec 0 n) as [Hn|Hn]; [exact Hn|]. exfalso.
    destruct (Z.eq_dec n 0) as [->|Hne].
    - change (2 ^ 0) with 1 in Hhi. lia.
    - rewrite Z.pow_neg_r in Hhi by lia. lia. }
  destruct (Z.lt_trichotomy (Z.pos (digits2_pos p)) n) as [Hlt|[Heq|Hgt]]; [|exact Heq|].
  - assert (2 ^ Z.pos (digits2_pos p) <= 2 ^ (n - 1)) by (apply Z.pow_le_mono_r; lia). lia.
  - assert (2 ^ n <= 2 ^ (Z.pos (digits2_pos p) - 1)) by (apply Z.pow_le_mono_r; lia). lia.
Qed.

Lemma shr_1_m (r : shr_record) :
  0 <= shr_m r -> shr_m (shr_1 r) = shr_m r / 2.
Proof.
  destruct r as [m r s]. cbn [shr_m]. intros Hm.
  destruct m as [|[p|p|]|p]; cbn [shr_1 shr_m].
  - reflexivity.
  - change (Z.pos p~1) with (2 * Z.pos p + 1).
    apply Z.div_unique with (r := 1); lia.
  - change (Z.pos p~0) with (2 * Z.pos p).
    apply Z.div_unique with (r := 0); lia.
  - reflexivity.
  - lia.
Qed.

Lemma pow2_xO (p : positive) : 2 ^ Z.pos p~0 = 2 ^ Z.pos p * 2 ^ Z.pos p.
Proof.
  replace (Z.pos p~0) with (Z.pos p + Z.pos p) by lia.
  apply Z.pow_add_r; lia.
Qed.

Lemma pow2_xI (p : positive) : 2 ^ Z.pos p~1 = 2 * (2 ^ Z.pos p * 2 ^ Z.pos p).
Proof.
  replace (Z.pos p~1) with (1 + Z.pos p~0) by lia.
  rewrite Z.pow_add_r, pow2_xO by lia. reflexivity.
Qed.

Lemma iter_pos_shr_m (p : positive) :
  forall r : shr_record,
    0 <= shr_m r -> shr_m (SpecFloat.iter_pos shr_1 p r) = shr_m r / 2 ^ Z.pos p.
Proof.
  induction p as [p IH|p IH|]; intros r Hr; cbn [SpecFloat.iter_pos].
  - assert (H1 : 0 <= shr_m (shr_1 r))
      by (rewrite shr_1_m by lia; apply Z.div_pos; lia).
    assert (H2 : 0 <= shr_m (SpecFloat.iter_pos shr_1 p (shr_1 r)))
      by (rewrite IH by lia; apply Z.div_pos; lia).
    rewrite IH, IH, shr_1_m by lia.
    rewrite !Z.div_div by lia. rewrite pow2_xI. f_equal; lia.
  - assert (H2 : 0 <= shr_m (SpecFloat.iter_pos shr_1 p r))
      by (rewrite IH by lia; apply Z.div_pos; lia).
    rewrite IH, IH by lia. rewrite Z.div_div by lia. rewrite pow2_xO. reflexivity.
  - rewrite shr_1_m by lia. reflexivity.
Qed.

Lemma digits2_pos_iter_xO (k d : positive) :
  Z.pos (digits2_pos (Pos.iter xO k d)) = Z.pos (digits2_pos k) + Z.pos d.
Proof.
  induction d as [|d IH] using Pos.peano_ind.
  - cbn. lia.
  - rewrite Pos.iter_succ. cbn [digits2_pos]. lia.
Qed.

Lemma fexp_eq (x : Z) : fexp prec emax x = Z.max (x - 53) (-1074).
Proof. reflexivity. Qed.

(** No shift needed: the mantissa already has the precision its
    exponent calls for. *)
Lemma shr_fexp_noop (m : positive) (e : Z) (l : location) :
  fexp prec emax (Z.pos (digits2_pos m) + e) <= e ->
  shr_fexp prec emax (Z.pos m) e l = (shr_record_of_loc (Z.pos m) l, e).
Proof.
  intros H. unfold shr_fexp, shr. cbn [Zdigits2].
  destruct (fexp prec emax (Z.pos (digits2_pos m) + e) - e) eqn:E; try reflexivity. lia.
Qed.

Lemma binary_round_aux_noop (s : bool) (m : positive) (e : Z) :
  fexp prec emax (Z.pos (digits2_pos m) + e) <= e -> e <= 971 ->
  binary_round_aux prec emax s (Z.pos m) e loc_Exact = S754_finite s m e.
Proof.
  intros H He. unfold binary_round_aux.
  rewrite shr_fexp_noop by assumption. cbn [shr_record_of_loc shr_m loc_of_shr_record round_nearest_even].
  rewrite shr_fexp_noop by assumption. cbn [shr_record_of_loc shr_m].
  replace (e <=? emax - prec) with true; [reflexivity|].
  symmetry. apply Z.leb_le. change (emax - prec) with 971. lia.
Qed.

(** Rounding a mantissa with too many digits keeps 53 of them: the
    result is finite and not zero as long as it is not near overflow. *)
Lemma binary_round_aux_shift (s : bool) (m : positive) (e : Z) :
  -1074 <= e -> 53 < Z.pos (digits2_pos m) -> Z.pos (digits2_pos m) + e <= 1023 ->
  exists m' e', binary_round_aux prec emax s (Z.pos m) e loc_Exact = S754_finite s m' e'.
Proof.
  intros He Hd Hmax. set (d := Z.pos (digits2_pos m)) in *.
  pose proof (digits2_pos_bounds m) as [Blo Bhi]. fold d in Blo, Bhi.
  assert (Hf : fexp prec emax (d + e) = d + e - 53).
  { rewrite fexp_eq. lia. }
  unfold binary_round_aux, shr_fexp at 1. cbn [Zdigits2]. fold d. rewrite Hf.
  replace (d + e - 53 - e) with (d - 53) by lia.
  destruct (d - 53) as [|n|n] eqn:En; try lia.
  cbn [shr shr_record_of_loc].
  set (r := SpecFloat.iter_pos shr_1 n _).
  assert (Hq : shr_m r = Z.pos m / 2 ^ Z.pos n)
    by (unfold r; rewrite iter_pos_shr_m by (cbn; lia); reflexivity).
  assert (Hqb : 2 ^ 52 <= shr_m r < 2 ^ 53).
  { rewrite Hq. replace d with (Z.pos n + 53) in Blo, Bhi by lia.
    replace (Z.pos n + 53 - 1) with (52 + Z.pos n) in Blo by lia.
    rewrite Z.pow_add_r in Blo, Bhi by lia. split.
    - apply Z.div_le_lower_bound; lia.
    - apply Z.div_lt_upper_bound; lia. }
  set (q' := round_nearest_even (shr_m r) (loc_of_shr_record r)).
  assert (Hq' : 2 ^ 52 <= q' <= 2 ^ 53).
  { unfold q', round_nearest_even.
    destruct (loc_of_shr_record r) as [|[]]; try destruct (Z.even (shr_m r)); lia. }
  destruct q' as [|q|q] eqn:Eq'; try lia.
  destruct (Z.eq_dec (Z.pos q) (2 ^ 53)) as [Htop|Hlow].
  - change (2 ^ 53) with (Z.pos 9007199254740992) in Htop.
    injection Htop as ->. unfold shr_fexp.
    change (Zdigits2 9007199254740992) with 54.
    replace (fexp prec emax (54 + (e + Z.pos n)) - (e + Z.pos n)) with 1
      by (rewrite fexp_eq; lia).
    cbn [shr SpecFloat.iter_pos shr_record_of_loc shr_1 shr_m].
    replace (e + Z.pos n + 1 <=? emax - prec) with true
      by (symmetry; apply Z.leb_le; change (emax - prec) with 971; lia).
    eauto.
  - assert (Hdq : Z.pos (digits2_pos q) = 53)
      by (apply digits2_pos_unique; change (53 - 1) with 52; lia).
    rewrite shr_fexp_noop
      by (rewrite Hdq, fexp_eq; lia).
    cbn [shr_record_of_loc shr_m].
    replace (e + Z.pos n <=? emax - prec) with true
      by (symmetry; apply Z.leb_le; change (emax - prec) with 971; lia).
    eauto.
Qed.

Lemma binary_round_finite (s : bool) (k : positive) (e : Z) :
  -1074 <= e -> Z.pos (digits2_pos k) + e <= 1023 ->
  exists m' e', binary_round prec emax s k e = S754_finite s m' e'.
Proof.
  intros He Hmax. unfold binary_round, shl_align.
  set (d := Z.pos (digits2_pos k)) in *.
  pose proof (fexp_eq (d + e)) as Hf.
  destruct (fexp prec emax (d + e) - e) as [|n|n] eqn:En.
  - rewrite binary_round_aux_noop by (fold d; lia). eauto.
  - destruct (Z_le_gt_dec d 53) as [Hle|Hgt]; [lia|].
    apply binary_round_aux_shift; fold d; lia.
  - rewrite binary_round_aux_noop; [eauto| |lia].
    rewrite digits2_pos_iter_xO. fold d.
    replace (d + Z.pos n + fexp prec emax (d + e)) with (d + e) by lia. lia.
Qed.

Lemma Zpos_iter_xO (k d : positive) :
  Z.pos (Pos.iter xO k d) = Z.pos k * 2 ^ Z.pos d.
Proof.
  induction d as [|d IH] using Pos.peano_ind.
  - cbn. lia.
  - rewrite Pos.iter_succ, Pos2Z.inj_xO, IH, Pos2Z.inj_succ, Z.pow_succ_r by lia. lia.
Qed.

Lemma valid_finite (s : bool) (m : positive) (e : Z) :
  valid_binary (S754_finite s m e) = true ->
  fexp prec emax (Z.pos (digits2_pos m) + e) = e /\ -1074 <= e <= 971
  /\ Z.pos (digits2_pos m) <= 53.
Proof.
  cbn [SpecFloat.valid_binary]. unfold bounded, canonical_mantissa.
  intros H. apply andb_true_iff in H as [H1 H2].
  apply Z.eqb_eq in H1. apply Z.leb_le in H2. change (emax - prec) with 971 in H2.
  split; [exact H1|]. rewrite fexp_eq in H1. lia.
Qed.

End Rounding.

Module F64.

Definition is_finite_nonzero (x : float) : bool :=
  match Prim2SF x with
  | S754_finite _ _ _ => true
  | _ => false
  end.

Lemma SFcompare_refl (s : spec_float) :
  s <> S754_nan -> SFcompare s s = Some Eq.
Proof.
  destruct s as [[]|[]| |[] m e]; simpl; try congruence; intros _;
    rewrite Z.compare_refl, Pos.compare_cont_refl; reflexivity.
Qed.

Lemma is_nan_spec (x : float) : is_nan x = true <-> Prim2SF x = S754_nan.
Proof.
  unfold is_nan. rewrite FloatAxioms.eqb_spec. unfold SFeqb. split.
  - intros H. destruct (Prim2SF x) eqn:E; try reflexivity;
      rewrite SFcompare_refl in H by congruence; discriminate.
  - intros ->. reflexivity.
Qed.

Lemma is_nan_false_spec (x : float) :
  is_nan x = false <-> Prim2SF x <> S754_nan.
Proof.
  pose proof (is_nan_spec x) as [H1 H2].
  destruct (is_nan x); split; intros H.
  - discriminate.
  - exfalso. apply H, H1. reflexivity.
  - intros E. specialize (H2 E). discriminate.
  - reflexivity.
Qed.

Lemma add_nan_l x y : is_nan x = true -> is_nan (x + y) = true.
Proof. rewrite !is_nan_spec, FloatAxioms.add_spec. intros ->. reflexivity. Qed.

Lemma add_nan_r x y : is_nan y = true -> is_nan (x + y) = true.
Proof.
  rewrite !is_nan_spec, FloatAxioms.add_spec. intros ->. destruct (Prim2SF x); reflexivity.
Qed.

Lemma sub_nan_l x y : is_nan x = true -> is_nan (x - y) = true.
Proof. rewrite !is_nan_spec, FloatAxioms.sub_spec. intros ->. reflexivity. Qed.

Lemma sub_nan_r x y : is_nan y = true -> is_nan (x - y) = true.
Proof.
  rewrite !is_nan_spec, FloatAxioms.sub_spec. intros ->. destruct (Prim2SF x); reflexivity.
Qed.

Lemma mul_nan_l x y : is_nan x = true -> is_nan (x * y) = true.
Proof. rewrite !is_nan_spec, FloatAxioms.mul_spec. intros ->. reflexivity. Qed.

Lemma mul_nan_r x y : is_nan y = true -> is_nan (x * y) = true.
Proof.
  rewrite !is_nan_spec, FloatAxioms.mul_spec. intros ->. destruct (Prim2SF x); reflexivity.
Qed.

Lemma div_nan_l x y : is_nan x = true -> is_nan (x / y) = true.
Proof. rewrite !is_nan_spec, FloatAxioms.div_spec. intros ->. reflexivity. Qed.

Lemma div_nan_r x y : is_nan y = true -> is_nan (x / y) = true.
Proof.
  rewrite !is_nan_spec, FloatAxioms.div_spec. intros ->. destruct (Prim2SF x); reflexivity.
Qed.

Lemma ltb_nan_l x y : is_nan x = true -> (x <? y) = false.
Proof. rewrite is_nan_spec, FloatAxioms.ltb_spec. intros ->. reflexivity. Qed.

Lemma ltb_nan_r x y : is_nan y = true -> (x <? y) = false.
Proof.
  rewrite is_nan_spec, FloatAxioms.ltb_spec. intros ->. destruct (Prim2SF x); reflexivity.
Qed.

Lemma leb_nan_l x y : is_nan x = true -> (x <=? y) = false.
Proof. rewrite is_nan_spec, FloatAxioms.leb_spec. intros ->. reflexivity. Qed.

Lemma leb_nan_r x y : is_nan y = true -> (x <=? y) = false.
Proof.
  rewrite is_nan_spec, FloatAxioms.leb_spec. intros ->. destruct (Prim2SF x); reflexivity.
Qed.

Lemma eqb_nan_l x y : is_nan x = true -> (x =? y) = false.
Proof. rewrite is_nan_spec, FloatAxioms.eqb_spec. intros ->. reflexivity. Qed.

Lemma eqb_nan_r x y : is_nan y = true -> (x =? y) = false.
Proof.
  rewrite is_nan_spec, FloatAxioms.eqb_spec. intros ->. destruct (Prim2SF x); reflexivity.
Qed.

Lemma ltb_irrefl x : (x <? x) = false.
Proof.
  rewrite FloatAxioms.ltb_spec. unfold SFltb.
  destruct (Prim2SF x) eqn:E; try reflexivity;
    rewrite SFcompare_refl by congruence; reflexivity.
Qed.

Lemma eqb_zero_spec x : (x =? 0) = true <-> exists s, Prim2SF x = S754_zero s.
Proof.
  rewrite FloatAxioms.eqb_spec. change (Prim2SF 0) with (S754_zero false).
  destruct (Prim2SF x) as [s|[]| |[] m e]; cbn; split;
    try discriminate; try (intros [s' H]; discriminate); eauto.
Qed.

(** Addition commutes, bit for bit. *)
Lemma add_comm x y : x + y = y + x.
Proof.
  apply Prim2SF_inj. rewrite !FloatAxioms.add_spec.
  destruct (Prim2SF x) as [[]|[]| |sx mx ex], (Prim2SF y) as [[]|[]| |sy my ey];
    try reflexivity.
  unfold SF64add, SFadd. rewrite (Z.min_comm ey ex). f_equal. apply Z.add_comm.
Qed.

(** 0/|0| is NaN: the sign computed by hueTwist for a zero hue. *)
Lemma zero_div_abs_nan x : (x =? 0) = true -> is_nan (x / abs x) = true.
Proof.
  rewrite eqb_zero_spec, is_nan_spec, FloatAxioms.div_spec, FloatAxioms.abs_spec.
  intros [s ->]. reflexivity.
Qed.

(** A finite non-zero number divided by one of the same magnitude is
    exactly 1 or -1: the quotient of the mantissas is 2^53 with no
    remainder. *)
Lemma SFdiv_same (s1 s2 : bool) (m : positive) (e : Z) :
  SF64div (S754_finite s1 m e) (S754_finite s2 m e)
  = S754_finite (xorb s1 s2) 4503599627370496 (-52).
Proof.
  unfold SF64div, SFdiv, SFdiv_core_binary.
  replace (Zdigits2 (Z.pos m) + e - (Zdigits2 (Z.pos m) + e))%Z with 0%Z by lia.
  replace (e - e)%Z with 0%Z by lia.
  change (Z.min (fexp prec emax 0) 0) with (-53)%Z.
  change (0 - -53)%Z with 53%Z. cbv iota.
  rewrite Z.shiftl_mul_pow2 by lia.
  assert (Hq : Z.div_eucl (Z.pos m * 2 ^ 53) (Z.pos m) = (2 ^ 53, 0)%Z).
  { rewrite (surjective_pairing (Z.div_eucl _ _)).
    change (fst (Z.div_eucl ?a ?b)) with (a / b)%Z.
    change (snd (Z.div_eucl ?a ?b)) with (a mod b)%Z.
    rewrite Z.mul_comm, Z.div_mul, Z.mod_mul by lia. reflexivity. }
  rewrite Hq.
  assert (Hl : new_location (Z.pos m) 0 = loc_Exact).
  { unfold new_location. destruct (Z.even (Z.pos m)); reflexivity. }
  rewrite Hl. destruct s1, s2; vm_compute; reflexivity.
Qed.

Lemma div_self x : is_finite_nonzero x = true -> x / x = 1.
Proof.
  unfold is_finite_nonzero. intros H. apply Prim2SF_inj. rewrite FloatAxioms.div_spec.
  destruct (Prim2SF x) as [ | | |s m e]; try discriminate.
  rewrite SFdiv_same. destruct s; reflexivity.
Qed.

Lemma div_abs x :
  is_finite_nonzero x = true -> x / abs x = if x <? 0 then (-1) else 1.
Proof.
  unfold is_finite_nonzero. intros H.
  rewrite FloatAxioms.ltb_spec. change (Prim2SF 0) with (S754_zero false).
  apply Prim2SF_inj. rewrite FloatAxioms.div_spec, FloatAxioms.abs_spec.
  destruct (Prim2SF x) as [ | | |s m e]; try discriminate.
  cbn [SFabs]. rewrite SFdiv_same. destruct s; reflexivity.
Qed.

(** For 0 < x < 1 the difference x - 1 is a finite non-zero number. *)
Lemma sub_one_finite_nonzero (x : float) :
  (0 <? x) = true -> (x <? 1) = true -> is_finite_nonzero (x - 1) = true.
Proof.
  unfold is_finite_nonzero. rewrite !FloatAxioms.ltb_spec, FloatAxioms.sub_spec.
  pose proof (Prim2SF_valid x) as Hv.
  change (Prim2SF 0) with (S754_zero false).
  change (Prim2SF 1) with (S754_finite false 4503599627370496 (-52)).
  destruct (Prim2SF x) as [[]|[]| |[] m e]; try discriminate.
  intros _. unfold SFltb. cbn [SFcompare]. intros Hlt.
  apply Rounding.valid_finite in Hv as (Hcan & He & Hd).
  pose proof (Rounding.digits2_pos_bounds m) as [_ Bhi].
  assert (Hm53 : (Z.pos m < 2 ^ 53)%Z).
  { eapply Z.lt_le_trans; [exact Bhi|]. apply Z.pow_le_mono_r; lia. }
  unfold SF64sub, SFsub. cbn [cond_Zopp].
  assert (Hcase : (e < -52 \/ (e = -52 /\ Z.pos m < 2 ^ 52))%Z).
  { destruct (e ?= -52)%Z eqn:Ec; try discriminate.
    - apply Z.compare_eq in Ec. right. split; [exact Ec|].
      destruct (Pos.compare_cont Eq m 4503599627370496) eqn:Em; try discriminate.
      change (2 ^ 52)%Z with (Z.pos 4503599627370496). exact Em.
    - left. apply Z.compare_lt_iff in Ec. exact Ec. }
  replace (Z.min e (-52)) with e by lia.
  unfold shl_align at 1. rewrite Z.sub_diag. cbn [fst].
  assert (Hk : exists k : positive,
             (Z.pos m - Z.pos (fst (shl_align 4503599627370496 (-52) e)) = Z.neg k
              /\ Z.pos k < 2 ^ (- e))%Z).
  { unfold shl_align. destruct Hcase as [Hlt52|[-> Hm52]].
    - destruct (e - -52)%Z as [|dd|dd] eqn:Ed; try lia. cbn [fst].
      rewrite Rounding.Zpos_iter_xO.
      assert (Hpow : (2 ^ (- e) = Z.pos 4503599627370496 * 2 ^ Z.pos dd)%Z).
      { replace (- e)%Z with (52 + Z.pos dd)%Z by lia.
        rewrite Z.pow_add_r by lia. reflexivity. }
      assert (H2 : (2 ^ 1 <= 2 ^ Z.pos dd)%Z) by (apply Z.pow_le_mono_r; lia).
      assert (HX : (2 ^ 53 <= Z.pos 4503599627370496 * 2 ^ Z.pos dd)%Z).
      { change (2 ^ 53)%Z with (Z.pos 4503599627370496 * 2 ^ 1)%Z.
        apply Z.mul_le_mono_nonneg_l; [lia|exact H2]. }
      rewrite Hpow. clear Hpow H2.
      set (X := (Z.pos 4503599627370496 * 2 ^ Z.pos dd)%Z) in *.
      destruct (Z.pos m - X)%Z as [|k|k] eqn:Ek; try lia.
      exists k. split; [reflexivity|]. lia.
    - replace (-52 - -52)%Z with 0%Z by reflexivity. cbn [fst].
      replace (2 ^ (- -52))%Z with (2 ^ 52)%Z by reflexivity.
      change (Z.pos 4503599627370496) with (2 ^ 52)%Z.
      set (X := (2 ^ 52)%Z) in *.
      destruct (Z.pos m - X)%Z as [|k|k] eqn:Ek; try lia.
      exists k. split; [reflexivity|]. lia. }
  destruct Hk as (k & -> & Hk). cbn [binary_normalize].
  destruct (Rounding.binary_round_finite true k e) as (m' & e' & ->); [lia| |reflexivity].
  pose proof (Rounding.digits2_pos_bounds k) as [Blo _].
  assert (Z.pos (digits2_pos k) - 1 < - e)%Z; [|lia].
  apply (Z.pow_lt_mono_r_iff 2); lia.
Qed.

(** Multiplying by 1 changes nothing, bit for bit. *)
Lemma SFmul_one_r (s : bool) (m : positive) (e : Z) :
  valid_binary (S754_finite s m e) = true ->
  SF64mul (S754_finite s m e) (S754_finite false 4503599627370496 (-52))
  = S754_finite s m e.
Proof.
  intros Hv. apply Rounding.valid_finite in Hv as (Hcan & He & Hd).
  unfold SF64mul, SFmul. rewrite xorb_false_r.
  assert (Hmul : (m * 4503599627370496)%positive = Pos.iter xO m 52)
    by (rewrite Pos.mul_comm; reflexivity).
  rewrite Hmul. unfold binary_round_aux, shr_fexp at 1. cbn [Zdigits2].
  rewrite Rounding.digits2_pos_iter_xO.
  replace (Z.pos (digits2_pos m) + 52 + (e + -52))%Z
    with (Z.pos (digits2_pos m) + e)%Z by lia.
  rewrite Hcan. replace (e - (e + -52))%Z with 52%Z by lia.
  cbn [shr shr_record_of_loc].
  replace (SpecFloat.iter_pos shr_1 52
             {| shr_m := Z.pos (Pos.iter xO m 52); shr_r := false; shr_s := false |})
    with {| shr_m := Z.pos m; shr_r := false; shr_s := false |} by reflexivity.
  cbn [shr_m loc_of_shr_record round_nearest_even].
  replace (e + -52 + 52)%Z with e by lia.
  rewrite Rounding.shr_fexp_noop by lia. cbn [shr_record_of_loc shr_m].
  replace (e <=? emax - prec)%Z with true; [reflexivity|].
  symmetry. apply Z.leb_le. change (emax - prec)%Z with 971%Z. lia.
Qed.

Lemma mul_one_r (x : float) : x * 1 = x.
Proof.
  apply Prim2SF_inj. rewrite FloatAxioms.mul_spec.
  change (Prim2SF 1) with (S754_finite false 4503599627370496 (-52)).
  pose proof (Prim2SF_valid x) as Hv.
  destruct (Prim2SF x) as [[]|[]| |s m e]; try reflexivity.
  apply SFmul_one_r, Hv.
Qed.

End F64.

(* ------------------------------------------------------------------ *)
(** ** DivergingMSH.At *)

Section DivergingAt.
Context `{ML : math.Lib}.
Import DivergingMSH.

(** The colour as the specification describes it: normalise the scalar
    to t = (scalar - min) / max, interpolate in MSH space, then convert
    MSH -> LAB -> XYZ -> linear RGB -> sRGB with the map's Alpha. *)
Definition At_color (p : t) (scalar : float) : sRGBA.t :=
  let t := (scalar - min p) / max p in
  let msh := interpolateMSHDiverging p t in
  let lab := MSH_lab msh in
  let xyz := cieLAB_XYZ lab in
  let rgb := cieXYZ_linearRGB xyz in
  linearRGB_S rgb (Alpha p).

(** A channel lies outside [0,1]. *)
Definition outside_unit (x : float) : bool := (x <? 0) || (x >? 1).

Definition some_channel_outside (c : sRGBA.t) : bool :=
  existsb outside_unit [sRGBA.R c; sRGBA.G c; sRGBA.B c; sRGBA.A c].

Lemma sRGBA_check_spec (c : sRGBA.t) :
  sRGBA_check c = if some_channel_outside c then Some (ErrInvalidColor c) else None.
Proof.
  destruct c as [R G B A]. unfold sRGBA_check, some_channel_outside, outside_unit.
  cbn [existsb sRGBA.R sRGBA.G sRGBA.B sRGBA.A].
  destruct (R >? 1), (G >? 1), (B >? 1), (A >? 1),
           (R <? 0), (G <? 0), (B <? 0), (A <? 0); reflexivity.
Qed.

Lemma sRGBA_check_error_iff (c : sRGBA.t) :
  sRGBA_check c <> None <-> some_channel_outside c = true.
Proof.
  rewrite sRGBA_check_spec. destruct (some_channel_outside c); split; congruence.
Qed.

(** C3.  When min differs from max, At normalises the scalar to
    t = (scalar - min) / max (the divisor is max, not max - min) and
    returns the colour obtained from interpolateMSHDiverging(t) through
    the four conversions, carrying the map's Alpha:
    MSH -> LAB is L = M cos S, A = M sin S cos H, B = M sin S sin H;
    LAB -> XYZ scales xyzTemp of (L + 16)/116, shifted by A/500 and
    B/200, by the white point (0.95047, 1, 1.08883);
    XYZ -> linear RGB is the matrix of cieXYZ.linearRGB;
    linear RGB -> sRGB applies linearToS to each channel. *)
Theorem DivergingMSH_At_color (p : t) (scalar : float) :
  (min p =? max p) = false ->
  let t := (scalar - min p) / max p in
  let msh := interpolateMSHDiverging p t in
  let L := MSH.M msh * math.Cos (MSH.S msh) in
  let A := MSH.M msh * math.Sin (MSH.S msh) * math.Cos (MSH.H msh) in
  let B := MSH.M msh * math.Sin (MSH.S msh) * math.Sin (MSH.H msh) in
  let X := 0.95047 * xyzTemp (A / 500 + (L + 16) / 116) in
  let Y := 1 * xyzTemp ((L + 16) / 116) in
  let Z := 1.08883 * xyzTemp ((L + 16) / 116 - B / 200) in
  let r := X * 3.2406 + Y * (-1.5372) + Z * (-0.4986) in
  let g := X * (-0.9689) + Y * 1.8758 + Z * 0.0415 in
  let b := X * 0.0557 + Y * (-0.204) + Z * 1.057 in
  fst (fst (At scalar p))
  = Some {| sRGBA.R := linearToS r; sRGBA.G := linearToS g;
            sRGBA.B := linearToS b; sRGBA.A := Alpha p |}
  /\ fst (fst (At scalar p)) = Some (At_color p scalar)
  /\ (forall v, xyzTemp v
                = if v >? 0.20689270648275862 then v * v * v
                  else (v - 16 / 116) / 7.787)
  /\ (forall v, linearToS v
                = if v >? 0.0031308 then 1.055 * math.Pow v (1 / 2.4) - 0.055
                  else 12.92 * v).
Proof.
  intros Hne. cbv zeta. unfold At, At_. cbn [fst]. rewrite Hne. cbn [fst].
  repeat split; reflexivity.
Qed.

(** What At returns, as one equation. *)
Lemma DivergingMSH_At_eq (p : t) (scalar : float) :
  fst (At scalar p)
  = if min p =? max p then (None, Some ErrDivergingMaxEqMin)
    else (Some (At_color p scalar),
          if some_channel_outside (At_color p scalar)
          then Some (ErrInvalidColor (At_color p scalar)) else None).
Proof.
  unfold At, At_. cbn [fst]. destruct (min p =? max p); [reflexivity|].
  rewrite sRGBA_check_spec. reflexivity.
Qed.

End DivergingAt.

(** The divisor is max, not max - min: on the domain [1, 3] the scalar 2
    is normalised to 1/3, not to 1/2. *)
Example normalisation_divides_by_max :
  let p := DivergingMSH.with_max 3 (DivergingMSH.with_min 1 DivergingMSH.SmoothBlueRed) in
  (2 - DivergingMSH.min p) / DivergingMSH.max p = 0.33333333333333331
  /\ (2 - DivergingMSH.min p) / (DivergingMSH.max p - DivergingMSH.min p) = 0.5.
Proof. split; vm_compute; reflexivity. Qed.

Section DivergingAtRuns.
#[local] Existing Instance approx.lib.

(** On the domain [1, 8] the scalar 2 is normalised to (2 - 1)/8 =
    0.125 where (2 - 1)/(8 - 1) would be 0.14285714285714285.  The
    colour is the one TestDivergingMSHAt expects at 0.125 on [0, 1]:
    (25104, 33385, 60116, 0xffff) in 16 bits, {98, 130, 234} in 8; at
    0.14285714285714285 it would be another colour. *)
Lemma DivergingMSH_At_color_witness :
  let p := DivergingMSH.with_max 8 (DivergingMSH.with_min 1 DivergingMSH.SmoothBlueRed) in
  fst (fst (DivergingMSH.At 2 p)) = Some (At_color p 2)
  /\ (2 - DivergingMSH.min p) / DivergingMSH.max p = 0.125
  /\ (2 - DivergingMSH.min p) / (DivergingMSH.max p - DivergingMSH.min p)
     = 0.14285714285714285
  /\ sRGBA_RGBA (At_color p 2)
     = (Some 25104, Some 33385, Some 60116, Some 65535)%Z
  /\ sRGBA_RGBA
       (linearRGB_S
          (cieXYZ_linearRGB
             (cieLAB_XYZ
                (MSH_lab (DivergingMSH.interpolateMSHDiverging p
                            0.14285714285714285))))
          (DivergingMSH.Alpha p))
     <> sRGBA_RGBA (At_color p 2).
Proof.
  cbv zeta. split.
  { exact (proj1 (proj2 (DivergingMSH_At_color
                           (DivergingMSH.with_max 8
                              (DivergingMSH.with_min 1 DivergingMSH.SmoothBlueRed))
                           2 eq_refl))). }
  split; [vm_compute; reflexivity|]. split; [vm_compute; reflexivity|].
  split; [vm_compute; reflexivity|].
  intros H. vm_compute in H. discriminate H.
Defined.

End DivergingAtRuns.

(* ------------------------------------------------------------------ *)
(** ** interpolateMSHDiverging below the convergence point, and hueTwist *)

(** The sign function of the specification's formula for hueTwist. *)
Definition sign (x : float) : float :=
  if x <? 0 then (-1) else if x >? 0 then 1 else 0.

Section HueTwist.
Context `{ML : math.Lib}.
Import DivergingMSH.

(** hueTwist as the specification writes it. *)
Definition hueTwist_claimed (c : MSH.t) (convergeM : float) : float :=
  sign (MSH.H c) * MSH.S c
  * math.Sqrt (convergeM * convergeM - MSH.M c * MSH.M c)
  / (MSH.M c * math.Sin (MSH.S c)).

(** The result the specification gives for t < ConvergePoint. *)
Definition below_claimed (p : t) (scalar : float) : MSH.t :=
  let interp := scalar / ConvergePoint p in
  {| MSH.M := MSH.M (start p) + (ConvergeM p - MSH.M (start p)) * interp;
     MSH.S := MSH.S (start p) * (1 - interp);
     MSH.H := MSH.H (start p) + hueTwist_claimed (start p) (ConvergeM p) * interp |}.

Lemma finite_nonzero_sign (x : float) :
  F64.is_finite_nonzero x = true -> x / abs x = sign x.
Proof.
  intros Hx. rewrite (F64.div_abs x Hx). unfold sign.
  destruct (x <? 0) eqn:Hlt; [reflexivity|].
  assert (Hgt : (x >? 0) = true).
  { revert Hx Hlt. unfold F64.is_finite_nonzero.
    rewrite !FloatAxioms.ltb_spec. change (Prim2SF 0) with (S754_zero false).
    destruct (Prim2SF x) as [ | | |[] m e]; cbn; congruence. }
  rewrite Hgt. reflexivity.
Qed.

(** The sign hueTwist computes is H/|H|: the sign of a finite non-zero
    hue, and NaN for a hue of zero. *)
Lemma signH_finite (c : MSH.t) :
  F64.is_finite_nonzero (MSH.H c) = true -> signH c = sign (MSH.H c).
Proof. apply finite_nonzero_sign. Qed.

Lemma signH_zero (c : MSH.t) :
  (MSH.H c =? 0) = true -> is_nan (signH c) = true.
Proof. apply F64.zero_div_abs_nan. Qed.

Lemma hueTwist_zero_hue (c : MSH.t) (convergeM : float) :
  (MSH.H c =? 0) = true -> is_nan (hueTwist c convergeM) = true.
Proof.
  intros H0. unfold hueTwist.
  apply F64.div_nan_l, F64.mul_nan_l, F64.mul_nan_l, signH_zero, H0.
Qed.

Lemma hueTwist_finite_hue (c : MSH.t) (convergeM : float) :
  F64.is_finite_nonzero (MSH.H c) = true ->
  hueTwist c convergeM = hueTwist_claimed c convergeM.
Proof.
  intros Hc. unfold hueTwist, hueTwist_claimed. rewrite (signH_finite c Hc).
  reflexivity.
Qed.

(** Below the convergence point, as one equation. *)
Lemma interpolate_below_eq (p : t) (scalar : float) :
  (scalar <? ConvergePoint p) = true ->
  interpolateMSHDiverging p scalar
  = {| MSH.M := MSH.M (start p)
                + (ConvergeM p - MSH.M (start p)) * (scalar / ConvergePoint p);
       MSH.S := MSH.S (start p) * (1 - scalar / ConvergePoint p);
       MSH.H := MSH.H (start p)
                + hueTwist (start p) (ConvergeM p) * (scalar / ConvergePoint p) |}.
Proof.
  intros Hlt. unfold interpolateMSHDiverging. rewrite Hlt.
  rewrite (F64.add_comm _ (MSH.M (start p))). reflexivity.
Qed.

(** With a start hue of zero the interpolated hue is NaN. *)
Lemma interpolate_below_zero_hue (p : t) (scalar : float) :
  (scalar <? ConvergePoint p) = true -> (MSH.H (start p) =? 0) = true ->
  is_nan (MSH.H (interpolateMSHDiverging p scalar)) = true.
Proof.
  intros Hlt H0. rewrite (interpolate_below_eq p scalar Hlt). cbn [MSH.H].
  apply F64.add_nan_r, F64.mul_nan_l, hueTwist_zero_hue, H0.
Qed.

(** C4 (amended).  For t < ConvergePoint, with interp = t/ConvergePoint,
    the result is M = start.M + (ConvergeM - start.M) * interp,
    S = start.S * (1 - interp), H = start.H + hueTwist * interp, where
    hueTwist(c, convergeM)
      = (c.H/|c.H|) * c.S * sqrt(convergeM^2 - c.M^2) / (c.M * sin(c.S)).
    The factor c.H/|c.H| is sign(c.H) when the hue is finite and not
    zero, and NaN when the hue is zero. *)
Theorem interpolate_below_ConvergePoint (p : t) (scalar : float) :
  (scalar <? ConvergePoint p) = true ->
  let interp := scalar / ConvergePoint p in
  interpolateMSHDiverging p scalar
  = {| MSH.M := MSH.M (start p) + (ConvergeM p - MSH.M (start p)) * interp;
       MSH.S := MSH.S (start p) * (1 - interp);
       MSH.H := MSH.H (start p) + hueTwist (start p) (ConvergeM p) * interp |}
  /\ hueTwist (start p) (ConvergeM p)
     = (MSH.H (start p) / abs (MSH.H (start p))) * MSH.S (start p)
       * math.Sqrt (ConvergeM p * ConvergeM p - MSH.M (start p) * MSH.M (start p))
       / (MSH.M (start p) * math.Sin (MSH.S (start p)))
  /\ (F64.is_finite_nonzero (MSH.H (start p)) = true ->
      MSH.H (start p) / abs (MSH.H (start p)) = sign (MSH.H (start p))
      /\ interpolateMSHDiverging p scalar = below_claimed p scalar)
  /\ ((MSH.H (start p) =? 0) = true ->
      is_nan (MSH.H (start p) / abs (MSH.H (start p))) = true
      /\ is_nan (MSH.H (interpolateMSHDiverging p scalar)) = true).
Proof.
  intros Hlt interp. split; [apply interpolate_below_eq, Hlt|].
  split; [reflexivity|]. split.
  - intros Hfin. split; [apply finite_nonzero_sign, Hfin|].
    rewrite (interpolate_below_eq p scalar Hlt). unfold below_claimed.
    rewrite (hueTwist_finite_hue _ _ Hfin). reflexivity.
  - intros H0. split; [apply F64.zero_div_abs_nan, H0|].
    apply interpolate_below_zero_hue; assumption.
Qed.

End HueTwist.

(** A map whose start colour has hue 0. *)
Definition zero_hue_map : DivergingMSH.t :=
  DivergingMSH.with_max 1
    (DivergingMSH.NewDivergingMSH (MSH.mk 80 1.08 0) (MSH.mk 80 1.08 0.5)).

(** At this map and t = 0.125 < 0.5 the formula with sign(0) = 0 gives
    the hue 0 + 0 * 0.25 = 0 (a number), and the code gives NaN, whatever
    the math library. *)
Lemma C4_counterexample :
  (0.125 <? DivergingMSH.ConvergePoint zero_hue_map) = true
  /\ sign (MSH.H (DivergingMSH.start zero_hue_map)) = 0
  /\ MSH.H (@below_claimed approx.lib zero_hue_map 0.125) = 0
  /\ (forall ML : math.Lib,
        is_nan (MSH.H (@DivergingMSH.interpolateMSHDiverging ML zero_hue_map 0.125)) = true)
  /\ (forall ML : math.Lib,
        @DivergingMSH.interpolateMSHDiverging ML zero_hue_map 0.125
        <> @below_claimed ML zero_hue_map 0.125
        \/ is_nan (MSH.H (@below_claimed ML zero_hue_map 0.125)) = true).
Proof.
  split; [reflexivity|]. split; [reflexivity|]. split; [vm_compute; reflexivity|].
  assert (Hnan : forall ML : math.Lib,
             is_nan (MSH.H (@DivergingMSH.interpolateMSHDiverging ML zero_hue_map 0.125)) = true).
  { intros ML. apply interpolate_below_zero_hue; reflexivity. }
  split; [exact Hnan|].
  intros ML. specialize (Hnan ML).
  destruct (is_nan (MSH.H (@below_claimed ML zero_hue_map 0.125))) eqn:E;
    [right; reflexivity|left].
  intros Heq. rewrite Heq in Hnan. congruence.
Qed.

Lemma interpolate_below_ConvergePoint_witness :
  let p := DivergingMSH.with_max 1 DivergingMSH.SmoothBlueRed in
  @DivergingMSH.interpolateMSHDiverging approx.lib p 0.125
  = @below_claimed approx.lib p 0.125.
Proof.
  exact (proj2 (proj1 (proj2 (proj2
           (@interpolate_below_ConvergePoint approx.lib
              (DivergingMSH.with_max 1 DivergingMSH.SmoothBlueRed) 0.125 eq_refl)))
           eq_refl)).
Defined.

(* ------------------------------------------------------------------ *)
(** ** A start hue of zero: NaN through the conversion chain *)

Section ZeroHue.
Context `{ML : math.Lib}.
Import DivergingMSH.

(** Go documents [Sin(NaN) = NaN] and [Cos(NaN) = NaN]. *)
Hypothesis Sin_NaN : forall x, is_nan x = true -> is_nan (math.Sin x) = true.
Hypothesis Cos_NaN : forall x, is_nan x = true -> is_nan (math.Cos x) = true.

Lemma xyzTemp_NaN (v : float) : is_nan v = true -> is_nan (xyzTemp v) = true.
Proof.
  intros Hv. unfold xyzTemp. rewrite (F64.ltb_nan_r _ _ Hv).
  apply F64.div_nan_l, F64.sub_nan_l, Hv.
Qed.

Lemma linearToS_NaN (v : float) : is_nan v = true -> is_nan (linearToS v) = true.
Proof.
  intros Hv. unfold linearToS. rewrite (F64.ltb_nan_r _ _ Hv).
  apply F64.mul_nan_r, Hv.
Qed.

Lemma outside_unit_NaN (v : float) : is_nan v = true -> outside_unit v = false.
Proof.
  intros Hv. unfold outside_unit.
  rewrite (F64.ltb_nan_l _ _ Hv), (F64.ltb_nan_r _ _ Hv). reflexivity.
Qed.

(** A NaN hue makes A and B of the LAB colour NaN, then X and Z, then
    all of R, G and B. *)
Lemma NaN_hue_chain (c : MSH.t) (alpha : float) :
  is_nan (MSH.H c) = true ->
  let o := linearRGB_S (cieXYZ_linearRGB (cieLAB_XYZ (MSH_lab c))) alpha in
  is_nan (sRGBA.R o) = true /\ is_nan (sRGBA.G o) = true
  /\ is_nan (sRGBA.B o) = true /\ sRGBA.A o = alpha.
Proof using Sin_NaN Cos_NaN.
  intros Hh. cbn zeta.
  assert (HA : is_nan (cieLAB.A (MSH_lab c)) = true)
    by (cbn; apply F64.mul_nan_r, Cos_NaN, Hh).
  assert (HB : is_nan (cieLAB.B (MSH_lab c)) = true)
    by (cbn; apply F64.mul_nan_r, Sin_NaN, Hh).
  destruct (MSH_lab c) as [L A B]. cbn in HA, HB.
  assert (HX : is_nan (cieXYZ.X (cieLAB_XYZ (cieLAB.mk L A B))) = true)
    by (cbn; apply F64.mul_nan_r, xyzTemp_NaN, F64.add_nan_l, F64.div_nan_l, HA).
  assert (HZ : is_nan (cieXYZ.Z (cieLAB_XYZ (cieLAB.mk L A B))) = true)
    by (cbn; apply F64.mul_nan_r, xyzTemp_NaN, F64.sub_nan_r, F64.div_nan_l, HB).
  destruct (cieLAB_XYZ (cieLAB.mk L A B)) as [X Y Z]. cbn in HX, HZ.
  cbn. repeat split; apply linearToS_NaN, F64.add_nan_l, F64.add_nan_l,
    F64.mul_nan_l, HX.
Qed.

(** C9 (amended).  If the start hue is 0, min differs from max, the
    normalised scalar t is below ConvergePoint and Alpha is neither
    below 0 nor above 1, then At returns a colour whose R, G and B are
    NaN, and a nil error: H/|H| is NaN for H = 0, the NaN runs through
    MSH -> LAB -> XYZ -> RGB, and the range check compares NaN false
    with both bounds. *)
Theorem zero_hue_gives_NaN_without_error (p : t) (scalar : float) :
  (MSH.H (start p) =? 0) = true ->
  (min p =? max p) = false ->
  ((scalar - min p) / max p <? ConvergePoint p) = true ->
  outside_unit (Alpha p) = false ->
  exists o : sRGBA.t,
    fst (At scalar p) = (Some o, None)
    /\ is_nan (sRGBA.R o) = true /\ is_nan (sRGBA.G o) = true
    /\ is_nan (sRGBA.B o) = true /\ sRGBA.A o = Alpha p.
Proof using Sin_NaN Cos_NaN.
  intros H0 Hne Hlt Halpha.
  exists (At_color p scalar).
  assert (Hh : is_nan (MSH.H (interpolateMSHDiverging p ((scalar - min p) / max p))) = true)
    by (apply interpolate_below_zero_hue; assumption).
  destruct (NaN_hue_chain _ (Alpha p) Hh) as (HR & HG & HB & HA).
  fold (At_color p scalar) in HR, HG, HB, HA.
  rewrite DivergingMSH_At_eq, Hne.
  unfold some_channel_outside. cbn [existsb].
  rewrite (outside_unit_NaN _ HR), (outside_unit_NaN _ HG), (outside_unit_NaN _ HB).
  rewrite HA, Halpha. cbn. auto.
Qed.

End ZeroHue.

(** With Alpha = 2 the same call returns an error, whatever the math
    library: the range check rejects the alpha channel. *)
Lemma C9_counterexample :
  let p := DivergingMSH.mk (MSH.mk 80 1.08 0) (MSH.mk 80 1.08 0.5) 0.5 88 2 0 1 in
  let t := (0.125 - DivergingMSH.min p) / DivergingMSH.max p in
  (MSH.H (DivergingMSH.start p) =? 0) = true
  /\ (DivergingMSH.min p =? DivergingMSH.max p) = false
  /\ (0 <? t) = true /\ (t <? DivergingMSH.ConvergePoint p) = true
  /\ forall ML : math.Lib,
       snd (fst (@DivergingMSH.At ML 0.125 p))
       = Some (ErrInvalidColor (@At_color ML p 0.125)).
Proof.
  cbn zeta. repeat (split; [reflexivity|]). intros ML.
  rewrite DivergingMSH_At_eq. cbn [snd].
  change (DivergingMSH.min _ =? DivergingMSH.max _) with false. cbn iota.
  unfold some_channel_outside. cbn [existsb snd].
  replace (outside_unit (sRGBA.A _)) with true by reflexivity.
  rewrite !orb_true_r. reflexivity.
Qed.

Section ZeroHueRuns.
#[local] Existing Instance approx.lib.

Lemma approx_Sin_NaN (x : float) : is_nan x = true -> is_nan (approx.Sin x) = true.
Proof. intros Hx. unfold approx.Sin. apply F64.mul_nan_l, Hx. Qed.

Lemma approx_Cos_NaN (x : float) : is_nan x = true -> is_nan (approx.Cos x) = true.
Proof.
  intros Hx. unfold approx.Cos.
  apply F64.sub_nan_r, F64.mul_nan_l, F64.div_nan_l, F64.mul_nan_l, Hx.
Qed.

Lemma zero_hue_gives_NaN_without_error_witness :
  exists o : sRGBA.t,
    fst (DivergingMSH.At 0.125 zero_hue_map) = (Some o, None)
    /\ is_nan (sRGBA.R o) = true /\ is_nan (sRGBA.G o) = true
    /\ is_nan (sRGBA.B o) = true /\ sRGBA.A o = DivergingMSH.Alpha zero_hue_map.
Proof.
  exact (zero_hue_gives_NaN_without_error approx_Sin_NaN approx_Cos_NaN
           zero_hue_map 0.125 eq_refl eq_refl eq_refl eq_refl).
Defined.

End ZeroHueRuns.

(* ------------------------------------------------------------------ *)
(** ** Palette leaves its receiver alone *)

(** Two calls on the same receiver, one after the other: the second
    sees the state the first one left. *)
Definition and_then {S A B : Type} (c1 : call S A) (c2 : call S B) : call S B :=
  fun s => c2 (snd (c1 s)).

Lemma eqb_zero_zero (x y : float) :
  (x =? 0) = true -> (y =? 0) = true -> (x =? y) = true.
Proof.
  rewrite !F64.eqb_zero_spec, FloatAxioms.eqb_spec.
  intros [sx ->] [sy ->]. reflexivity.
Qed.

Section PaletteFrame.
Context `{ML : math.Lib}.

(** Inside Palette the method's own copy of an unconfigured map does
    get the domain [0,1]. *)
Lemma DivergingMSH_Palette_body_defaults (nColors : Z) (p : DivergingMSH.t) :
  (DivergingMSH.max p =? 0) && (DivergingMSH.min p =? 0) = true ->
  let local := snd (DivergingMSH.Palette_body nColors p) in
  DivergingMSH.min local = 0 /\ DivergingMSH.max local = 1.
Proof.
  intros H. unfold DivergingMSH.Palette_body. rewrite H.
  destruct (makeslice_panics sizeof_Color nColors); split; reflexivity.
Qed.

Lemma Luminance_Palette_body_defaults (nColors : Z) (l : Luminance.t) :
  (Luminance.max l =? 0) = true ->
  Luminance.max (snd (Luminance.Palette_body nColors l)) = 1.
Proof.
  intros H. unfold Luminance.Palette_body. rewrite H.
  destruct (makeslice_panics sizeof_Color nColors); reflexivity.
Qed.

(** C10.  Palette does not modify the map it is called on: after the
    call the receiver is what it was, Min() and Max() report the values
    of before, and At on an unconfigured map (min and max both 0, or
    max 0 for Luminance) still fails with the degenerate-domain error. *)
Theorem Palette_preserves_receiver (nColors : Z) (scalar : float) :
  (forall p : DivergingMSH.t,
      snd (DivergingMSH.Palette nColors p) = p
      /\ fst (and_then (DivergingMSH.Palette nColors) DivergingMSH.Min p)
         = DivergingMSH.min p
      /\ fst (and_then (DivergingMSH.Palette nColors) DivergingMSH.Max p)
         = DivergingMSH.max p
      /\ fst (and_then (DivergingMSH.Palette nColors) (DivergingMSH.At scalar) p)
         = if (DivergingMSH.max p =? 0) && (DivergingMSH.min p =? 0)
           then (None, Some ErrDivergingMaxEqMin)
           else fst (DivergingMSH.At scalar p))
  /\ (forall l : Luminance.t,
      snd (Luminance.Palette nColors l) = l
      /\ fst (and_then (Luminance.Palette nColors) Luminance.Min l) = 0
      /\ fst (and_then (Luminance.Palette nColors) Luminance.Max l)
         = Luminance.max l
      /\ fst (and_then (Luminance.Palette nColors) (Luminance.At scalar) l)
         = if Luminance.max l =? 0
           then Ret (None, Some ErrLuminanceMaxZero)
           else fst (Luminance.At scalar l)).
Proof.
  split.
  - intros p. unfold and_then, DivergingMSH.Palette, value_receiver. cbn [snd fst].
    repeat split.
    destruct ((DivergingMSH.max p =? 0) && (DivergingMSH.min p =? 0)) eqn:E;
      [|reflexivity].
    apply andb_true_iff in E as [Hmax Hmin].
    unfold DivergingMSH.At, DivergingMSH.At_. cbn [fst].
    rewrite (eqb_zero_zero _ _ Hmin Hmax). reflexivity.
  - intros l. unfold and_then, Luminance.Palette, value_receiver. cbn [snd fst].
    repeat split.
    destruct (Luminance.max l =? 0) eqn:E; [|reflexivity].
    unfold Luminance.At, Luminance.At_. cbn [fst]. rewrite E. reflexivity.
Qed.

End PaletteFrame.

(* ------------------------------------------------------------------ *)
(** ** CIE XYZ <-> CIE LAB *)

(** Absolute tolerance per component. *)
Definition within (tol x y : float) : bool := abs (x - y) <=? tol.

Definition cieXYZ_within (tol : float) (a b : cieXYZ.t) : bool :=
  within tol (cieXYZ.X a) (cieXYZ.X b) && within tol (cieXYZ.Y a) (cieXYZ.Y b)
  && within tol (cieXYZ.Z a) (cieXYZ.Z b).

Definition cieLAB_within (tol : float) (a b : cieLAB.t) : bool :=
  within tol (cieLAB.L a) (cieLAB.L b) && within tol (cieLAB.A a) (cieLAB.A b)
  && within tol (cieLAB.B a) (cieLAB.B b).

(** A CIELAB value is within the sRGB gamut when its linear RGB
    channels lie in [0,1]. *)
Definition in_unit (x : float) : bool := (0 <=? x) && (x <=? 1).

Definition in_gamut (c : cieLAB.t) : bool :=
  let rgb := cieXYZ_linearRGB (cieLAB_XYZ c) in
  in_unit (linearRGB.R rgb) && in_unit (linearRGB.G rgb) && in_unit (linearRGB.B rgb).

(** The white point cieXYZ.LAB divides by. *)
Definition LAB_white : cieXYZ.t := cieXYZ.mk 0.9505 1 1.089.

(** The white point cieLAB.XYZ multiplies by. *)
Definition XYZ_white : cieXYZ.t := cieXYZ.mk xn yn zn.

Section WhitePoint.
Context `{ML : math.Lib}.

(** Go documents [Pow(1, y) = 1] for any y. *)
Hypothesis Pow_1 : forall y, math.Pow 1 y = 1.

(** C2 (amended).  The two directions do not use the same white point.
    cieLAB.XYZ sends L = 100, A = B = 0 to (0.95047, 1.0, 1.08883);
    cieXYZ.LAB sends (0.9505, 1.0, 1.089) to L = 100, A = B = 0.  So the
    round trip XYZ -> LAB -> XYZ of (0.9505, 1.0, 1.089) returns
    (0.95047, 1.0, 1.08883): off by 3e-5 in X and 1.7e-4 in Z, hence not
    within 1e-6. *)
Theorem XYZ_LAB_white_points :
  cieLAB_XYZ (cieLAB.mk 100 0 0) = cieXYZ.mk 0.95047 1 1.08883
  /\ cieXYZ_LAB (cieXYZ.mk 0.9505 1 1.089) = cieLAB.mk 100 0 0
  /\ cieLAB_XYZ (cieXYZ_LAB LAB_white) = XYZ_white
  /\ cieXYZ_within 0.000001 (cieLAB_XYZ (cieXYZ_LAB LAB_white)) LAB_white = false.
Proof using Pow_1.
  assert (HL : cieXYZ_LAB (cieXYZ.mk 0.9505 1 1.089) = cieLAB.mk 100 0 0).
  { unfold cieXYZ_LAB, labTemp. cbn [cieXYZ.X cieXYZ.Y cieXYZ.Z].
    change (0.9505 / 0.9505) with 1. change (1.089 / 1.089) with 1.
    change (1 >? 0.008856) with true. cbn iota. rewrite Pow_1.
    vm_compute. reflexivity. }
  split; [vm_compute; reflexivity|]. split; [exact HL|].
  unfold LAB_white. rewrite HL. split; vm_compute; reflexivity.
Qed.

End WhitePoint.

(** The dark colour L = 2, A = 8, B = -8 is within the gamut and stays
    on the linear branch of both conversions, so the math library is
    not called.  Its round trip XYZ -> LAB -> XYZ is off by 1.2e-6 in Z
    and its round trip LAB -> XYZ -> LAB by 5.2e-4 in A and 1.8e-3 in B. *)
Lemma C2_counterexample :
  let lab := cieLAB.mk 2 8 (-8) in
  in_gamut lab = true
  /\ forall ML : math.Lib,
       cieXYZ_within 0.000001 (cieLAB_XYZ (@cieXYZ_LAB ML (cieLAB_XYZ lab)))
                     (cieLAB_XYZ lab) = false
       /\ cieLAB_within 0.000001 (@cieXYZ_LAB ML (cieLAB_XYZ lab)) lab = false
       /\ cieLAB_XYZ (@cieXYZ_LAB ML (cieLAB_XYZ lab))
          = cieXYZ.mk 0.0040572668014895842 0.0022141234506671162 0.0080026199459455414
       /\ cieLAB_XYZ lab
          = cieXYZ.mk 0.0040573948623479445 0.0022141234506671162 0.0080038694021423874.
Proof.
  cbn zeta. split; [vm_compute; reflexivity|].
  intros ML. repeat split; vm_compute; reflexivity.
Qed.

(** The repository's own test of lab.XYZ() (TestXYZToLAB) pins a round
    trip that is off by 4.8e-6 in X and 9.5e-6 in Z. *)
Example TestXYZToLAB_back :
  cieLAB_XYZ (cieLAB.mk 40.00000000055783 30.000000104296763 19.99999996294335)
  = cieXYZ.mk 0.15197025931227778 0.11250973800000005 0.06105693812573921
  /\ cieXYZ_within 0.000001
       (cieXYZ.mk 0.15197025931227778 0.11250973800000005 0.06105693812573921)
       (cieXYZ.mk 0.151975056 0.112509738 0.061066471) = false.
Proof. split; vm_compute; reflexivity. Qed.

Section WhitePointRuns.
#[local] Existing Instance approx.lib.

Lemma approx_Pow_1 (y : float) : approx.Pow 1 y = 1.
Proof.
  unfold approx.Pow. change (1 =? 1) with true. rewrite orb_true_r. reflexivity.
Qed.

Lemma XYZ_LAB_white_points_witness :
  cieLAB_XYZ (cieLAB.mk 100 0 0) = cieXYZ.mk 0.95047 1 1.08883
  /\ cieXYZ_LAB (cieXYZ.mk 0.9505 1 1.089) = cieLAB.mk 100 0 0
  /\ cieLAB_XYZ (cieXYZ_LAB LAB_white) = XYZ_white
  /\ cieXYZ_within 0.000001 (cieLAB_XYZ (cieXYZ_LAB LAB_white)) LAB_white = false.
Proof. exact (XYZ_LAB_white_points approx_Pow_1). Defined.

End WhitePointRuns.

(* ------------------------------------------------------------------ *)
(** ** NewLuminance *)

Lemma assign_in_range {A : Type} (s : list A) (i : nat) (v : A) :
  (i < length s)%nat -> assign s (Z.of_nat i) v = Ret (<[i := v]> s).
Proof.
  intros Hi. unfold assign.
  replace ((0 <=? Z.of_nat i) && (Z.of_nat i <? Z.of_nat (length s)))%Z with true.
  - rewrite Nat2Z.id. reflexivity.
  - symmetry. apply andb_true_iff. split; [apply Z.leb_le|apply Z.ltb_lt]; lia.
Qed.

Lemma index_Some {A : Type} (s : list A) (i : nat) (v : A) :
  s !! i = Some v -> index s i = Ret v.
Proof. unfold index. intros ->. reflexivity. Qed.

(** The first place, if any, where a luminance is [<=] the one before
    it: the position, that luminance and its predecessor. *)
Fixpoint first_violation (prev : option float) (i : nat) (Ls : list float)
  : option (nat * float * float) :=
  match Ls with
  | [] => None
  | L :: Ls' =>
    match prev with
    | Some Lp =>
      if L <=? Lp then Some (i, L, Lp) else first_violation (Some L) (S i) Ls'
    | None => first_violation (Some L) (S i) Ls'
    end
  end.

(** The running maximum and minimum of NewLuminance. *)
Definition running_Max (m : float) (Ls : list float) : float := fold_left math.Max Ls m.
Definition running_Min (m : float) (Ls : list float) : float := fold_left math.Min Ls m.

Lemma first_violation_None (prev : option float) (i : nat) (Ls : list float) :
  first_violation prev i Ls = None <->
  (forall L Lp, prev = Some Lp -> Ls !! 0%nat = Some L -> (L <=? Lp) = false)
  /\ (forall k Lp L, Ls !! k = Some Lp -> Ls !! S k = Some L -> (L <=? Lp) = false).
Proof.
  revert prev i. induction Ls as [|L Ls IH]; intros prev i; cbn [first_violation].
  - split; [|reflexivity]. intros _. split; intros; discriminate.
  - assert (Hrec : first_violation (Some L) (S i) Ls = None <->
                   (forall k Lp L', (L :: Ls) !! k = Some Lp -> (L :: Ls) !! S k = Some L' ->
                                    (L' <=? Lp) = false)).
    { rewrite IH. split.
      - intros [H0 Hk] [|k] Lp L' H1 H2; cbn in H1, H2.
        + injection H1 as <-. eauto.
        + eauto.
      - intros H. split.
        + intros L' Lp [= <-] H2. apply (H 0%nat L L'); [reflexivity|exact H2].
        + intros k Lp L' H1 H2. apply (H (S k) Lp L'); assumption. }
    destruct prev as [Lp|].
    + destruct (L <=? Lp) eqn:E.
      * split; [discriminate|]. intros [H0 _].
        specialize (H0 L Lp eq_refl eq_refl). congruence.
      * rewrite Hrec. split.
        -- intros H. split; [|exact H]. intros L' Lp' [= <-] [= <-]. exact E.
        -- intros [_ H]. exact H.
    + rewrite Hrec. split.
      * intros H. split; [discriminate|exact H].
      * intros [_ H]. exact H.
Qed.

Section NewLuminance.
Context `{ML : math.Lib}.
Import Luminance.

(** The CIELAB colours of the control colours. *)
Definition labs (cs : list color.Color) : list cieLAB.t :=
  map (fun c => sRGBA_LAB (colorTosRGBA c)) cs.

Definition prev_L (i : nat) (colors : list cieLAB.t) : option float :=
  match i with
  | O => None
  | S j => cieLAB.L <$> colors !! j
  end.

Lemma NewLuminance_loop_spec (cs : list color.Color) :
  forall (i : nat) (colors : list cieLAB.t) (max min : float),
    (i + length cs = length colors)%nat ->
    NewLuminance_loop cs i colors max min
    = match first_violation (prev_L i colors) i (map cieLAB.L (labs cs)) with
      | Some (k, L, Lp) => Ret (inr (ErrLuminanceOrder k L (k - 1) Lp))
      | None => Ret (inl (take i colors ++ labs cs,
                          running_Max max (map cieLAB.L (labs cs)),
                          running_Min min (map cieLAB.L (labs cs))))
      end.
Proof.
  induction cs as [|c cs IH]; intros i colors max min Hlen.
  - cbn. cbn in Hlen. rewrite Nat.add_0_r in Hlen. subst i.
    rewrite firstn_all, app_nil_r. reflexivity.
  - cbn [NewLuminance_loop labs map first_violation running_Max running_Min fold_left].
    cbn [length] in Hlen.
    set (lab := sRGBA_LAB (colorTosRGBA c)).
    rewrite assign_in_range by lia. cbn [rbind].
    assert (Hi : <[i:=lab]> colors !! i = Some lab)
      by (apply list_lookup_insert_eq; lia).
    assert (Htake : take (S i) (<[i:=lab]> colors) ++ labs cs
                    = take i colors ++ lab :: labs cs).
    { rewrite (take_S_r _ _ _ Hi), take_insert_ge by lia.
      rewrite <- app_assoc. reflexivity. }
    assert (Hnext : NewLuminance_loop cs (S i) (<[i:=lab]> colors)
                      (math.Max max (cieLAB.L lab)) (math.Min min (cieLAB.L lab))
                    = match first_violation (Some (cieLAB.L lab)) (S i)
                              (map cieLAB.L (labs cs)) with
                      | Some (k, L, Lp) => Ret (inr (ErrLuminanceOrder k L (k - 1) Lp))
                      | None => Ret (inl (take i colors ++ lab :: labs cs,
                                  running_Max (math.Max max (cieLAB.L lab)) (map cieLAB.L (labs cs)),
                                  running_Min (math.Min min (cieLAB.L lab)) (map cieLAB.L (labs cs))))
                      end).
    { rewrite IH by (rewrite length_insert; lia).
      cbn [prev_L]. rewrite Hi. cbn [fmap option_fmap option_map].
      rewrite Htake. reflexivity. }
    destruct i as [|j].
    + cbn [prev_L]. exact Hnext.
    + cbn [prev_L].
      assert (Hj : is_Some (colors !! j)) by (apply lookup_lt_is_Some; lia).
      destruct Hj as [prev Hj].
      rewrite (index_Some _ j prev) by (rewrite list_lookup_insert_ne by lia; exact Hj).
      cbn [rbind]. rewrite Hj. cbn [fmap option_fmap option_map].
      destruct (cieLAB.L lab <=? cieLAB.L prev).
      * replace (S j - 1)%nat with j by lia. reflexivity.
      * exact Hnext.
Qed.

Lemma NewLuminance_normalize_spec (cs : list cieLAB.t) (min rnge : float) :
  forall (i : nat) (scalars : list float),
    (i + length cs = length scalars)%nat ->
    NewLuminance_normalize cs i scalars min rnge
    = Ret (take i scalars ++ map (fun c => (cieLAB.L c - min) / rnge) cs).
Proof.
  induction cs as [|c cs IH]; intros i scalars Hlen; cbn [NewLuminance_normalize map].
  - cbn in Hlen. rewrite Nat.add_0_r in Hlen. subst i.
    rewrite firstn_all, app_nil_r. reflexivity.
  - cbn [length] in Hlen. rewrite assign_in_range by lia. cbn [rbind].
    rewrite IH by (rewrite length_insert; lia).
    rewrite (take_S_r _ _ ((cieLAB.L c - min) / rnge))
      by (apply list_lookup_insert_eq; lia).
    rewrite take_insert_ge by lia. rewrite <- app_assoc. reflexivity.
Qed.


(** The scalars before the two final assignments: every luminance
    normalised by the running minimum and maximum. *)
Definition normalized (cs : list cieLAB.t) : list float :=
  let Ls := map cieLAB.L cs in
  let Lmax := running_Max (math.Inf (-1)) Ls in
  let Lmin := running_Min (math.Inf 1) Ls in
  map (fun c => (cieLAB.L c - Lmin) / (Lmax - Lmin)) cs.

(** What NewLuminance returns, case by case. *)
Lemma NewLuminance_eq (cs : list color.Color) :
  NewLuminance cs
  = match first_violation None 0 (map cieLAB.L (labs cs)) with
    | Some (k, L, Lp) => Ret (None, Some (ErrLuminanceOrder k L (k - 1) Lp))
    | None =>
      match cs with
      | [] => Panics (PanicIndex 0 0)
      | _ :: _ =>
        Ret (Some {| colors := labs cs;
                     scalars := <[(length cs - 1)%nat := 1]> (<[0%nat := 0]> (normalized (labs cs)));
                     Alpha := 1; max := 0 |},
             None)
      end
    end.
Proof.
  unfold NewLuminance.
  rewrite NewLuminance_loop_spec by (rewrite length_replicate; reflexivity).
  cbn [prev_L]. rewrite take_0. cbn [app].
  destruct (first_violation None 0 (map cieLAB.L (labs cs))) as [[[k L] Lp]|];
    [reflexivity|].
  cbn [rbind].
  rewrite NewLuminance_normalize_spec
    by (unfold labs; rewrite List.length_map, length_replicate; reflexivity).
  cbn [rbind]. rewrite take_0. cbn [app]. fold (normalized (labs cs)).
  destruct cs as [|c cs]; [reflexivity|].
  assert (Hn : length (normalized (labs (c :: cs))) = S (length cs))
    by (unfold normalized, labs; rewrite !List.length_map; reflexivity).
  rewrite (assign_in_range _ 0) by lia. cbn [rbind].
  rewrite length_insert, Hn.
  replace (Z.of_nat (S (length cs)) - 1)%Z with (Z.of_nat (length cs)) by lia.
  rewrite assign_in_range by (rewrite length_insert; lia).
  cbn [rbind].
  replace (length (c :: cs) - 1)%nat with (length cs) by (cbn [length]; lia).
  reflexivity.
Qed.


(** Some luminance is [<=] the one before it. *)
Definition not_increasing (Ls : list float) : Prop :=
  exists k Lp L, Ls !! k = Some Lp /\ Ls !! S k = Some L /\ (L <=? Lp) = true.

Lemma first_violation_Some (Ls : list float) :
  (exists v, first_violation None 0 Ls = Some v) <-> not_increasing Ls.
Proof.
  split.
  - intros [v Hv]. unfold not_increasing.
    destruct (first_violation None 0 Ls) eqn:E; [clear Hv|discriminate].
    assert (H : ~ (forall k Lp L, Ls !! k = Some Lp -> Ls !! S k = Some L ->
                                  (L <=? Lp) = false)).
    { intros H. assert (first_violation None 0 Ls = None); [|congruence].
      apply first_violation_None. split; [discriminate|exact H]. }
    clear E. induction Ls as [|a Ls IH]; [exfalso; apply H; intros k ? ? Hk; destruct k; discriminate|].
    destruct Ls as [|b Ls].
    { exfalso. apply H. intros [|k] ? ? H1 H2; discriminate. }
    destruct (b <=? a) eqn:E.
    + exists 0%nat, a, b. auto.
    + destruct IH as (k & Lp & L & H1 & H2 & H3).
      * intros H'. apply H. intros [|k] Lp L H1 H2.
        -- cbn in H1, H2. congruence.
        -- apply (H' k Lp L); assumption.
      * exists (S k), Lp, L. auto.
  - intros (k & Lp & L & H1 & H2 & H3).
    destruct (first_violation None 0 Ls) eqn:E; [eauto|].
    apply first_violation_None in E as [_ E].
    rewrite (E k Lp L H1 H2) in H3. discriminate.
Qed.

(** C5 (amended).  NewLuminance returns an error and no map exactly
    when some control colour's luminance is less than or equal to its
    predecessor's (a NaN luminance compares false and is let through).
    Otherwise, for at least one control colour, it returns the map with
    scalars[i] = (L_i - Lmin) / (Lmax - Lmin), overwritten first at
    index 0 by 0 and then at the last index by 1: for two or more
    colours scalars[0] = 0 and scalars[last] = 1; for a single colour
    both assignments hit the same element and scalars = [1].  With no
    control colour the assignment scalars[0] = 0 panics. *)
Theorem NewLuminance_outcome (cs : list color.Color) :
  let Ls := map cieLAB.L (labs cs) in
  let n := length cs in
  let final := <[(n - 1)%nat := 1]> (<[0%nat := 0]> (normalized (labs cs))) in
  NewLuminance cs
  = match first_violation None 0 Ls with
    | Some (k, L, Lp) => Ret (None, Some (ErrLuminanceOrder k L (k - 1) Lp))
    | None =>
      match cs with
      | [] => Panics (PanicIndex 0 0)
      | _ :: _ => Ret (Some {| colors := labs cs; scalars := final;
                               Alpha := 1; max := 0 |}, None)
      end
    end
  /\ ((exists e, NewLuminance cs = Ret (None, Some e)) <-> not_increasing Ls)
  /\ length final = n
  /\ ((1 <= n)%nat -> final !! (n - 1)%nat = Some 1)
  /\ ((2 <= n)%nat -> final !! 0%nat = Some 0)
  /\ (n = 1%nat -> final = [1])
  /\ (forall i, (0 < i < n - 1)%nat ->
        final !! i
        = (fun c => (cieLAB.L c - running_Min (math.Inf 1) Ls)
                    / (running_Max (math.Inf (-1)) Ls - running_Min (math.Inf 1) Ls))
            <$> labs cs !! i).
Proof.
  intros Ls n final.
  assert (Hlen : length (normalized (labs cs)) = n)
    by (unfold normalized, labs; rewrite !List.length_map; reflexivity).
  split; [apply NewLuminance_eq|]. split.
  { rewrite NewLuminance_eq. fold Ls. rewrite <- first_violation_Some. split.
    - intros [e He]. destruct (first_violation None 0 Ls) as [v|]; [eauto|].
      destruct cs; discriminate.
    - intros [[[k L] Lp] ->]. eauto. }
  split; [unfold final; rewrite !length_insert; exact Hlen|].
  split; [intros Hn; unfold final; apply list_lookup_insert_eq;
          rewrite length_insert; lia|].
  split; [intros Hn; unfold final; rewrite list_lookup_insert_ne by lia;
          apply list_lookup_insert_eq; lia|].
  split.
  { intros Hn. unfold final. rewrite Hn. cbn [Nat.sub].
    destruct (normalized (labs cs)) as [|x [|y l]]; cbn in Hlen; try lia.
    reflexivity. }
  intros i Hi. unfold final.
  rewrite !list_lookup_insert_ne by lia.
  unfold normalized. fold Ls. rewrite list_lookup_fmap. reflexivity.
Qed.

End NewLuminance.

(** Opaque black alone (NRGBA 0 0 0 255): construction succeeds with
    scalars = [1], so scalars[0] is 1 and not 0.  Black followed by a
    fully transparent colour (NRGBA 0 0 0 0): the division by alpha = 0
    makes the second luminance NaN, which does not exceed 0, yet
    construction succeeds.  Neither run calls the math library. *)
Lemma C5_counterexample :
  (forall ML : math.Lib,
      @Luminance.NewLuminance ML [color.NRGBA 0 0 0 255]
      = Ret (Some {| Luminance.colors := [cieLAB.mk 0 0 0];
                     Luminance.scalars := [1];
                     Luminance.Alpha := 1; Luminance.max := 0 |}, None))
  /\ (forall ML : math.Lib,
      @Luminance.NewLuminance ML [color.NRGBA 0 0 0 255; color.NRGBA 0 0 0 0]
      = Ret (Some {| Luminance.colors := [cieLAB.mk 0 0 0; cieLAB.mk nan nan nan];
                     Luminance.scalars := [0; 1];
                     Luminance.Alpha := 1; Luminance.max := 0 |}, None))
  /\ (nan >? 0) = false.
Proof.
  split; [|split]; [intros ML; vm_compute; reflexivity ..|reflexivity].
Qed.

(* ------------------------------------------------------------------ *)
(** ** Binary search *)

Lemma midpoint_bounds (i j : nat) :
  (i < j)%nat -> (i <= (i + j) / 2 < j)%nat.
Proof.
  intros H. split.
  - apply Nat.div_le_lower_bound; lia.
  - apply Nat.Div0.div_lt_upper_bound; lia.
Qed.

Section Search.
Variable f : nat -> bool.

Lemma search_loop_bounds (fuel : nat) :
  forall i j : nat, (i <= j)%nat ->
    (i <= sort.search_loop fuel f i j <= j)%nat.
Proof.
  induction fuel as [|fuel IH]; intros i j Hij; cbn [sort.search_loop]; [lia|].
  destruct (i <? j)%nat eqn:Hlt; [|lia].
  apply Nat.ltb_lt in Hlt. pose proof (midpoint_bounds i j Hlt) as Hh.
  destruct (f ((i + j) / 2)); cbn [negb].
  - specialize (IH i ((i + j) / 2)%nat ltac:(lia)). lia.
  - specialize (IH ((i + j) / 2 + 1)%nat j ltac:(lia)). lia.
Qed.

(** If the predicate holds at the last index, the search ends below the
    length, whatever the predicate does elsewhere. *)
Lemma search_loop_last_true (fuel : nat) :
  forall i j : nat, (i < j)%nat -> f (j - 1)%nat = true ->
    (sort.search_loop fuel f i j <= j - 1)%nat.
Proof.
  induction fuel as [|fuel IH]; intros i j Hij Hf; cbn [sort.search_loop]; [lia|].
  destruct (i <? j)%nat eqn:Hlt; [|lia].
  pose proof (midpoint_bounds i j Hij) as Hh.
  destruct (f ((i + j) / 2)) eqn:E; cbn [negb].
  - pose proof (search_loop_bounds fuel i ((i + j) / 2)%nat ltac:(lia)). lia.
  - assert ((i + j) / 2 <> j - 1)%nat by (intros Heq; rewrite Heq in E; congruence).
    destruct (Nat.eq_dec ((i + j) / 2 + 1)%nat j) as [Heq|Hne]; [lia|].
    apply IH; [lia|exact Hf].
Qed.

(** On a predicate that, once true, stays true below [n], the search
    returns the first index where it holds ([n] if there is none); [n]
    iterations of fuel are enough for the loop to have ended. *)
Lemma search_loop_first (n : nat) :
  (forall k k', (k <= k' < n)%nat -> f k = true -> f k' = true) ->
  forall (fuel i j : nat),
    (i <= j <= n)%nat -> (j - i <= fuel)%nat ->
    (forall k, (k < i)%nat -> f k = false) ->
    (forall k, (j <= k < n)%nat -> f k = true) ->
    let r := sort.search_loop fuel f i j in
    (forall k, (k < r)%nat -> f k = false) /\ (forall k, (r <= k < n)%nat -> f k = true).
Proof.
  intros Hmono. induction fuel as [|fuel IH]; intros i j Hij Hfuel Hlo Hhi;
    cbn [sort.search_loop].
  - split; [exact Hlo|]. intros k Hk. apply Hhi. lia.
  - destruct (i <? j)%nat eqn:Hlt.
    + apply Nat.ltb_lt in Hlt. pose proof (midpoint_bounds i j Hlt) as Hh.
      destruct (f ((i + j) / 2)) eqn:E; cbn [negb].
      * apply IH; [lia|lia|exact Hlo|].
        intros k Hk. apply (Hmono ((i + j) / 2)%nat k); [lia|exact E].
      * apply IH; [lia|lia| |exact Hhi].
        intros k Hk. destruct (f k) eqn:Ek; [|reflexivity].
        rewrite (Hmono k ((i + j) / 2)%nat) in E; [discriminate|lia|exact Ek].
    + apply Nat.ltb_ge in Hlt. split; [exact Hlo|].
      intros k Hk. apply Hhi. lia.
Qed.

End Search.

Lemma Search_le (n : nat) (f : nat -> bool) : (sort.Search n f <= n)%nat.
Proof. unfold sort.Search. pose proof (search_loop_bounds f n 0 n). lia. Qed.

Definition ge_at (a : list float) (x : float) (i : nat) : bool :=
  match a !! i with
  | Some v => v >=? x
  | None => false
  end.

Lemma SearchFloat64s_le (a : list float) (x : float) :
  (sort.SearchFloat64s a x <= length a)%nat.
Proof. apply Search_le. Qed.

(** The insertion index is a valid index as soon as the last element is
    [>= x]. *)
Lemma SearchFloat64s_lt (a : list float) (x v : float) :
  last a = Some v -> (v >=? x) = true ->
  (sort.SearchFloat64s a x < length a)%nat.
Proof.
  intros Hlast Hv.
  assert (Hn : (0 < length a)%nat) by (destruct a; [discriminate|cbn; lia]).
  unfold sort.SearchFloat64s, sort.Search.
  pose proof (search_loop_last_true (ge_at a x) (length a) 0 (length a) Hn) as H.
  unfold ge_at in H. rewrite Nat.sub_1_r, <- last_lookup, Hlast in H.
  specialize (H Hv). lia.
Qed.

(** On a slice sorted in increasing order the result is the first
    index whose element is [>= x]. *)
Lemma SearchFloat64s_first (a : list float) (x : float) :
  (forall k k' v v', (k <= k')%nat -> a !! k = Some v -> a !! k' = Some v' ->
                     (v >=? x) = true -> (v' >=? x) = true) ->
  let r := sort.SearchFloat64s a x in
  (forall k v, (k < r)%nat -> a !! k = Some v -> (v >=? x) = false)
  /\ (forall v, a !! r = Some v -> (v >=? x) = true).
Proof.
  intros Hsorted r.
  destruct (search_loop_first (ge_at a x) (length a)) with
    (fuel := length a) (i := 0%nat) (j := length a) as [Hlo Hhi]; try lia.
  - intros k k' Hk. unfold ge_at.
    destruct (a !! k) as [v|] eqn:E1; [|discriminate].
    destruct (lookup_lt_is_Some_2 a k' ltac:(lia)) as [v' E2]. rewrite E2.
    apply (Hsorted k k' v v'); [lia|assumption..].
  - fold (sort.Search (length a) (ge_at a x)) in Hlo, Hhi.
    change (sort.Search (length a) (ge_at a x)) with r in Hlo, Hhi.
    split.
    + intros k v Hk E. specialize (Hlo k Hk). unfold ge_at in Hlo.
      rewrite E in Hlo. exact Hlo.
    + intros v E. specialize (Hhi r). unfold ge_at in Hhi. rewrite E in Hhi.
      apply Hhi. split; [lia|]. apply lookup_lt_is_Some. eauto.
Qed.

(** Comparison facts. *)
Lemma SFcompare_swap (x y : spec_float) :
  SFcompare y x = option_map CompOpp (SFcompare x y).
Proof.
  destruct x as [[]|[]| |[] mx ex], y as [[]|[]| |[] my ey]; try reflexivity;
    cbn [SFcompare option_map]; f_equal;
    rewrite (Z.compare_antisym ex ey);
    destruct (ex ?= ey)%Z; cbn [CompOpp]; try reflexivity;
    change Eq with (CompOpp Eq) at 1; rewrite Pos.compare_cont_antisym;
    cbn [CompOpp]; rewrite ?CompOpp_involutive; reflexivity.
Qed.

Lemma not_gtb_leb (x y : float) :
  is_nan x = false -> is_nan y = false -> (x >? y) = false -> (x <=? y) = true.
Proof.
  rewrite !F64.is_nan_false_spec, FloatAxioms.ltb_spec, FloatAxioms.leb_spec.
  unfold SFltb, SFleb. rewrite (SFcompare_swap (Prim2SF x) (Prim2SF y)).
  intros Hx Hy.
  destruct (SFcompare (Prim2SF x) (Prim2SF y)) as [[]|] eqn:E;
    cbn; try congruence.
  destruct (Prim2SF x) as [[]|[]| |[] mx ex], (Prim2SF y) as [[]|[]| |[] my ey];
    cbn in E; congruence.
Qed.

(* ------------------------------------------------------------------ *)
(** ** Luminance.At *)

Section LuminanceAt.
Context `{ML : math.Lib}.
Import Luminance.

(** The colour between the control colours [i-1] and [i], before
    clamping. *)
Definition between (l : t) (scalar : float) (i : nat) : sRGBA.t :=
  let zero := cieLAB.mk 0 0 0 in
  let c1 := nth (i - 1) (colors l) zero in
  let c2 := nth i (colors l) zero in
  let s1 := nth (i - 1) (scalars l) 0 in
  let s2 := nth i (scalars l) 0 in
  let frac := (scalar - s1) / (s2 - s1) in
  cieLAB_sRGB {| cieLAB.L := frac * (cieLAB.L c2 - cieLAB.L c1) + cieLAB.L c1;
                 cieLAB.A := frac * (cieLAB.A c2 - cieLAB.A c1) + cieLAB.A c1;
                 cieLAB.B := frac * (cieLAB.B c2 - cieLAB.B c1) + cieLAB.B c1 |}
              (Alpha l).

(** The first two tests of At decide, alone, whether an error is
    returned. *)
Lemma Luminance_At_error (l : t) (scalar : float) :
  let t := scalar / max l in
  ((max l =? 0) = true -> At_ l scalar = Ret (None, Some ErrLuminanceMaxZero))
  /\ ((max l =? 0) = false -> (t <? 0) || (t >? 1) = true ->
      At_ l scalar = Ret (None, Some (ErrOutOfRange t (max l))))
  /\ ((exists c e, At_ l scalar = Ret (c, Some e))
      <-> (max l =? 0) || (t <? 0) || (t >? 1) = true).
Proof.
  intros t. unfold At_. fold t.
  destruct (max l =? 0) eqn:E0.
  { split; [reflexivity|]. split; [intros [=]|].
    split; [reflexivity|]. intros _. do 2 eexists. reflexivity. }
  destruct ((t <? 0) || (t >? 1)) eqn:E1.
  { split; [intros [=]|]. split; [reflexivity|].
    split; [intros _; exact E1|]. intros _. do 2 eexists. reflexivity. }
  split; [intros [=]|]. split; [intros _ [=]|].
  split; [|intros Hor; cbn [orb] in Hor; rewrite E1 in Hor; discriminate Hor].
  intros (c & e & H). exfalso.
  unfold rbind in H.
  repeat match type of H with
         | context [match ?x with _ => _ end] => destruct x
         end; discriminate H.
Qed.

Lemma index_nth {A : Type} (s : list A) (i : nat) (d : A) :
  (i < length s)%nat -> index s i = Ret (nth i s d).
Proof.
  intros Hi. destruct (lookup_lt_is_Some_2 s i Hi) as [v Hv].
  unfold index. rewrite Hv. f_equal. symmetry. apply nth_lookup_Some with (d := d) in Hv.
  exact Hv.
Qed.

(** With a valid insertion index At returns a colour and no error. *)
Lemma Luminance_At_color (l : t) (scalar : float) :
  let t := scalar / max l in
  let i := sort.SearchFloat64s (scalars l) t in
  (max l =? 0) = false -> (t <? 0) || (t >? 1) = false ->
  length (colors l) = length (scalars l) ->
  (i < length (scalars l))%nat ->
  At_ l scalar
  = if (i =? 0)%nat
    then Ret (Some (cieLAB_sRGB (nth 0 (colors l) (cieLAB.mk 0 0 0)) (Alpha l)), None)
    else Ret (Some (sRGBA_fix (between l t i)), None).
Proof.
  intros t i E0 E1 Hlen Hi. unfold At_. fold t. rewrite E0, E1. fold i.
  destruct (i =? 0)%nat eqn:Ei.
  - apply Nat.eqb_eq in Ei. rewrite Ei in *.
    rewrite (index_nth _ 0 (cieLAB.mk 0 0 0)) by lia. reflexivity.
  - apply Nat.eqb_neq in Ei.
    rewrite (index_nth (colors l) (i - 1) (cieLAB.mk 0 0 0)) by lia.
    rewrite (index_nth (colors l) i (cieLAB.mk 0 0 0)) by lia.
    rewrite (index_nth (scalars l) (i - 1) 0) by lia.
    rewrite (index_nth (scalars l) i 0) by lia.
    reflexivity.
Qed.

End LuminanceAt.

(** At(NaN) on the BlackBody preset with max = 1: NaN passes both range
    tests, no scalar is >= NaN, the insertion index is 5 = len(colors),
    and colors[5] panics.  The math library is not reached.  And a
    channel that is NaN is not clamped: on the map NewLuminance builds
    from opaque black and a fully transparent colour, with max = 1,
    At(0.5) returns R = G = B = NaN with a nil error. *)
Lemma C6_counterexample :
  let l := Luminance.with_max 1 Luminance.BlackBody in
  let t := nan / Luminance.max l in
  (Luminance.max l =? 0) || (t <? 0) || (t >? 1) = false
  /\ sort.SearchFloat64s (Luminance.scalars l) t = 5%nat
  /\ (forall ML : math.Lib,
       fst (@Luminance.At ML nan l) = Panics (PanicIndex 5 5))
  /\ (forall ML : math.Lib,
       @Luminance.NewLuminance ML [color.NRGBA 0 0 0 255; color.NRGBA 0 0 0 0]
       = Ret (Some {| Luminance.colors := [cieLAB.mk 0 0 0; cieLAB.mk nan nan nan];
                      Luminance.scalars := [0; 1];
                      Luminance.Alpha := 1; Luminance.max := 0 |}, None)
       /\ fst (@Luminance.At ML 0.5
                 {| Luminance.colors := [cieLAB.mk 0 0 0; cieLAB.mk nan nan nan];
                    Luminance.scalars := [0; 1];
                    Luminance.Alpha := 1; Luminance.max := 1 |})
          = Ret (Some (sRGBA.mk nan nan nan 1), None)).
Proof.
  cbn zeta. split; [reflexivity|]. split; [vm_compute; reflexivity|].
  split; intros ML; [vm_compute; reflexivity|].
  split; vm_compute; reflexivity.
Qed.


(* ------------------------------------------------------------------ *)
(** ** Palette *)

(** The scalars Palette samples: it starts at [v] and adds [delta]
    after every sample, so the i-th scalar is the running sum
    ((v + delta) + delta) + ... and not v + i * delta. *)
Fixpoint samples (n : nat) (v delta : float) : list float :=
  match n with
  | O => []
  | S n' => v :: samples n' (v + delta) delta
  end.

(** Sampling a colour map at the scalars [vs]: the colours in order, or
    the panic of the first call that fails. *)
Fixpoint sample_all (at_ : float -> result (option sRGBA.t * option error))
    (vs : list float) : result Palette :=
  match vs with
  | [] => Ret []
  | v :: vs' =>
    match at_ v with
    | Panics p => Panics p
    | Ret (_, Some e) => Panics (PanicError e)
    | Ret (c, None) =>
      match sample_all at_ vs' with
      | Ret cs => Ret (c :: cs)
      | Panics p => Panics p
      end
    end
  end.

Lemma length_samples (n : nat) (v delta : float) : length (samples n v delta) = n.
Proof. revert v. induction n as [|n IH]; intros v; cbn; [|rewrite IH]; reflexivity. Qed.

Lemma sample_all_length at_ (vs : list float) (cs : Palette) :
  sample_all at_ vs = Ret cs ->
  length cs = length vs
  /\ forall i v, vs !! i = Some v -> exists c, cs !! i = Some c /\ at_ v = Ret (c, None).
Proof.
  revert cs. induction vs as [|v vs IH]; intros cs H; cbn in H.
  - injection H as <-. split; [reflexivity|]. intros i v' Hi. discriminate.
  - destruct (at_ v) as [[c [e|]]|p] eqn:E; try discriminate.
    destruct (sample_all at_ vs) as [cs'|p]; [|discriminate].
    injection H as <-. destruct (IH cs' eq_refl) as [Hlen Hall].
    split; [cbn; rewrite Hlen; reflexivity|].
    intros [|i] v' Hi; cbn in Hi.
    + injection Hi as <-. exists c. split; [reflexivity|exact E].
    + apply Hall, Hi.
Qed.

(** make([]color.Color, n) goes through for n between 0 and 2^44. *)
Lemma makeslice_Color (n : Z) :
  makeslice_panics sizeof_Color n = false <-> (0 <= n <= 2 ^ 44)%Z.
Proof.
  unfold makeslice_panics, sizeof_Color, maxAlloc.
  rewrite orb_false_iff, Z.ltb_ge, Z.ltb_ge.
  change (2 ^ 48)%Z with (16 * 2 ^ 44)%Z. lia.
Qed.

Section Palette.
Context `{ML : math.Lib}.

Lemma DivergingMSH_Palette_loop_eq (p : DivergingMSH.t) (delta : float) (n : nat) :
  forall v, DivergingMSH.Palette_loop p delta n v
            = sample_all (fun s => Ret (DivergingMSH.At_ p s)) (samples n v delta).
Proof.
  induction n as [|n IH]; intros v; cbn [DivergingMSH.Palette_loop samples sample_all];
    [reflexivity|].
  destruct (DivergingMSH.At_ p v) as [c [e|]]; [reflexivity|].
  rewrite IH. reflexivity.
Qed.

Lemma Luminance_Palette_loop_eq (l : Luminance.t) (delta : float) (n : nat) :
  forall v, Luminance.Palette_loop l delta n v
            = sample_all (Luminance.At_ l) (samples n v delta).
Proof.
  induction n as [|n IH]; intros v; cbn [Luminance.Palette_loop samples sample_all];
    [reflexivity|].
  destruct (Luminance.At_ l v) as [[c [e|]]|pn]; cbn [rbind]; try reflexivity.
  rewrite IH. reflexivity.
Qed.

(** The domain Palette samples: [0,1] for an unconfigured map. *)
Definition DivergingMSH_domain (p : DivergingMSH.t) : float * float :=
  if (DivergingMSH.max p =? 0) && (DivergingMSH.min p =? 0) then (0, 1)
  else (DivergingMSH.min p, DivergingMSH.max p).

Definition Luminance_domain_max (l : Luminance.t) : float :=
  if Luminance.max l =? 0 then 1 else Luminance.max l.

(** What Palette does, for both maps: it samples nColors scalars, the
    running sums from min (0 for Luminance) with the step
    (max - min) / (nColors - 1), on the map with the defaulted domain;
    it returns the nColors colours when every At succeeds and panics
    with the first error otherwise. *)
Lemma Palette_samples (nColors : Z) :
  makeslice_panics sizeof_Color nColors = false ->
  (forall p : DivergingMSH.t,
      let '(lo, hi) := DivergingMSH_domain p in
      let p' := DivergingMSH.with_max hi (DivergingMSH.with_min lo p) in
      let delta := (hi - lo) / float64_of_int (nColors - 1) in
      fst (DivergingMSH.Palette nColors p)
      = sample_all (fun s => Ret (DivergingMSH.At_ p' s))
                   (samples (Z.to_nat nColors) lo delta))
  /\ (forall l : Luminance.t,
      let hi := Luminance_domain_max l in
      let delta := hi / float64_of_int (nColors - 1) in
      fst (Luminance.Palette nColors l)
      = sample_all (Luminance.At_ (Luminance.with_max hi l))
                   (samples (Z.to_nat nColors) 0 delta)).
Proof.
  intros Hneg. pose proof (proj1 (makeslice_Color nColors) Hneg) as Hn.
  assert (H44 : (2 ^ 44 < 2 ^ 63)%Z) by reflexivity.
  assert (Hpred : int_pred nColors = (nColors - 1)%Z).
  { unfold int_pred. rewrite Z.mod_small by lia. lia. }
  split.
  - intros p. unfold DivergingMSH_domain, DivergingMSH.Palette, value_receiver,
      DivergingMSH.Palette_body. cbn [fst].
    rewrite Hneg, Hpred.
    destruct ((DivergingMSH.max p =? 0) && (DivergingMSH.min p =? 0));
      cbn [fst]; rewrite DivergingMSH_Palette_loop_eq; destruct p; reflexivity.
  - intros l. unfold Luminance_domain_max, Luminance.Palette, value_receiver,
      Luminance.Palette_body. cbn [fst].
    rewrite Hneg, Hpred.
    destruct (Luminance.max l =? 0); cbn [fst];
      rewrite Luminance_Palette_loop_eq; destruct l; reflexivity.
Qed.

(** When make panics, so does Palette, before it samples anything. *)
Lemma Palette_makeslice (nColors : Z) :
  makeslice_panics sizeof_Color nColors = true ->
  (forall p : DivergingMSH.t,
      fst (DivergingMSH.Palette nColors p) = Panics PanicMakeSlice)
  /\ (forall l : Luminance.t,
      fst (Luminance.Palette nColors l) = Panics PanicMakeSlice).
Proof.
  intros H. split.
  - intros p. unfold DivergingMSH.Palette, value_receiver, DivergingMSH.Palette_body.
    cbn [fst]. rewrite H. reflexivity.
  - intros l. unfold Luminance.Palette, value_receiver, Luminance.Palette_body.
    cbn [fst]. rewrite H. reflexivity.
Qed.

End Palette.

(** Ten samples of [0,1]: the step is 1/9 and the tenth running sum is
    1.0000000000000002, above max = 1. *)
Example ten_samples_overshoot :
  samples 10 0 (1 / float64_of_int 9)
  = [0; 0.1111111111111111; 0.2222222222222222; 0.33333333333333331;
     0.44444444444444442; 0.55555555555555558; 0.66666666666666674;
     0.7777777777777779; 0.88888888888888906; 1.0000000000000002].
Proof. vm_compute. reflexivity. Qed.

(** C8 (the code fails the claim).  BlackBody().Palette(10): the tenth
    scalar is 1.0000000000000002 > max = 1, At returns the out-of-range
    error and Palette panics, whatever the math library, instead of
    returning ten colours. *)
Theorem Luminance_Palette_10_panics :
  forall ML : math.Lib,
    fst (@Luminance.Palette ML 10 Luminance.BlackBody)
    = Panics (PanicError (ErrOutOfRange 1.0000000000000002 1)).
Proof.
  intros ML.
  destruct (@Palette_samples ML 10 eq_refl) as [_ H]. rewrite H. clear H.
  vm_compute. reflexivity.
Qed.

(* ------------------------------------------------------------------ *)
(** ** interpolateMSHDiverging at the convergence point *)

(** Neither NaN nor infinite. *)
Definition is_number (x : float) : bool :=
  match Prim2SF x with
  | S754_zero _ | S754_finite _ _ _ => true
  | _ => false
  end.

Lemma positive_below_one_finite (x : float) :
  (0 <? x) = true -> (x <? 1) = true -> F64.is_finite_nonzero x = true.
Proof.
  unfold F64.is_finite_nonzero. rewrite !FloatAxioms.ltb_spec.
  change (Prim2SF 0) with (S754_zero false).
  change (Prim2SF 1) with (S754_finite false 4503599627370496 (-52)).
  destruct (Prim2SF x) as [[]|[]| |[] m e]; intros H0 H1;
    try reflexivity; first [discriminate H0|discriminate H1].
Qed.

Lemma mul_zero_number (x : float) : is_number x = true -> (x * 0 =? 0) = true.
Proof.
  unfold is_number. rewrite FloatAxioms.eqb_spec, FloatAxioms.mul_spec.
  change (Prim2SF 0) with (S754_zero false).
  destruct (Prim2SF x) as [[]|[]| |[] m e]; intros H;
    try reflexivity; discriminate H.
Qed.

(** Go's [==] on MSH values compares the three fields as floats. *)
Definition MSH_eqb (a b : MSH.t) : bool :=
  (MSH.M a =? MSH.M b) && (MSH.S a =? MSH.S b) && (MSH.H a =? MSH.H b).

Section ConvergePoint.
Context `{ML : math.Lib}.
Import DivergingMSH.

Lemma interpolate_at_ConvergePoint_eq (p : t) :
  (0 <? ConvergePoint p) = true -> (ConvergePoint p <? 1) = true ->
  interpolateMSHDiverging p (ConvergePoint p)
  = {| MSH.M := (ConvergeM p - MSH.M (end_ p)) + MSH.M (end_ p);
       MSH.S := MSH.S (end_ p) * 0;
       MSH.H := 0 |}.
Proof.
  intros H0 H1. unfold interpolateMSHDiverging.
  rewrite F64.ltb_irrefl.
  rewrite (F64.div_self (ConvergePoint p - 1)) by (apply F64.sub_one_finite_nonzero; assumption).
  rewrite (F64.div_self (ConvergePoint p)) by (apply positive_below_one_finite; assumption).
  rewrite F64.mul_one_r. change (1 - 1) with 0. reflexivity.
Qed.

(** C1 (amended).  For 0 < ConvergePoint < 1 the interpolation at the
    convergence point has H = 0 exactly, S = end.S * 0, which is a zero
    whenever end.S is a number, and M = (ConvergeM - end.M) + end.M in
    binary64: ConvergeM up to the rounding of that subtraction and
    addition, and ConvergeM itself whenever they round back to it. *)
Theorem interpolate_at_ConvergePoint (p : t) :
  (0 <? ConvergePoint p) = true -> (ConvergePoint p <? 1) = true ->
  let r := interpolateMSHDiverging p (ConvergePoint p) in
  MSH.H r = 0
  /\ MSH.S r = MSH.S (end_ p) * 0
  /\ (is_number (MSH.S (end_ p)) = true -> (MSH.S r =? 0) = true)
  /\ MSH.M r = (ConvergeM p - MSH.M (end_ p)) + MSH.M (end_ p)
  /\ (is_number (MSH.S (end_ p)) = true ->
      ((ConvergeM p - MSH.M (end_ p)) + MSH.M (end_ p) =? ConvergeM p) = true ->
      MSH_eqb r (MSH.mk (ConvergeM p) 0 0) = true).
Proof.
  intros H0 H1 r. unfold r. rewrite (interpolate_at_ConvergePoint_eq p H0 H1).
  cbn [MSH.M MSH.S MSH.H]. repeat split.
  - apply mul_zero_number.
  - intros HS HM. unfold MSH_eqb. cbn [MSH.M MSH.S MSH.H].
    rewrite HM, (mul_zero_number _ HS). reflexivity.
Qed.

End ConvergePoint.

(** With ConvergeM = 61.4 and end.M = 10.2 the magnitude at the
    convergence point 0.5 is 61.400000000000006, not ConvergeM. *)
Lemma C1_counterexample :
  let p := DivergingMSH.mk (MSH.mk 80 1.08 (-1.1)) (MSH.mk 10.2 1.08 0.5)
                           0.5 61.4 1 0 1 in
  (0 <? DivergingMSH.ConvergePoint p) = true
  /\ (DivergingMSH.ConvergePoint p <? 1) = true
  /\ forall ML : math.Lib,
       let r := @DivergingMSH.interpolateMSHDiverging ML p (DivergingMSH.ConvergePoint p) in
       MSH.M r = 61.400000000000006
       /\ (MSH.M r =? DivergingMSH.ConvergeM p) = false
       /\ MSH_eqb r (MSH.mk (DivergingMSH.ConvergeM p) 0 0) = false.
Proof.
  cbn zeta. split; [reflexivity|]. split; [reflexivity|]. intros ML.
  rewrite interpolate_at_ConvergePoint_eq by reflexivity.
  repeat split; vm_compute; reflexivity.
Qed.

(** For the five presets (ConvergeM = 88, ConvergePoint = 0.5) the
    magnitude at the convergence point is exactly 88. *)
Example presets_converge_exactly :
  forall ML : math.Lib,
    Forall (fun p => MSH_eqb (@DivergingMSH.interpolateMSHDiverging ML p
                                (DivergingMSH.ConvergePoint p))
                             (MSH.mk 88 0 0) = true)
           [DivergingMSH.SmoothBlueRed; DivergingMSH.SmoothPurpleOrange;
            DivergingMSH.SmoothGreenPurple; DivergingMSH.SmoothBlueTan;
            DivergingMSH.SmoothGreenRed].
Proof.
  intros ML.
  repeat (apply List.Forall_cons;
          [rewrite interpolate_at_ConvergePoint_eq by reflexivity;
           vm_compute; reflexivity|]).
  apply List.Forall_nil.
Qed.

Lemma interpolate_at_ConvergePoint_witness :
  let r := @DivergingMSH.interpolateMSHDiverging approx.lib
             DivergingMSH.SmoothBlueRed 0.5 in
  MSH.H r = 0
  /\ MSH.S r = 1.08 * 0
  /\ (is_number 1.08 = true -> (MSH.S r =? 0) = true)
  /\ MSH.M r = (88 - 80) + 80
  /\ (is_number 1.08 = true -> ((88 - 80) + 80 =? 88) = true ->
      MSH_eqb r (MSH.mk 88 0 0) = true).
Proof.
  exact (@interpolate_at_ConvergePoint approx.lib DivergingMSH.SmoothBlueRed
           eq_refl eq_refl).
Defined.

(* ------------------------------------------------------------------ *)
(** ** Further properties of the code *)

(** The constant ylim of xyzTemp is the binary64 number nearest to the
    exact value of 7.787 * 0.008856 + 16/116: with ylim = m * 2^e and
    the exact value N/D, |m * D - N * 2^(-e)| * 2 <= D. *)
Example xyzTemp_ylim_nearest :
  match Prim2SF xyzTemp_ylim with
  | S754_finite false m e =>
    let N := (7787 * 8856 * 116 + 16 * 1000 * 1000000)%Z in
    let D := (1000 * 1000000 * 116)%Z in
    (e <? 0)%Z && (Z.abs (Z.pos m * D - N * 2 ^ (- e)) * 2 <=? D)%Z
  | _ => false
  end = true.
Proof. vm_compute. reflexivity. Qed.

Lemma fix_channel (x : float) :
  let y := if (if x >? 1 then 1 else x) <? 0 then 0 else (if x >? 1 then 1 else x) in
  (is_nan x = false -> (0 <=? y) && (y <=? 1) = true)
  /\ (is_nan x = true -> is_nan y = true)
  /\ ((0 <=? x) && (x <=? 1) = true -> y = x).
Proof.
  cbn zeta. destruct (x >? 1) eqn:Egt.
  - change (1 <? 0) with false. cbn iota. repeat split; intros H; try reflexivity.
    + rewrite (F64.ltb_nan_r _ _ H) in Egt. discriminate.
    + apply andb_true_iff in H as [_ H].
      destruct (is_nan x) eqn:En; [rewrite (F64.leb_nan_l _ _ En) in H; discriminate|].
      exfalso. revert Egt H. rewrite FloatAxioms.ltb_spec, FloatAxioms.leb_spec.
      unfold SFltb, SFleb. rewrite (SFcompare_swap (Prim2SF x) (Prim2SF 1)).
      destruct (SFcompare (Prim2SF x) (Prim2SF 1)) as [[]|]; cbn; congruence.
  - destruct (x <? 0) eqn:Elt.
    + repeat split; intros H; try reflexivity.
      * rewrite (F64.ltb_nan_l _ _ H) in Elt. discriminate.
      * apply andb_true_iff in H as [H _].
        destruct (is_nan x) eqn:En; [rewrite (F64.leb_nan_r _ _ En) in H; discriminate|].
        exfalso. revert Elt H. rewrite FloatAxioms.ltb_spec, FloatAxioms.leb_spec.
        unfold SFltb, SFleb. rewrite (SFcompare_swap (Prim2SF x) (Prim2SF 0)).
        destruct (SFcompare (Prim2SF x) (Prim2SF 0)) as [[]|]; cbn; congruence.
    + repeat split; intros H; try reflexivity; try exact H.
      apply andb_true_iff. split.
      * apply not_gtb_leb; [reflexivity|exact H|].
        exact Elt.
      * apply not_gtb_leb; [exact H|reflexivity|exact Egt].
Qed.

(** fix clamps: every channel that is a number ends in [0,1], a channel
    already in [0,1] is kept, and a NaN channel stays NaN. *)
Theorem sRGBA_fix_clamps (c : sRGBA.t) :
  let c' := sRGBA_fix c in
  Forall2 (fun x y => (is_nan x = false -> in_unit y = true)
                      /\ (is_nan x = true -> is_nan y = true)
                      /\ (in_unit x = true -> y = x))
          [sRGBA.R c; sRGBA.G c; sRGBA.B c; sRGBA.A c]
          [sRGBA.R c'; sRGBA.G c'; sRGBA.B c'; sRGBA.A c'].
Proof.
  destruct c as [R G B A]. cbn zeta. unfold sRGBA_fix, in_unit.
  cbn [sRGBA.R sRGBA.G sRGBA.B sRGBA.A].
  repeat (apply List.Forall2_cons; [apply fix_channel|]).
  apply List.Forall2_nil.
Qed.

(** The map Palette works on: the receiver with the domain [0,1] when
    it is unconfigured. *)
Definition DivergingMSH_defaulted (p : DivergingMSH.t) : DivergingMSH.t :=
  if (DivergingMSH.max p =? 0) && (DivergingMSH.min p =? 0)
  then DivergingMSH.with_max 1 (DivergingMSH.with_min 0 p) else p.

Definition Luminance_defaulted (l : Luminance.t) : Luminance.t :=
  if Luminance.max l =? 0 then Luminance.with_max 1 l else l.

Section PaletteReturns.
Context `{ML : math.Lib}.

(** When Palette returns, it returns exactly nColors colours, and the
    i-th is the colour At returns, with a nil error, at the i-th running
    sum min + delta + ... + delta, delta = (max - min) / (nColors - 1),
    of the map with the defaulted domain (for Luminance: from 0 with
    delta = max / (nColors - 1)). *)
Theorem Palette_returns_nColors (nColors : Z) (cs : Palette) :
  (0 <= nColors < 2 ^ 63)%Z ->
  (forall p : DivergingMSH.t,
      let p' := DivergingMSH_defaulted p in
      let delta := (DivergingMSH.max p' - DivergingMSH.min p')
                   / float64_of_int (nColors - 1) in
      fst (DivergingMSH.Palette nColors p) = Ret cs ->
      length cs = Z.to_nat nColors
      /\ forall i v, samples (Z.to_nat nColors) (DivergingMSH.min p') delta !! i = Some v ->
                     exists c, cs !! i = Some c /\ DivergingMSH.At_ p' v = (c, None))
  /\ (forall l : Luminance.t,
      let l' := Luminance_defaulted l in
      let delta := Luminance.max l' / float64_of_int (nColors - 1) in
      fst (Luminance.Palette nColors l) = Ret cs ->
      length cs = Z.to_nat nColors
      /\ forall i v, samples (Z.to_nat nColors) 0 delta !! i = Some v ->
                     exists c, cs !! i = Some c /\ Luminance.At_ l' v = Ret (c, None)).
Proof.
  intros _. destruct (makeslice_panics sizeof_Color nColors) eqn:Hm.
  { destruct (Palette_makeslice nColors Hm) as [HD HL].
    split; intros x x' delta H; [rewrite HD in H|rewrite HL in H]; discriminate H. }
  destruct (Palette_samples nColors Hm) as [HD HL]. split.
  - intros p p' delta H. specialize (HD p).
    assert (Hp : (let '(lo, hi) := DivergingMSH_domain p in
                  DivergingMSH.with_max hi (DivergingMSH.with_min lo p) = p'
                  /\ lo = DivergingMSH.min p' /\ hi = DivergingMSH.max p')).
    { unfold p', DivergingMSH_defaulted, DivergingMSH_domain.
      destruct ((DivergingMSH.max p =? 0) && (DivergingMSH.min p =? 0));
        destruct p; repeat split. }
    destruct (DivergingMSH_domain p) as [lo hi]. destruct Hp as (Hp & -> & ->).
    rewrite Hp in HD. rewrite HD in H.
    apply sample_all_length in H as [Hlen Hall].
    split; [rewrite Hlen, length_samples; reflexivity|].
    intros i v Hv. destruct (Hall i v Hv) as (c & Hc & Hat).
    exists c. split; [exact Hc|]. injection Hat as Hat. exact Hat.
  - intros l l' delta H. rewrite (HL l) in H.
    assert (Hl : Luminance.with_max (Luminance_domain_max l) l = l'
                 /\ Luminance_domain_max l = Luminance.max l').
    { unfold l', Luminance_defaulted, Luminance_domain_max.
      destruct (Luminance.max l =? 0); destruct l; split; reflexivity. }
    destruct Hl as [Hl1 Hl2]. rewrite Hl1, Hl2 in H.
    apply sample_all_length in H as [Hlen Hall].
    split; [rewrite Hlen, length_samples; reflexivity|].
    intros i v Hv. destruct (Hall i v Hv) as (c & Hc & Hat).
    exists c. split; [exact Hc|exact Hat].
Qed.

End PaletteReturns.

(** Three colours of the BlackBody preset, run with [approx.lib]. *)
Definition BlackBody_3 : Palette :=
  Eval vm_compute in
    match fst (@Luminance.Palette approx.lib 3 Luminance.BlackBody) with
    | Ret cs => cs
    | Panics _ => []
    end.

Lemma Palette_returns_nColors_witness :
  length BlackBody_3 = Z.to_nat 3
  /\ forall i v,
       samples (Z.to_nat 3) 0
               (Luminance.max (Luminance_defaulted Luminance.BlackBody)
                / float64_of_int (3 - 1)) !! i = Some v ->
       exists c, BlackBody_3 !! i = Some c
                 /\ @Luminance.At_ approx.lib
                      (Luminance_defaulted Luminance.BlackBody) v = Ret (c, None).
Proof.
  exact (proj2 (@Palette_returns_nColors approx.lib 3 BlackBody_3
                  ltac:(split; [discriminate|reflexivity]))
           Luminance.BlackBody ltac:(vm_compute; reflexivity)).
Defined.

(* ------------------------------------------------------------------ *)
(** ** Zeros, ends of the domain and other edges *)

(** Zeros of either sign. *)
Definition is_zero (x : float) : bool := x =? 0.

Lemma sub_zero_r (x : float) : x - 0 = x.
Proof.
  apply Prim2SF_inj. rewrite FloatAxioms.sub_spec.
  change (Prim2SF 0) with (S754_zero false).
  destruct (Prim2SF x) as [[]|[]| |s m e]; reflexivity.
Qed.

Lemma zero_div (z y : float) :
  is_zero z = true -> is_nan y = false -> is_zero y = false -> is_zero (z / y) = true.
Proof.
  unfold is_zero. rewrite F64.eqb_zero_spec, F64.is_nan_false_spec.
  rewrite !FloatAxioms.eqb_spec, FloatAxioms.div_spec.
  change (Prim2SF 0) with (S754_zero false).
  intros [s ->].
  destruct (Prim2SF y) as [[]|[]| |[] m e], s; intros Hn Hz;
    try reflexivity; first [congruence|discriminate Hz].
Qed.

Lemma mul_zero_r (x z : float) :
  is_number x = true -> is_zero z = true -> is_zero (x * z) = true.
Proof.
  unfold is_number, is_zero. rewrite F64.eqb_zero_spec.
  rewrite FloatAxioms.eqb_spec, FloatAxioms.mul_spec.
  change (Prim2SF 0) with (S754_zero false).
  intros Hx [s ->].
  destruct (Prim2SF x) as [[]|[]| |[] m e], s; try reflexivity; discriminate Hx.
Qed.

(** Adding a zero to a non-zero number changes nothing, bit for bit. *)
Lemma add_zero_l (z y : float) :
  is_zero z = true -> is_nan y = false -> is_zero y = false -> z + y = y.
Proof.
  unfold is_zero. rewrite F64.eqb_zero_spec, F64.is_nan_false_spec.
  rewrite FloatAxioms.eqb_spec. change (Prim2SF 0) with (S754_zero false).
  intros [s Hz] Hy Hy0. apply Prim2SF_inj. rewrite FloatAxioms.add_spec, Hz.
  destruct (Prim2SF y) as [[]|[]| |sy m e], s;
    try congruence; try reflexivity; discriminate Hy0.
Qed.

Lemma sub_self (x : float) : is_number x = true -> is_zero (x - x) = true.
Proof.
  unfold is_number, is_zero. rewrite FloatAxioms.eqb_spec, FloatAxioms.sub_spec.
  change (Prim2SF 0) with (S754_zero false).
  destruct (Prim2SF x) as [[]|[]| |s m e]; intros H; try discriminate H;
    try reflexivity.
  unfold SF64sub, SFsub. rewrite Z.sub_diag. reflexivity.
Qed.

(** A quotient by a zero or by NaN is never a number. *)
Lemma div_zero_not_number (x d : float) :
  is_number (x / d) = true -> is_nan d = false /\ is_zero d = false.
Proof.
  unfold is_number, is_zero. rewrite F64.is_nan_false_spec.
  rewrite FloatAxioms.eqb_spec, FloatAxioms.div_spec.
  change (Prim2SF 0) with (S754_zero false).
  destruct (Prim2SF x) as [[]|[]| |[] mx ex], (Prim2SF d) as [[]|[]| |[] md ed];
    intros H; try discriminate H; split; try discriminate; reflexivity.
Qed.

Lemma mul_not_zero_l (x y : float) :
  is_nan (x * y) = false -> is_zero (x * y) = false -> is_zero x = false.
Proof.
  unfold is_zero. rewrite F64.is_nan_false_spec.
  rewrite !FloatAxioms.eqb_spec, FloatAxioms.mul_spec.
  change (Prim2SF 0) with (S754_zero false).
  destruct (Prim2SF x) as [[]|[]| |[] mx ex];
    destruct (Prim2SF y) as [[]|[]| |[] my ey]; intros Hn Hz;
    try reflexivity; cbn in Hn, Hz; first [congruence|discriminate Hz].
Qed.

Lemma one_sub_zero (z : float) : is_zero z = true -> 1 - z = 1.
Proof.
  unfold is_zero. rewrite F64.eqb_zero_spec. intros [s Hz].
  apply Prim2SF_inj. rewrite FloatAxioms.sub_spec, Hz. reflexivity.
Qed.

Lemma is_number_not_nan (x : float) : is_number x = true -> is_nan x = false.
Proof.
  unfold is_number. rewrite F64.is_nan_false_spec.
  destruct (Prim2SF x); congruence.
Qed.

Lemma is_number_sub_r (x y : float) : is_number (x - y) = true -> is_nan y = false.
Proof.
  intros H. destruct (is_nan y) eqn:E; [|reflexivity].
  apply is_number_not_nan in H. rewrite (F64.sub_nan_r x y E) in H. discriminate.
Qed.

Lemma ltb_asym (x y : float) : (x <? y) = true -> (y <? x) = false.
Proof.
  rewrite !FloatAxioms.ltb_spec. unfold SFltb.
  rewrite (SFcompare_swap (Prim2SF x) (Prim2SF y)).
  destruct (SFcompare (Prim2SF x) (Prim2SF y)) as [[]|]; cbn; congruence.
Qed.

Lemma finite_nonzero_not_nan (y : float) :
  F64.is_finite_nonzero y = true -> is_nan y = false /\ is_zero y = false.
Proof.
  unfold F64.is_finite_nonzero, is_zero.
  rewrite F64.is_nan_false_spec, FloatAxioms.eqb_spec.
  change (Prim2SF 0) with (S754_zero false).
  destruct (Prim2SF y) as [[]|[]| |[] m e]; intros H; try discriminate H;
    split; try discriminate; reflexivity.
Qed.

Lemma positive_not_nan (y : float) :
  (0 <? y) = true -> is_nan y = false /\ is_zero y = false.
Proof.
  unfold is_zero. rewrite F64.is_nan_false_spec, FloatAxioms.ltb_spec, FloatAxioms.eqb_spec.
  change (Prim2SF 0) with (S754_zero false).
  destruct (Prim2SF y) as [[]|[]| |[] m e]; intros H; try discriminate H;
    split; try discriminate; reflexivity.
Qed.

Section Ends.
Context `{ML : math.Lib}.
Import DivergingMSH.

(** A hue twist that is a number needs a hue and a magnitude that are
    numbers other than zero: 0/|0| is NaN, and so is a division by
    0 * sin(S). *)
Lemma hueTwist_number (c : MSH.t) (convergeM : float) :
  is_number (hueTwist c convergeM) = true ->
  (is_nan (MSH.H c) = false /\ is_zero (MSH.H c) = false)
  /\ is_zero (MSH.M c) = false.
Proof.
  intros H. split.
  - pose proof (is_number_not_nan _ H) as Hn. unfold hueTwist, signH in Hn.
    destruct (is_nan (MSH.H c)) eqn:E.
    { rewrite F64.div_nan_l in Hn; [discriminate|].
      do 2 apply F64.mul_nan_l. apply F64.div_nan_l. exact E. }
    split; [reflexivity|]. unfold is_zero.
    destruct (MSH.H c =? 0) eqn:Ez; [|reflexivity].
    rewrite F64.div_nan_l in Hn; [discriminate|].
    do 2 apply F64.mul_nan_l. apply F64.zero_div_abs_nan. exact Ez.
  - unfold hueTwist in H. apply div_zero_not_number in H as [Hn Hz].
    exact (mul_not_zero_l _ _ Hn Hz).
Qed.

Lemma interpolate_zero_eq (p : t) (z : float) :
  is_zero z = true ->
  (0 <? ConvergePoint p) = true ->
  is_number (ConvergeM p - MSH.M (start p)) = true ->
  is_number (hueTwist (start p) (ConvergeM p)) = true ->
  interpolateMSHDiverging p z = start p.
Proof.
  intros Hz0 Hcp HM HT. unfold interpolateMSHDiverging.
  destruct (positive_not_nan _ Hcp) as [Hn Hz].
  assert (Hlt : (z <? ConvergePoint p) = true).
  { revert Hz0 Hcp. unfold is_zero. rewrite F64.eqb_zero_spec, !FloatAxioms.ltb_spec.
    change (Prim2SF 0) with (S754_zero false). intros [s ->].
    destruct (Prim2SF (ConvergePoint p)) as [[]|[]| |[] m e]; intros H;
      try discriminate H; reflexivity. }
  rewrite Hlt.
  pose proof (zero_div _ _ Hz0 Hn Hz) as Hi.
  destruct (hueTwist_number _ _ HT) as [[HnH HzH] HzM].
  rewrite (add_zero_l _ (MSH.M (start p)));
    [|apply mul_zero_r; assumption|exact (is_number_sub_r _ _ HM)|exact HzM].
  rewrite (one_sub_zero _ Hi), F64.mul_one_r.
  rewrite (F64.add_comm (MSH.H (start p))).
  rewrite (add_zero_l _ (MSH.H (start p)));
    [|apply mul_zero_r; assumption|exact HnH|exact HzH].
  destruct (start p); reflexivity.
Qed.

Lemma interpolate_one_eq (p : t) :
  (0 <? ConvergePoint p) = true -> (ConvergePoint p <? 1) = true ->
  is_number (ConvergeM p - MSH.M (end_ p)) = true ->
  is_number (hueTwist (end_ p) (ConvergeM p)) = true ->
  interpolateMSHDiverging p 1
  = {| MSH.M := MSH.M (end_ p);
       MSH.S := MSH.S (end_ p) * (1 / ConvergePoint p - 1);
       MSH.H := MSH.H (end_ p) |}.
Proof.
  intros H0 H1 HM HT. unfold interpolateMSHDiverging.
  rewrite (ltb_asym _ _ H1), H1. change (1 - 1) with 0.
  destruct (finite_nonzero_not_nan _ (F64.sub_one_finite_nonzero _ H0 H1)) as [Hn Hz].
  pose proof (zero_div 0 _ eq_refl Hn Hz) as Hi.
  destruct (hueTwist_number _ _ HT) as [[HnH HzH] HzM].
  rewrite (add_zero_l _ (MSH.M (end_ p)));
    [|apply mul_zero_r; assumption|exact (is_number_sub_r _ _ HM)|exact HzM].
  rewrite (F64.add_comm (MSH.H (end_ p))).
  rewrite (add_zero_l _ (MSH.H (end_ p)));
    [|apply mul_zero_r; assumption|exact HnH|exact HzH].
  reflexivity.
Qed.

(** The interpolation starts at the start colour and, when the
    convergence point is 0.5, ends at the end colour, bit for bit.  For
    another convergence point the saturation at scalar 1 is
    end.S * (1/ConvergePoint - 1), not end.S. *)
Theorem interpolate_ends (p : t) :
  (0 <? ConvergePoint p) = true -> (ConvergePoint p <? 1) = true ->
  (is_number (ConvergeM p - MSH.M (start p)) = true ->
   is_number (hueTwist (start p) (ConvergeM p)) = true ->
   interpolateMSHDiverging p 0 = start p)
  /\ (is_number (ConvergeM p - MSH.M (end_ p)) = true ->
      is_number (hueTwist (end_ p) (ConvergeM p)) = true ->
      interpolateMSHDiverging p 1
      = {| MSH.M := MSH.M (end_ p);
           MSH.S := MSH.S (end_ p) * (1 / ConvergePoint p - 1);
           MSH.H := MSH.H (end_ p) |}
      /\ (ConvergePoint p = 0.5 -> interpolateMSHDiverging p 1 = end_ p)).
Proof.
  intros H0 H1. split.
  - intros HM HT. apply interpolate_zero_eq; [reflexivity|assumption..].
  - intros HM HT. split; [apply interpolate_one_eq; assumption|].
    intros Hcp. rewrite interpolate_one_eq by assumption. rewrite Hcp.
    change (1 / 0.5 - 1) with 1. rewrite F64.mul_one_r.
    destruct (end_ p); reflexivity.
Qed.

(** At(min) is the start colour, converted MSH -> LAB -> XYZ -> RGB ->
    sRGB; with min = 0 and the convergence point 0.5, At(max) is the end
    colour.  (With another min, At(max) is evaluated at
    (max - min)/max, which is not 1.) *)
Theorem DivergingMSH_At_ends (p : t) :
  (0 <? ConvergePoint p) = true -> (ConvergePoint p <? 1) = true ->
  (min p =? max p) = false ->
  is_number (min p) = true -> F64.is_finite_nonzero (max p) = true ->
  (is_number (ConvergeM p - MSH.M (start p)) = true ->
   is_number (hueTwist (start p) (ConvergeM p)) = true ->
   let c := cieLAB_sRGB (MSH_lab (start p)) (Alpha p) in
   fst (At (min p) p) = (Some c, sRGBA_check c))
  /\ (is_number (ConvergeM p - MSH.M (end_ p)) = true ->
      is_number (hueTwist (end_ p) (ConvergeM p)) = true ->
      ConvergePoint p = 0.5 -> min p = 0 ->
      let c := cieLAB_sRGB (MSH_lab (end_ p)) (Alpha p) in
      fst (At (max p) p) = (Some c, sRGBA_check c)).
Proof.
  intros H0 H1 Hne Hmin Hmax.
  destruct (finite_nonzero_not_nan _ Hmax) as [Hn Hz]. split.
  - intros HM HT c. unfold At, At_. cbn [fst]. rewrite Hne.
    rewrite interpolate_zero_eq; [reflexivity| |assumption..].
    apply zero_div; [apply sub_self; exact Hmin|exact Hn|exact Hz].
  - intros HM HT Hcp Hmin0 c. unfold At, At_. cbn [fst]. rewrite Hne.
    rewrite Hmin0, sub_zero_r, (F64.div_self _ Hmax).
    rewrite interpolate_one_eq by assumption. rewrite Hcp.
    change (1 / 0.5 - 1) with 1. rewrite F64.mul_one_r.
    destruct (end_ p); reflexivity.
Qed.

End Ends.

Section EndsRuns.
#[local] Existing Instance approx.lib.

Lemma interpolate_ends_witness :
  let p := DivergingMSH.SmoothBlueRed in
  DivergingMSH.interpolateMSHDiverging p 0 = MSH.mk 80 1.08 (-1.1)
  /\ DivergingMSH.interpolateMSHDiverging p 1 = MSH.mk 80 (1.08 * (1 / 0.5 - 1)) 0.5
  /\ DivergingMSH.interpolateMSHDiverging p 1 = MSH.mk 80 1.08 0.5.
Proof.
  cbv zeta.
  assert (HM : is_number (88 - 80) = true) by (vm_compute; reflexivity).
  assert (Hs : is_number (hueTwist (MSH.mk 80 1.08 (-1.1)) 88) = true)
    by (vm_compute; reflexivity).
  assert (He : is_number (hueTwist (MSH.mk 80 1.08 0.5) 88) = true)
    by (vm_compute; reflexivity).
  destruct (interpolate_ends DivergingMSH.SmoothBlueRed eq_refl eq_refl) as [H0 H1].
  split; [exact (H0 HM Hs)|]. destruct (H1 HM He) as [H1a H1b].
  split; [exact H1a|exact (H1b eq_refl)].
Defined.

Lemma DivergingMSH_At_ends_witness :
  let p := DivergingMSH.with_max 4 DivergingMSH.SmoothBlueRed in
  (let c := cieLAB_sRGB (MSH_lab (MSH.mk 80 1.08 (-1.1))) 1 in
   fst (DivergingMSH.At 0 p) = (Some c, sRGBA_check c))
  /\ (let c := cieLAB_sRGB (MSH_lab (MSH.mk 80 1.08 0.5)) 1 in
      fst (DivergingMSH.At 4 p) = (Some c, sRGBA_check c)).
Proof.
  cbv zeta.
  assert (HM : is_number (88 - 80) = true) by (vm_compute; reflexivity).
  assert (Hs : is_number (hueTwist (MSH.mk 80 1.08 (-1.1)) 88) = true)
    by (vm_compute; reflexivity).
  assert (He : is_number (hueTwist (MSH.mk 80 1.08 0.5) 88) = true)
    by (vm_compute; reflexivity).
  destruct (DivergingMSH_At_ends (DivergingMSH.with_max 4 DivergingMSH.SmoothBlueRed)
              eq_refl eq_refl eq_refl eq_refl eq_refl) as [H0 H1].
  split; [exact (H0 HM Hs)|exact (H1 HM He eq_refl eq_refl)].
Defined.

End EndsRuns.

(** A channel passes the test of check when it is NaN or within [0,1]. *)
Lemma outside_unit_false (x : float) :
  outside_unit x = false <-> is_nan x = true \/ in_unit x = true.
Proof.
  unfold outside_unit, in_unit. split.
  - intros H. apply orb_false_iff in H as [Hlt Hgt].
    destruct (is_nan x) eqn:En; [left; reflexivity|right].
    apply andb_true_iff. split.
    + apply not_gtb_leb; [reflexivity|exact En|exact Hlt].
    + apply not_gtb_leb; [exact En|reflexivity|exact Hgt].
  - intros [Hn|Hu].
    + rewrite (F64.ltb_nan_l _ _ Hn), (F64.ltb_nan_r _ _ Hn). reflexivity.
    + apply andb_true_iff in Hu as [H0 H1].
      apply orb_false_iff. split.
      * revert H0. rewrite FloatAxioms.ltb_spec, FloatAxioms.leb_spec.
        unfold SFltb, SFleb. rewrite (SFcompare_swap (Prim2SF x) (Prim2SF 0)).
        destruct (SFcompare (Prim2SF x) (Prim2SF 0)) as [[]|]; cbn; congruence.
      * revert H1. rewrite FloatAxioms.ltb_spec, FloatAxioms.leb_spec.
        unfold SFltb, SFleb. rewrite (SFcompare_swap (Prim2SF x) (Prim2SF 1)).
        destruct (SFcompare (Prim2SF x) (Prim2SF 1)) as [[]|]; cbn; congruence.
Qed.

(** check returns nil exactly when every channel is NaN or lies within
    [0,1]: a NaN channel is not reported. *)
Theorem sRGBA_check_nil_iff (c : sRGBA.t) :
  sRGBA_check c = None
  <-> Forall (fun x => is_nan x = true \/ in_unit x = true)
             [sRGBA.R c; sRGBA.G c; sRGBA.B c; sRGBA.A c].
Proof.
  rewrite sRGBA_check_spec. unfold some_channel_outside.
  destruct (existsb outside_unit _) eqn:E.
  - split; [discriminate|]. intros H. exfalso.
    apply existsb_exists in E as (x & Hin & Hx).
    rewrite List.Forall_forall in H. specialize (H x Hin).
    apply outside_unit_false in H. congruence.
  - split; [intros _|reflexivity].
    apply List.Forall_forall. intros x Hin. apply outside_unit_false.
    destruct (outside_unit x) eqn:Hx; [|reflexivity].
    assert (existsb outside_unit [sRGBA.R c; sRGBA.G c; sRGBA.B c; sRGBA.A c] = true)
      by (apply existsb_exists; eauto).
    congruence.
Qed.

Lemma fix_channel_inside (x : float) :
  let y := if (if x >? 1 then 1 else x) <? 0 then 0 else (if x >? 1 then 1 else x) in
  outside_unit y = false /\ (outside_unit x = false -> y = x).
Proof.
  cbn zeta. destruct (fix_channel x) as (Hnum & Hnan & _).
  split.
  - apply outside_unit_false. destruct (is_nan x); [left|right]; auto.
  - unfold outside_unit. intros H. apply orb_false_iff in H as [Hlt Hgt].
    rewrite Hgt, Hlt. reflexivity.
Qed.

(* ------------------------------------------------------------------ *)
(** ** What At returns, channel by channel *)

(** [y] is [x] clamped to [0,1] the way fix does it: a channel above 1
    becomes 1, a channel below 0 becomes 0, and any other channel, a
    NaN among them, is kept. *)
Definition clamped (x y : float) : Prop :=
  ((x >? 1) = true /\ y = 1)
  \/ ((x >? 1) = false /\ (x <? 0) = true /\ y = 0)
  \/ ((x >? 1) = false /\ (x <? 0) = false /\ y = x).

Lemma fix_channel_clamped (x : float) :
  clamped x (if (if x >? 1 then 1 else x) <? 0 then 0 else (if x >? 1 then 1 else x)).
Proof.
  unfold clamped. destruct (x >? 1) eqn:Egt.
  - left. split; reflexivity.
  - right. destruct (x <? 0) eqn:Elt; [left|right]; repeat split; reflexivity.
Qed.

Lemma clamped_range (x y : float) :
  clamped x y -> (is_nan y = true \/ in_unit y = true) /\ (is_nan y = is_nan x).
Proof.
  intros [[Hgt ->]|[(Hgt & Hlt & ->)|(Hgt & Hlt & ->)]].
  - split; [right; reflexivity|].
    destruct (is_nan x) eqn:En; [|reflexivity].
    rewrite (F64.ltb_nan_r _ _ En) in Hgt. discriminate Hgt.
  - split; [right; reflexivity|].
    destruct (is_nan x) eqn:En; [|reflexivity].
    rewrite (F64.ltb_nan_l _ _ En) in Hlt. discriminate Hlt.
  - split; [|reflexivity]. apply outside_unit_false. unfold outside_unit.
    rewrite Hlt, Hgt. reflexivity.
Qed.

Section DivergingOutcome.
Context `{ML : math.Lib}.
Import DivergingMSH.

(** C7 (amended).  At returns the nil colour with the Max == Min error
    exactly when min == max.  Otherwise it returns the computed colour,
    together with the invalid-colour error exactly when one of R, G, B,
    A is below 0 or above 1, and with a nil error exactly when every
    channel is NaN or lies within [0,1]: a NaN channel is below nothing
    and above nothing, and raises no error.  The colour is returned
    with the error, not withheld. *)
Theorem DivergingMSH_At_outcome (p : t) (scalar : float) :
  let c := At_color p scalar in
  let channels := [sRGBA.R c; sRGBA.G c; sRGBA.B c; sRGBA.A c] in
  fst (At scalar p)
  = (if min p =? max p then (None, Some ErrDivergingMaxEqMin)
     else (Some c, if some_channel_outside c then Some (ErrInvalidColor c) else None))
  /\ (fst (At scalar p) = (None, Some ErrDivergingMaxEqMin)
      <-> (min p =? max p) = true)
  /\ (fst (fst (At scalar p)) = Some c <-> (min p =? max p) = false)
  /\ ((min p =? max p) = false ->
      (snd (fst (At scalar p)) = Some (ErrInvalidColor c)
       <-> Exists (fun x => (x <? 0) = true \/ (x >? 1) = true) channels)
      /\ (snd (fst (At scalar p)) = None
          <-> Forall (fun x => is_nan x = true \/ in_unit x = true) channels)
      /\ (snd (fst (At scalar p)) = None
          \/ snd (fst (At scalar p)) = Some (ErrInvalidColor c))).
Proof.
  intros c channels. rewrite DivergingMSH_At_eq. fold c. split; [reflexivity|].
  destruct (min p =? max p); cbn [fst snd].
  { split; [split; reflexivity|]. split; [split; discriminate|]. discriminate. }
  split; [split; discriminate|]. split; [split; reflexivity|]. intros _.
  unfold some_channel_outside. fold channels.
  destruct (existsb outside_unit channels) eqn:E.
  - apply existsb_exists in E as (x & Hin & Hx).
    split; [|split; [|right; reflexivity]].
    + split; [intros _|reflexivity]. apply List.Exists_exists. exists x.
      split; [exact Hin|]. unfold outside_unit in Hx. apply orb_true_iff in Hx. exact Hx.
    + split; [discriminate|]. intros H. exfalso.
      rewrite List.Forall_forall in H. specialize (H x Hin).
      apply outside_unit_false in H. congruence.
  - assert (Hall : forall x, In x channels -> outside_unit x = false).
    { intros x Hin. destruct (outside_unit x) eqn:Hx; [|reflexivity].
      assert (existsb outside_unit channels = true) by (apply existsb_exists; eauto).
      congruence. }
    split; [|split; [|left; reflexivity]].
    + split; [discriminate|]. intros H. exfalso.
      apply List.Exists_exists in H as (x & Hin & Hx).
      specialize (Hall x Hin). unfold outside_unit in Hall.
      apply orb_false_iff in Hall as [H0 H1]. destruct Hx; congruence.
    + split; [intros _|reflexivity]. apply List.Forall_forall. intros x Hin.
      apply outside_unit_false, Hall, Hin.
Qed.

End DivergingOutcome.

(** The claim as worded fails on a NaN channel.  On the map with start
    hue 0, At(0.125) returns R = G = B = NaN, which is not within
    [0,1], and a nil error. *)
Lemma C7_counterexample :
  (DivergingMSH.min zero_hue_map =? DivergingMSH.max zero_hue_map) = false
  /\ fst (@DivergingMSH.At approx.lib 0.125 zero_hue_map)
     = (Some (sRGBA.mk nan nan nan 1), None)
  /\ in_unit nan = false
  /\ is_nan nan = true.
Proof. repeat split; vm_compute; reflexivity. Qed.

(** SmoothBlueRed on [0,1] at 1.5, beyond max: the green channel is
    below 0, and At returns the colour together with the error. *)
Lemma DivergingMSH_At_outcome_witness :
  let p := DivergingMSH.with_max 1 DivergingMSH.SmoothBlueRed in
  let c := @At_color approx.lib p 1.5 in
  fst (fst (@DivergingMSH.At approx.lib 1.5 p)) = Some c
  /\ snd (fst (@DivergingMSH.At approx.lib 1.5 p)) = Some (ErrInvalidColor c)
  /\ (sRGBA.G c <? 0) = true.
Proof.
  cbv zeta.
  pose proof (@DivergingMSH_At_outcome approx.lib
                (DivergingMSH.with_max 1 DivergingMSH.SmoothBlueRed) 1.5)
    as (_ & _ & Hc & Herr).
  cbv zeta in Hc, Herr.
  assert (HG : (sRGBA.G (@At_color approx.lib
                           (DivergingMSH.with_max 1 DivergingMSH.SmoothBlueRed) 1.5)
                <? 0) = true) by (vm_compute; reflexivity).
  split; [apply Hc; reflexivity|]. split; [|exact HG].
  apply (proj1 (Herr eq_refl)).
  apply List.Exists_cons_tl, List.Exists_cons_hd. left. exact HG.
Defined.

Section LuminanceOutcome.
Context `{ML : math.Lib}.
Import Luminance.

(** C6 (amended).  At returns no colour and an error exactly when
    max == 0 or t = scalar/max is below 0 or above 1.  Otherwise, on a
    map with as many colours as scalars whose last scalar is 1, and for
    t not NaN: if the insertion index of t in scalars is 0 the result
    is the first control colour converted to sRGB, not clamped; else it
    is the colour interpolated in L, A, B between the control colours
    i-1 and i by the fraction (t - scalars[i-1])/(scalars[i] -
    scalars[i-1]), converted and clamped, with a nil error.  Clamped
    means: a channel above 1 becomes 1, a channel below 0 becomes 0, any
    other channel is kept; so every channel returned is within [0,1]
    or NaN, and it is NaN exactly when the interpolated one is. *)
Theorem Luminance_At_outcome (l : t) (scalar : float) :
  let t := scalar / max l in
  let i := sort.SearchFloat64s (scalars l) t in
  let u := between l t i in
  ((exists c e, At_ l scalar = Ret (c, Some e))
   <-> (max l =? 0) || (t <? 0) || (t >? 1) = true)
  /\ (forall c e, At_ l scalar = Ret (c, Some e) -> c = None)
  /\ (length (colors l) = length (scalars l) ->
      last (scalars l) = Some 1 ->
      is_nan t = false ->
      exists c : sRGBA.t,
        fst (At scalar l)
        = (if max l =? 0 then Ret (None, Some ErrLuminanceMaxZero)
           else if (t <? 0) || (t >? 1)
           then Ret (None, Some (ErrOutOfRange t (max l)))
           else if (i =? 0)%nat
           then Ret (Some (cieLAB_sRGB (nth 0 (colors l) (cieLAB.mk 0 0 0)) (Alpha l)),
                     None)
           else Ret (Some c, None))
        /\ c = sRGBA_fix u
        /\ Forall2 clamped [sRGBA.R u; sRGBA.G u; sRGBA.B u; sRGBA.A u]
                           [sRGBA.R c; sRGBA.G c; sRGBA.B c; sRGBA.A c]
        /\ Forall (fun y => is_nan y = true \/ in_unit y = true)
                  [sRGBA.R c; sRGBA.G c; sRGBA.B c; sRGBA.A c]
        /\ Forall2 (fun x y => is_nan y = is_nan x)
                   [sRGBA.R u; sRGBA.G u; sRGBA.B u; sRGBA.A u]
                   [sRGBA.R c; sRGBA.G c; sRGBA.B c; sRGBA.A c]).
Proof.
  intros t i u. destruct (Luminance_At_error l scalar) as (H0 & H1 & Hiff).
  fold t in H1, Hiff. split; [exact Hiff|]. split.
  { intros c e H. assert (Hex : exists c e, At_ l scalar = Ret (c, Some e)) by eauto.
    apply Hiff in Hex.
    destruct (max l =? 0) eqn:E0.
    - rewrite (H0 eq_refl) in H. congruence.
    - rewrite (H1 eq_refl Hex) in H. congruence. }
  intros Hlen Hlast Hnan. exists (sRGBA_fix u).
  assert (Hcl : Forall2 clamped [sRGBA.R u; sRGBA.G u; sRGBA.B u; sRGBA.A u]
                  [sRGBA.R (sRGBA_fix u); sRGBA.G (sRGBA_fix u);
                   sRGBA.B (sRGBA_fix u); sRGBA.A (sRGBA_fix u)]).
  { destruct u as [R G B A]. unfold sRGBA_fix.
    cbn [sRGBA.R sRGBA.G sRGBA.B sRGBA.A].
    repeat (apply List.Forall2_cons; [apply fix_channel_clamped|]).
    apply List.Forall2_nil. }
  split; [|split; [reflexivity|split; [exact Hcl|]]].
  - unfold At. cbn [fst].
    destruct (max l =? 0) eqn:E0; [apply H0; reflexivity|].
    destruct ((t <? 0) || (t >? 1)) eqn:E1; [apply H1; reflexivity|].
    apply Luminance_At_color; try assumption.
    apply orb_false_iff in E1 as [_ Egt].
    apply (SearchFloat64s_lt _ _ 1 Hlast).
    apply not_gtb_leb; [exact Hnan|reflexivity|exact Egt].
  - apply List.Forall2_cons_iff in Hcl as [HR Hcl].
    apply List.Forall2_cons_iff in Hcl as [HG Hcl].
    apply List.Forall2_cons_iff in Hcl as [HB Hcl].
    apply List.Forall2_cons_iff in Hcl as [HA _].
    destruct (clamped_range _ _ HR) as [R1 R2], (clamped_range _ _ HG) as [G1 G2],
      (clamped_range _ _ HB) as [B1 B2], (clamped_range _ _ HA) as [A1 A2].
    split; repeat (first [apply List.Forall_cons | apply List.Forall2_cons]);
      try apply List.Forall_nil; try apply List.Forall2_nil; assumption.
Qed.

End LuminanceOutcome.

(** ExtendedBlackBody with max = 1 at 0.375: the insertion index is 3,
    the interpolated colour has a green channel below 0, and At returns
    it clamped to 0, the other channels as they are. *)
Lemma Luminance_At_outcome_witness :
  let l := Luminance.with_max 1 Luminance.ExtendedBlackBody in
  let u := @between approx.lib l 0.375 3 in
  exists c : sRGBA.t,
    fst (@Luminance.At approx.lib 0.375 l) = Ret (Some c, None)
    /\ c = sRGBA_fix u
    /\ Forall2 clamped [sRGBA.R u; sRGBA.G u; sRGBA.B u; sRGBA.A u]
                       [sRGBA.R c; sRGBA.G c; sRGBA.B c; sRGBA.A c]
    /\ Forall (fun y => is_nan y = true \/ in_unit y = true)
              [sRGBA.R c; sRGBA.G c; sRGBA.B c; sRGBA.A c]
    /\ (sRGBA.G u <? 0) = true
    /\ c = sRGBA.mk (sRGBA.R u) 0 (sRGBA.B u) 1.
Proof.
  cbv zeta.
  destruct (proj2 (proj2 (@Luminance_At_outcome approx.lib
                            (Luminance.with_max 1 Luminance.ExtendedBlackBody) 0.375))
              eq_refl eq_refl eq_refl) as (c & Hc & Hfix & Hcl & Hin & _).
  exists c. split; [exact Hc|]. split; [exact Hfix|]. split; [exact Hcl|].
  split; [exact Hin|]. split; [vm_compute; reflexivity|].
  rewrite Hfix. vm_compute. reflexivity.
Defined.

Lemma check_fix_nil (c : sRGBA.t) : sRGBA_check (sRGBA_fix c) = None.
Proof.
  destruct c as [R G B A]. rewrite sRGBA_check_spec.
  unfold some_channel_outside, sRGBA_fix.
  cbn [sRGBA.R sRGBA.G sRGBA.B sRGBA.A existsb].
  rewrite (proj1 (fix_channel_inside R)), (proj1 (fix_channel_inside G)),
    (proj1 (fix_channel_inside B)), (proj1 (fix_channel_inside A)). reflexivity.
Qed.

Lemma fix_checked_id (c : sRGBA.t) : sRGBA_check c = None -> sRGBA_fix c = c.
Proof.
  destruct c as [R G B A]. rewrite sRGBA_check_spec.
  unfold some_channel_outside, sRGBA_fix.
  cbn [sRGBA.R sRGBA.G sRGBA.B sRGBA.A existsb].
  destruct (outside_unit R) eqn:ER; [discriminate|].
  destruct (outside_unit G) eqn:EG; [discriminate|].
  destruct (outside_unit B) eqn:EB; [discriminate|].
  destruct (outside_unit A) eqn:EA; [discriminate|]. intros _.
  rewrite (proj2 (fix_channel_inside R) ER), (proj2 (fix_channel_inside G) EG),
    (proj2 (fix_channel_inside B) EB), (proj2 (fix_channel_inside A) EA).
  reflexivity.
Qed.

(** fix and check agree: whatever fix returns passes check, fix changes
    nothing more when applied again, and the colours fix leaves
    unchanged are exactly those check accepts. *)
Theorem sRGBA_fix_check (c : sRGBA.t) :
  sRGBA_check (sRGBA_fix c) = None
  /\ sRGBA_fix (sRGBA_fix c) = sRGBA_fix c
  /\ (sRGBA_fix c = c <-> sRGBA_check c = None).
Proof.
  split; [apply check_fix_nil|]. split; [apply fix_checked_id, check_fix_nil|].
  split; [intros <-; apply check_fix_nil|apply fix_checked_id].
Qed.

Section LuminanceGamut.
Context `{ML : math.Lib}.
Import Luminance.

(** Every colour At returns from between two control colours (insertion
    index above 0) has been clamped: it passes check.  Only the first
    control colour is returned as converted. *)
Theorem Luminance_At_clamped (l : t) (scalar : float) (c : sRGBA.t) :
  At_ l scalar = Ret (Some c, None) ->
  sort.SearchFloat64s (scalars l) (scalar / max l) <> 0%nat ->
  sRGBA_check c = None.
Proof.
  unfold At_. intros H Hi.
  destruct (max l =? 0); [discriminate H|].
  destruct ((scalar / max l <? 0) || (scalar / max l >? 1)); [discriminate H|].
  apply Nat.eqb_neq in Hi. rewrite Hi in H.
  destruct (index (colors l) _) as [c1|]; [|discriminate H].
  destruct (index (colors l) _) as [c2|]; [|discriminate H].
  destruct (index (scalars l) _) as [s1|]; [|discriminate H].
  destruct (index (scalars l) _) as [s2|]; [|discriminate H].
  cbn [rbind] in H.
  match type of H with
  | Ret (Some (sRGBA_fix ?o), None) = _ =>
    assert (E : c = sRGBA_fix o) by congruence
  end.
  rewrite E. apply check_fix_nil.
Qed.

End LuminanceGamut.

(* ------------------------------------------------------------------ *)

Lemma zero_compare (z : float) :
  is_zero z = true ->
  (z <? 0) = false /\ (z >? 1) = false /\ is_nan z = false
  /\ forall s, (s >=? z) = (s >=? 0).
Proof.
  unfold is_zero. rewrite F64.eqb_zero_spec, F64.is_nan_false_spec.
  intros [sz Hz].
  rewrite !FloatAxioms.ltb_spec, Hz.
  change (Prim2SF 0) with (S754_zero false).
  change (Prim2SF 1) with (S754_finite false 4503599627370496 (-52)).
  repeat split; try discriminate.
  intros s. rewrite !FloatAxioms.leb_spec, Hz.
  change (Prim2SF 0) with (S754_zero false).
  unfold SFleb. destruct (Prim2SF s) as [[]|[]| |[] m e]; reflexivity.
Qed.

Lemma search_loop_all_true (f : nat -> bool) (fuel : nat) :
  forall j : nat, (forall k, (k < j)%nat -> f k = true) ->
    sort.search_loop fuel f 0 j = 0%nat.
Proof.
  induction fuel as [|fuel IH]; intros j Hf; cbn [sort.search_loop]; [reflexivity|].
  destruct (0 <? j)%nat eqn:Hlt; [|reflexivity].
  apply Nat.ltb_lt in Hlt. pose proof (midpoint_bounds 0 j Hlt) as Hh.
  rewrite (Hf ((0 + j) / 2)%nat) by lia. cbn [negb].
  apply IH. intros k Hk. apply Hf. lia.
Qed.

Section LuminanceEnds.
Context `{ML : math.Lib}.
Import Luminance.

(** The part of At that follows [scalar = scalar / l.max]. *)
Definition At_normalized (l : t) (scalar : float)
  : result (option sRGBA.t * option error) :=
  if (scalar <? 0) || (scalar >? 1)
  then Ret (None, Some (ErrOutOfRange scalar (max l)))
  else
    let i := sort.SearchFloat64s (scalars l) scalar in
    if (i =? 0)%nat then
      let* c := index (colors l) i in
      Ret (Some (linearRGB_S (cieXYZ_linearRGB (cieLAB_XYZ c)) (Alpha l)), None)
    else
      let* c1 := index (colors l) (i - 1) in
      let* c2 := index (colors l) i in
      let* s1 := index (scalars l) (i - 1) in
      let* s2 := index (scalars l) i in
      let frac := (scalar - s1) / (s2 - s1) in
      let o := linearRGB_S
                 (cieXYZ_linearRGB
                    (cieLAB_XYZ
                       {| cieLAB.L := frac * (cieLAB.L c2 - cieLAB.L c1) + cieLAB.L c1;
                          cieLAB.A := frac * (cieLAB.A c2 - cieLAB.A c1) + cieLAB.A c1;
                          cieLAB.B := frac * (cieLAB.B c2 - cieLAB.B c1) + cieLAB.B c1 |}))
                 (Alpha l) in
      Ret (Some (sRGBA_fix o), None).

Lemma At_eq_normalized (l : t) (scalar : float) :
  At_ l scalar
  = if max l =? 0 then Ret (None, Some ErrLuminanceMaxZero)
    else At_normalized l (scalar / max l).
Proof. reflexivity. Qed.

Lemma Luminance_At_zero_eq (l : t) (c0 : cieLAB.t) (z : float) :
  colors l !! 0%nat = Some c0 ->
  Forall (fun s => (s >=? 0) = true) (scalars l) ->
  is_zero z = true ->
  At_normalized l z = Ret (Some (cieLAB_sRGB c0 (Alpha l)), None).
Proof.
  intros Hc Hs Hz. destruct (zero_compare z Hz) as (Hlt & Hgt & _ & Hge).
  unfold At_normalized. rewrite Hlt, Hgt. cbn [orb].
  assert (Hi : sort.SearchFloat64s (scalars l) z = 0%nat).
  { unfold sort.SearchFloat64s, sort.Search. apply search_loop_all_true.
    intros k Hk. destruct (lookup_lt_is_Some_2 _ _ Hk) as [v Hv]. rewrite Hv, Hge.
    exact (Forall_lookup_1 _ _ _ _ Hs Hv). }
  rewrite Hi. cbn [Nat.eqb]. unfold index. rewrite Hc. reflexivity.
Qed.

(** At(0) returns the first control colour, converted to sRGB and not
    clamped, on every map whose scalars are all >= 0 and whose max is a
    non-zero number. *)
Theorem Luminance_At_zero (l : t) (c0 : cieLAB.t) :
  colors l !! 0%nat = Some c0 ->
  Forall (fun s => (s >=? 0) = true) (scalars l) ->
  is_nan (max l) = false -> (max l =? 0) = false ->
  fst (At 0 l) = Ret (Some (cieLAB_sRGB c0 (Alpha l)), None).
Proof.
  intros Hc Hs Hn Hz. unfold At. cbn [fst]. rewrite At_eq_normalized, Hz.
  apply Luminance_At_zero_eq; [exact Hc|exact Hs|].
  apply zero_div; [reflexivity|exact Hn|exact Hz].
Qed.

(** What At returns on a map with as many colours as scalars whose last
    scalar is 1, for t = scalar/max not NaN. *)
Lemma Luminance_At_cases (l : t) (scalar : float) :
  let t := scalar / max l in
  let i := sort.SearchFloat64s (scalars l) t in
  length (colors l) = length (scalars l) ->
  last (scalars l) = Some 1 ->
  is_nan t = false ->
  At_ l scalar
  = if max l =? 0 then Ret (None, Some ErrLuminanceMaxZero)
    else if (t <? 0) || (t >? 1)
    then Ret (None, Some (ErrOutOfRange t (max l)))
    else if (i =? 0)%nat
    then Ret (Some (cieLAB_sRGB (nth 0 (colors l) (cieLAB.mk 0 0 0)) (Alpha l)), None)
    else Ret (Some (sRGBA_fix (between l t i)), None).
Proof.
  intros t i Hlen Hlast Hnan.
  destruct (Luminance_At_error l scalar) as (H0 & H1 & _). fold t in H1.
  destruct (max l =? 0) eqn:E0; [apply H0; reflexivity|].
  destruct ((t <? 0) || (t >? 1)) eqn:E1; [apply H1; reflexivity|].
  apply Luminance_At_color; try assumption.
  apply orb_false_iff in E1 as [_ Egt].
  apply (SearchFloat64s_lt _ _ 1 Hlast).
  apply not_gtb_leb; [exact Hnan|reflexivity|exact Egt].
Qed.

(** At returns: an error and no colour, or a colour and no error. *)
Definition returns_one (r : result (option sRGBA.t * option error)) : Prop :=
  (exists e, r = Ret (None, Some e)) \/ (exists c, r = Ret (Some c, None)).

Lemma Luminance_At_returns (l : t) (scalar : float) :
  length (colors l) = length (scalars l) ->
  last (scalars l) = Some 1 ->
  is_nan (scalar / max l) = false ->
  returns_one (At_ l scalar).
Proof.
  intros Hlen Hlast Hnan. rewrite Luminance_At_cases by assumption.
  unfold returns_one.
  destruct (max l =? 0); [left; eauto|].
  destruct (_ || _); [left; eauto|].
  destruct (_ =? _)%nat; right; eauto.
Qed.

(** The map NewLuminance returns cannot be used before SetMax: At
    returns the Max == 0 error for every scalar.  After SetMax(m), At
    never panics at a scalar for which scalar/m is not NaN: it returns
    an error and no colour, or a colour and no error. *)
Theorem NewLuminance_then_At (cs : list color.Color) (l : t) :
  NewLuminance cs = Ret (Some l, None) ->
  (forall s, fst (At s l) = Ret (None, Some ErrLuminanceMaxZero))
  /\ (forall m s, is_nan (s / m) = false ->
        returns_one (fst (and_then (SetMax m) (At s) l)))
  /\ length (colors l) = length cs
  /\ length (scalars l) = length cs.
Proof.
  rewrite NewLuminance_eq.
  assert (Hn : length (normalized (labs cs)) = length cs)
    by (unfold normalized, labs; rewrite !List.length_map; reflexivity).
  assert (Hc : length (labs cs) = length cs)
    by (unfold labs; rewrite List.length_map; reflexivity).
  set (cols := labs cs) in *.
  set (scs := <[(length cs - 1)%nat := 1]> (<[0%nat := 0]> (normalized cols))).
  assert (Hs : length scs = length cs)
    by (unfold scs; rewrite !length_insert; exact Hn).
  assert (Hlast : (0 < length cs)%nat -> last scs = Some 1).
  { intros Hpos. rewrite last_lookup, Hs. unfold scs.
    replace (pred (length cs)) with (length cs - 1)%nat by lia.
    apply list_lookup_insert_eq. rewrite length_insert, Hn. lia. }
  destruct (first_violation None 0 _) as [[[k L] Lp]|]; [discriminate|].
  destruct cs as [|c cs]; [discriminate|].
  intros H. assert (El : l = mk cols scs 1 0) by congruence. clear H. subst l.
  split; [reflexivity|]. split.
  - intros m s Hnan. unfold and_then, SetMax, At, with_max.
    cbn [fst snd colors scalars Alpha max].
    apply Luminance_At_returns; cbn [colors scalars Alpha max].
    + rewrite Hs. exact Hc.
    + apply Hlast. cbn [length]. lia.
    + exact Hnan.
  - cbn [colors scalars]. split; assumption.
Qed.

End LuminanceEnds.

Section LuminanceRuns.
#[local] Existing Instance approx.lib.

(** BlackBody at 0.5, run with [approx.lib]. *)
Definition BlackBody_half : sRGBA.t :=
  Eval vm_compute in
    match Luminance.At_ (Luminance.with_max 1 Luminance.BlackBody) 0.5 with
    | Ret (Some c, _) => c
    | _ => sRGBA.mk 0 0 0 0
    end.

Lemma Luminance_At_clamped_witness : sRGBA_check BlackBody_half = None.
Proof.
  exact (@Luminance_At_clamped approx.lib (Luminance.with_max 1 Luminance.BlackBody) 0.5
           BlackBody_half ltac:(vm_compute; reflexivity) ltac:(vm_compute; discriminate)).
Defined.

Lemma Luminance_At_zero_witness :
  fst (Luminance.At 0 (Luminance.with_max 3 Luminance.BlackBody))
  = Ret (Some (cieLAB_sRGB (cieLAB.mk 0 0 0) 1), None).
Proof.
  exact (@Luminance_At_zero approx.lib (Luminance.with_max 3 Luminance.BlackBody) (cieLAB.mk 0 0 0)
           eq_refl
           ltac:(repeat apply List.Forall_cons; try apply List.Forall_nil; reflexivity)
           eq_refl eq_refl).
Defined.

(** The map NewLuminance builds from black and white. *)
Definition black_white : list color.Color :=
  [color.NRGBA 0 0 0 255; color.NRGBA 255 255 255 255].

Definition black_to_white : Luminance.t :=
  Eval vm_compute in
    match Luminance.NewLuminance black_white with
    | Ret (Some l, _) => l
    | _ => Luminance.mk [] [] 0 0
    end.

Lemma NewLuminance_then_At_witness :
  (forall s, fst (Luminance.At s black_to_white) = Ret (None, Some ErrLuminanceMaxZero))
  /\ (forall m s, is_nan (s / m) = false ->
        returns_one (fst (and_then (Luminance.SetMax m) (Luminance.At s) black_to_white)))
  /\ length (Luminance.colors black_to_white) = length black_white
  /\ length (Luminance.scalars black_to_white) = length black_white.
Proof.
  exact (@NewLuminance_then_At approx.lib black_white black_to_white ltac:(vm_compute; reflexivity)).
Defined.

End LuminanceRuns.

(* ------------------------------------------------------------------ *)

Definition Luminance_presets : list Luminance.t :=
  [Luminance.BlackBody; Luminance.ExtendedBlackBody;
   Luminance.Kindlmann; Luminance.ExtendedKindlmann].

(** Strictly increasing under Go's [<]. *)
Fixpoint increasing (xs : list float) : bool :=
  match xs with
  | x :: (y :: _) as xs' => (x <? y) && increasing xs'
  | _ => true
  end.

(** The four presets are what NewLuminance would build from their own
    LAB colours. *)
Theorem Luminance_presets_normalized :
  Forall (fun l =>
            let n := length (Luminance.colors l) in
            Luminance.scalars l
            = <[(n - 1)%nat := 1]> (<[0%nat := 0]> (normalized (Luminance.colors l)))
            /\ length (Luminance.scalars l) = n
            /\ increasing (map cieLAB.L (Luminance.colors l)) = true
            /\ increasing (Luminance.scalars l) = true
            /\ head (Luminance.scalars l) = Some 0
            /\ last (Luminance.scalars l) = Some 1
            /\ Luminance.Alpha l = 1
            /\ Luminance.max l = 0)
         Luminance_presets.
Proof.
  repeat apply List.Forall_cons; try apply List.Forall_nil;
    cbn zeta; repeat split; vm_compute; reflexivity.
Qed.

Lemma is_zero_cases (z : float) : is_zero z = true -> z = 0 \/ z = (-0).
Proof.
  unfold is_zero. rewrite F64.eqb_zero_spec. intros [[] Hz]; [right|left];
    apply Prim2SF_inj; rewrite Hz; reflexivity.
Qed.

Section PresetEnds.
Context `{ML : math.Lib}.
Import Luminance.

(** luminance.go, At on the presets BlackBody, ExtendedBlackBody,
    Kindlmann and ExtendedKindlmann with max set to a finite non-zero
    m: At(0) is opaque black, At(m) is the last control colour
    LAB(100,0,0) converted to sRGB and clamped, and At(s) returns one
    of its two results, without a panic, whenever s/m is a number. *)
Theorem Luminance_presets_ends (l : t) (m : float) :
  In l Luminance_presets ->
  F64.is_finite_nonzero m = true ->
  fst (At 0 (with_max m l)) = Ret (Some (sRGBA.mk 0 0 0 1), None)
  /\ fst (At m (with_max m l))
     = Ret (Some (sRGBA_fix (cieLAB_sRGB (cieLAB.mk 100 0 0) 1)), None)
  /\ forall s, is_nan (s / m) = false -> returns_one (fst (At s (with_max m l))).
Proof.
  intros Hl Hm. destruct (finite_nonzero_not_nan m Hm) as [Hn Hz].
  unfold is_zero in Hz.
  assert (H0 : At_normalized (with_max m l) (0 / m)
               = Ret (Some (sRGBA.mk 0 0 0 1), None)).
  { destruct (is_zero_cases _ (zero_div 0 m eq_refl Hn Hz)) as [-> | ->];
      cbn [In Luminance_presets] in Hl; decompose [or] Hl; subst; try contradiction;
      vm_compute; reflexivity. }
  assert (H1 : At_normalized (with_max m l) 1
               = Ret (Some (sRGBA_fix (cieLAB_sRGB (cieLAB.mk 100 0 0) 1)), None)).
  { cbn [In Luminance_presets] in Hl; decompose [or] Hl; subst; try contradiction;
      vm_compute; reflexivity. }
  assert (H2 : length (colors l) = length (scalars l) /\ last (scalars l) = Some 1).
  { cbn [In Luminance_presets] in Hl; decompose [or] Hl; subst; try contradiction;
      split; reflexivity. }
  unfold At. cbn [fst]. split; [|split].
  - rewrite At_eq_normalized. cbn [max with_max]. rewrite Hz. exact H0.
  - rewrite At_eq_normalized. cbn [max with_max]. rewrite Hz, (F64.div_self m Hm).
    exact H1.
  - intros s Hs. apply Luminance_At_returns; [apply H2|apply H2|exact Hs].
Qed.

End PresetEnds.

Section PresetEndsRuns.
#[local] Existing Instance approx.lib.

Lemma Luminance_presets_ends_witness :
  let l := Luminance.with_max 2 Luminance.Kindlmann in
  fst (Luminance.At 0 l) = Ret (Some (sRGBA.mk 0 0 0 1), None)
  /\ fst (Luminance.At 2 l)
     = Ret (Some (sRGBA_fix (cieLAB_sRGB (cieLAB.mk 100 0 0) 1)), None)
  /\ forall s, is_nan (s / 2) = false -> returns_one (fst (Luminance.At s l)).
Proof.
  exact (Luminance_presets_ends Luminance.Kindlmann 2
           (or_intror (or_intror (or_introl eq_refl))) eq_refl).
Defined.

End PresetEndsRuns.

(* ------------------------------------------------------------------ *)
(** ** Palette without colours *)

Section PaletteEdge.
Context `{ML : math.Lib}.

(** Palette(0) returns the empty palette without calling At, and
    Palette of a negative number panics in make, on every map of either
    kind, configured or not. *)
Theorem Palette_no_colors (nColors : Z) :
  (nColors <= 0)%Z ->
  let r : result Palette :=
    if (nColors =? 0)%Z then Ret [] else Panics PanicMakeSlice in
  (forall p : DivergingMSH.t, fst (DivergingMSH.Palette nColors p) = r)
  /\ (forall l : Luminance.t, fst (Luminance.Palette nColors l) = r).
Proof.
  intros Hn r. unfold r.
  destruct nColors as [|n|n]; [| lia |]; split; intros m;
    unfold DivergingMSH.Palette, Luminance.Palette, value_receiver,
      DivergingMSH.Palette_body, Luminance.Palette_body; reflexivity.
Qed.

End PaletteEdge.

Lemma Palette_no_colors_witness :
  (forall p : DivergingMSH.t,
      fst (@DivergingMSH.Palette approx.lib (-1) p) = Panics PanicMakeSlice)
  /\ (forall l : Luminance.t,
      fst (@Luminance.Palette approx.lib (-1) l) = Panics PanicMakeSlice).
Proof.
  exact (@Palette_no_colors approx.lib (-1) ltac:(discriminate)).
Defined.

(* ------------------------------------------------------------------ *)
(** ** NewDivergingMSH, SetMax, At *)

Lemma eqb_sym (x y : float) : (x =? y) = (y =? x).
Proof.
  rewrite !FloatAxioms.eqb_spec. unfold SFeqb.
  rewrite (SFcompare_swap (Prim2SF y) (Prim2SF x)).
  destruct (SFcompare (Prim2SF y) (Prim2SF x)) as [[]|]; reflexivity.
Qed.

Section DivergingLifecycle.
Context `{ML : math.Lib}.
Import DivergingMSH.

(** A map made by NewDivergingMSH has min = max = 0, so At fails with
    the Max == Min error at every scalar until the domain is set; after
    SetMax(v) alone, At(x) evaluates the interpolation at x / v. *)
Theorem NewDivergingMSH_then_At (c1 c2 : MSH.t) (v x : float) :
  let p0 := NewDivergingMSH c1 c2 in
  let p1 := snd (SetMax v p0) in
  fst (At x p0) = (None, Some ErrDivergingMaxEqMin)
  /\ fst (and_then (SetMax v) (At x) p0)
     = (if v =? 0 then (None, Some ErrDivergingMaxEqMin)
        else let c := cieLAB_sRGB (MSH_lab (interpolateMSHDiverging p1 (x / v))) 1 in
             (Some c, sRGBA_check c))
  /\ fst (and_then (SetMax v) Max p0) = v
  /\ fst (and_then (SetMax v) Min p0) = 0.
Proof.
  cbn zeta. split; [reflexivity|]. split; [|split; reflexivity].
  unfold and_then, SetMax, At, At_, with_max, NewDivergingMSH.
  cbn [fst snd min max Alpha start end_ ConvergeM ConvergePoint].
  rewrite (eqb_sym 0 v), sub_zero_r. reflexivity.
Qed.

End DivergingLifecycle.

(* ------------------------------------------------------------------ *)
(** ** A NaN scalar in DivergingMSH.At *)

Section DivergingNaN.
Context `{ML : math.Lib}.
Import DivergingMSH.

Lemma interpolate_NaN (p : t) (t : float) :
  is_nan t = true -> is_nan (MSH.M (interpolateMSHDiverging p t)) = true.
Proof.
  intros Ht. unfold interpolateMSHDiverging. rewrite (F64.ltb_nan_l _ _ Ht).
  cbn [MSH.M]. apply F64.add_nan_l, F64.mul_nan_r, F64.div_nan_l, F64.sub_nan_l, Ht.
Qed.

(** A NaN magnitude makes L, A and B NaN whatever the math library
    returns, then X, Y and Z, then R, G and B. *)
Lemma NaN_magnitude_chain (c : MSH.t) (alpha : float) :
  is_nan (MSH.M c) = true ->
  let o := linearRGB_S (cieXYZ_linearRGB (cieLAB_XYZ (MSH_lab c))) alpha in
  is_nan (sRGBA.R o) = true /\ is_nan (sRGBA.G o) = true
  /\ is_nan (sRGBA.B o) = true /\ sRGBA.A o = alpha.
Proof.
  intros Hm. cbn zeta.
  assert (HA : is_nan (cieLAB.A (MSH_lab c)) = true)
    by (cbn; apply F64.mul_nan_l, F64.mul_nan_l, Hm).
  destruct (MSH_lab c) as [L A B]. cbn in HA.
  assert (HX : is_nan (cieXYZ.X (cieLAB_XYZ (cieLAB.mk L A B))) = true)
    by (cbn; apply F64.mul_nan_r, xyzTemp_NaN, F64.add_nan_l, F64.div_nan_l, HA).
  destruct (cieLAB_XYZ (cieLAB.mk L A B)) as [X Y Z]. cbn in HX.
  cbn. repeat split; apply linearToS_NaN, F64.add_nan_l, F64.add_nan_l,
    F64.mul_nan_l, HX.
Qed.

(** When the normalised scalar is NaN (a NaN scalar, for one), At
    neither fails nor panics: it returns a colour whose R, G and B are
    NaN, with a nil error as long as Alpha is not outside [0,1]. *)
Theorem DivergingMSH_At_NaN (p : t) (scalar : float) :
  (min p =? max p) = false ->
  is_nan ((scalar - min p) / max p) = true ->
  exists o : sRGBA.t,
    fst (At scalar p)
    = (Some o, if outside_unit (Alpha p) then Some (ErrInvalidColor o) else None)
    /\ is_nan (sRGBA.R o) = true /\ is_nan (sRGBA.G o) = true
    /\ is_nan (sRGBA.B o) = true /\ sRGBA.A o = Alpha p.
Proof.
  intros Hne Ht. exists (At_color p scalar).
  destruct (NaN_magnitude_chain _ (Alpha p) (interpolate_NaN p _ Ht))
    as (HR & HG & HB & HA).
  fold (At_color p scalar) in HR, HG, HB, HA.
  rewrite DivergingMSH_At_eq, Hne.
  unfold some_channel_outside. cbn [existsb].
  rewrite (outside_unit_NaN _ HR), (outside_unit_NaN _ HG), (outside_unit_NaN _ HB).
  rewrite HA. cbn [orb]. rewrite orb_false_r. auto.
Qed.

End DivergingNaN.

Lemma DivergingMSH_At_NaN_witness :
  let p := DivergingMSH.with_max 1 DivergingMSH.SmoothBlueRed in
  exists o : sRGBA.t,
    fst (@DivergingMSH.At approx.lib nan p) = (Some o, None)
    /\ is_nan (sRGBA.R o) = true /\ is_nan (sRGBA.G o) = true
    /\ is_nan (sRGBA.B o) = true /\ sRGBA.A o = 1.
Proof.
  exact (@DivergingMSH_At_NaN approx.lib
           (DivergingMSH.with_max 1 DivergingMSH.SmoothBlueRed) nan eq_refl eq_refl).
Defined.

(** One channel of an opaque colour through colorTosRGBA and back
    through RGBA. *)
Definition opaque_channel_back (r : Z) : option Z :=
  let alpha := float64_of_uint32 65535 / 65535 in
  uint32_of_float64 (float64_of_uint32 r / alpha / 65535 * alpha * 65535).

Definition opaque_channel_ok (r : Z) : bool :=
  match opaque_channel_back r with
  | Some r' => (r' =? r)%Z
  | None => false
  end
  && in_unit (float64_of_uint32 r / (float64_of_uint32 65535 / 65535) / 65535).

Definition bytes : list Z := map Z.of_nat (seq 0 256).

Lemma in_bytes (k : Z) : (0 <= k < 256)%Z -> In k bytes.
Proof.
  intros Hk. unfold bytes. apply in_map_iff. exists (Z.to_nat k).
  split; [lia|]. apply in_seq. lia.
Qed.

Lemma opaque_channels_ok :
  forallb (fun hi => forallb (fun lo => opaque_channel_ok (256 * hi + lo)) bytes) bytes = true.
Proof. vm_compute. reflexivity. Qed.

Lemma opaque_channel (r : Z) :
  (0 <= r <= 65535)%Z ->
  opaque_channel_back r = Some r
  /\ in_unit (float64_of_uint32 r / (float64_of_uint32 65535 / 65535) / 65535) = true.
Proof.
  intros Hr. pose proof opaque_channels_ok as H.
  assert (Hhi : (0 <= r / 256 < 256)%Z).
  { split; [apply Z.div_pos; lia|apply Z.div_lt_upper_bound; lia]. }
  pose proof (Z.mod_pos_bound r 256 eq_refl) as Hlo.
  rewrite forallb_forall in H. specialize (H (r / 256)%Z (in_bytes _ Hhi)).
  rewrite forallb_forall in H. specialize (H (r mod 256)%Z (in_bytes _ Hlo)).
  cbv beta in H. rewrite <- Z.div_mod in H by discriminate.
  unfold opaque_channel_ok in H.
  apply andb_true_iff in H as [H1 H2]. split; [|exact H2].
  destruct (opaque_channel_back r) as [r'|]; [|discriminate].
  apply Z.eqb_eq in H1. congruence.
Qed.

(** An opaque colour (alpha 0xffff) with 16-bit channels survives the
    conversion to sRGBA and back through RGBA() unchanged, and the
    sRGBA value passes check.  This does not extend to translucent
    colours: NRGBA{33, 0, 0, 1} has r = 33 and comes back with r = 32. *)
Theorem opaque_color_round_trip (r g b : Z) :
  (0 <= r <= 65535)%Z -> (0 <= g <= 65535)%Z -> (0 <= b <= 65535)%Z ->
  let c := colorTosRGBA (color.mk r g b 65535) in
  sRGBA_RGBA c = (Some r, Some g, Some b, Some 65535%Z)
  /\ sRGBA_check c = None
  /\ sRGBA.A c = 1
  /\ color.r (color.NRGBA 33 0 0 1) = 33%Z
  /\ sRGBA_RGBA (colorTosRGBA (color.NRGBA 33 0 0 1))
     = (Some 32%Z, Some 0%Z, Some 0%Z, Some 257%Z).
Proof.
  intros Hr Hg Hb c.
  destruct (opaque_channel r Hr) as [Er Ur], (opaque_channel g Hg) as [Eg Ug],
    (opaque_channel b Hb) as [Eb Ub].
  split; [|split; [|split; [|split]]].
  - unfold c, colorTosRGBA, sRGBA_RGBA. fold (opaque_channel_back r).
    fold (opaque_channel_back g). fold (opaque_channel_back b).
    rewrite Er, Eg, Eb. reflexivity.
  - rewrite sRGBA_check_spec. unfold some_channel_outside, c, colorTosRGBA.
    cbn [sRGBA.R sRGBA.G sRGBA.B sRGBA.A existsb].
    rewrite (proj2 (outside_unit_false _) (or_intror Ur)),
      (proj2 (outside_unit_false _) (or_intror Ug)),
      (proj2 (outside_unit_false _) (or_intror Ub)).
    reflexivity.
  - reflexivity.
  - reflexivity.
  - vm_compute. reflexivity.
Qed.

Lemma opaque_color_round_trip_witness :
  let c := colorTosRGBA (color.NRGBA 194 42 53 255) in
  sRGBA_RGBA c = (Some 49858%Z, Some 10794%Z, Some 13621%Z, Some 65535%Z)
  /\ sRGBA_check c = None
  /\ sRGBA.A c = 1
  /\ color.r (color.NRGBA 33 0 0 1) = 33%Z
  /\ sRGBA_RGBA (colorTosRGBA (color.NRGBA 33 0 0 1))
     = (Some 32%Z, Some 0%Z, Some 0%Z, Some 257%Z).
Proof.
  exact (opaque_color_round_trip 49858 10794 13621
           ltac:(split; discriminate) ltac:(split; discriminate)
           ltac:(split; discriminate)).
Defined.


Lemma float64_of_uint32_pos (r : Z) :
  (0 < r < 2 ^ 32)%Z ->
  exists m e, Prim2SF (float64_of_uint32 r) = S754_finite false m e.
Proof.
  intros Hr. unfold float64_of_uint32.
  rewrite FloatAxioms.of_uint63_spec, Uint63.of_Z_spec.
  assert (Hw : (2 ^ 32 <= Uint63.wB)%Z) by discriminate.
  rewrite Z.mod_small by lia.
  destruct r as [|k|k]; try lia. cbn [binary_normalize].
  apply Rounding.binary_round_finite; [discriminate|].
  pose proof (Rounding.digits2_pos_bounds k) as [Blo _].
  assert (Z.pos (digits2_pos k) - 1 < 32)%Z; [|lia].
  apply (Z.pow_lt_mono_r_iff 2); lia.
Qed.

(** One colour channel of a fully transparent colour: 0/0 is NaN and a
    positive number over 0 is +Inf. *)
Lemma transparent_channel (r : Z) :
  (0 <= r < 2 ^ 32)%Z ->
  float64_of_uint32 r / (float64_of_uint32 0 / 65535) / 65535
  = if (r =? 0)%Z then nan else infinity.
Proof.
  intros Hr. change (float64_of_uint32 0 / 65535) with 0.
  destruct (r =? 0)%Z eqn:E.
  - apply Z.eqb_eq in E. subst r. reflexivity.
  - apply Z.eqb_neq in E.
    destruct (float64_of_uint32_pos r ltac:(lia)) as (m & e & Hm).
    assert (H : float64_of_uint32 r / 0 = infinity).
    { apply Prim2SF_inj. rewrite FloatAxioms.div_spec, Hm. reflexivity. }
    rewrite H. reflexivity.
Qed.

Section Transparent.
Context `{ML : math.Lib}.

(** colorTosRGBA divides by alpha without testing it.  For a fully
    transparent colour (a = 0) it returns A = 0 and, per colour channel,
    NaN when the channel is 0 and +Inf otherwise; check accepts the
    result exactly when r = g = b = 0 (the only such colour that is
    alpha-premultiplied), its CIELAB value is then NaN in L, A and B, and
    RGBA() of the result has implementation-dependent r, g and b. *)
Theorem colorTosRGBA_transparent (r g b : Z) :
  (0 <= r < 2 ^ 32)%Z -> (0 <= g < 2 ^ 32)%Z -> (0 <= b < 2 ^ 32)%Z ->
  let c := colorTosRGBA (color.mk r g b 0) in
  c = sRGBA.mk (if (r =? 0)%Z then nan else infinity)
               (if (g =? 0)%Z then nan else infinity)
               (if (b =? 0)%Z then nan else infinity) 0
  /\ (sRGBA_check c = None <-> r = 0%Z /\ g = 0%Z /\ b = 0%Z)
  /\ (r = 0%Z -> g = 0%Z -> b = 0%Z -> sRGBA_LAB c = cieLAB.mk nan nan nan)
  /\ sRGBA_RGBA c = (None, None, None, Some 0%Z).
Proof.
  intros Hr Hg Hb c.
  assert (Ec : c = sRGBA.mk (if (r =? 0)%Z then nan else infinity)
                            (if (g =? 0)%Z then nan else infinity)
                            (if (b =? 0)%Z then nan else infinity) 0).
  { unfold c, colorTosRGBA.
    rewrite (transparent_channel r Hr), (transparent_channel g Hg),
      (transparent_channel b Hb). reflexivity. }
  split; [exact Ec|]. rewrite Ec. clear Ec c.
  split; [|split].
  - destruct (r =? 0)%Z eqn:Er, (g =? 0)%Z eqn:Eg, (b =? 0)%Z eqn:Eb;
      rewrite ?Z.eqb_eq, ?Z.eqb_neq in *; (split; [intros H|intros (? & ? & ?)]);
      try discriminate H; try reflexivity; try lia.
  - intros -> -> ->. reflexivity.
  - destruct (r =? 0)%Z, (g =? 0)%Z, (b =? 0)%Z; reflexivity.
Qed.

End Transparent.

Lemma colorTosRGBA_transparent_witness :
  let c := colorTosRGBA (color.NRGBA 200 0 7 0) in
  c = sRGBA.mk nan nan nan 0
  /\ (sRGBA_check c = None <-> 0%Z = 0%Z /\ 0%Z = 0%Z /\ 0%Z = 0%Z)
  /\ (0%Z = 0%Z -> 0%Z = 0%Z -> 0%Z = 0%Z ->
      @sRGBA_LAB approx.lib c = cieLAB.mk nan nan nan)
  /\ sRGBA_RGBA c = (None, None, None, Some 0%Z).
Proof.
  exact (@colorTosRGBA_transparent approx.lib 0 0 0
           ltac:(split; [discriminate|reflexivity])
           ltac:(split; [discriminate|reflexivity])
           ltac:(split; [discriminate|reflexivity])).
Defined.


(** Negation commutes with rounding: round-to-nearest-even is
    symmetric. *)
Lemma binary_round_aux_opp (s : bool) (m e : Z) (l : location) :
  binary_round_aux prec emax (negb s) m e l
  = SFopp (binary_round_aux prec emax s m e l).
Proof.
  unfold binary_round_aux.
  destruct (shr_fexp prec emax m e l) as [mrs' e'].
  destruct (shr_fexp prec emax _ e' loc_Exact) as [mrs'' e''].
  destruct (shr_m mrs''); try reflexivity.
  destruct (e'' <=? emax - prec)%Z; reflexivity.
Qed.

Lemma mul_opp_l (x y : float) : (- x) * y = - (x * y).
Proof.
  apply Prim2SF_inj.
  rewrite FloatAxioms.opp_spec, !FloatAxioms.mul_spec, FloatAxioms.opp_spec.
  destruct (Prim2SF x) as [sx|sx| |sx mx ex], (Prim2SF y) as [sy|sy| |sy my ey];
    try reflexivity; cbn [SFopp SF64mul SFmul];
    try (destruct sx, sy; reflexivity).
  rewrite <- binary_round_aux_opp. destruct sx, sy; reflexivity.
Qed.

Lemma div_opp_l (x y : float) : (- x) / y = - (x / y).
Proof.
  apply Prim2SF_inj.
  rewrite FloatAxioms.opp_spec, !FloatAxioms.div_spec, FloatAxioms.opp_spec.
  destruct (Prim2SF x) as [sx|sx| |sx mx ex], (Prim2SF y) as [sy|sy| |sy my ey];
    try reflexivity; cbn [SFopp SF64div SFdiv];
    try (destruct sx, sy; reflexivity).
  destruct (SFdiv_core_binary prec emax (Z.pos mx) ex (Z.pos my) ey) as [[m e] l].
  rewrite <- binary_round_aux_opp. destruct sx, sy; reflexivity.
Qed.

Lemma abs_opp (x : float) : abs (- x) = abs x.
Proof.
  apply Prim2SF_inj. rewrite !FloatAxioms.abs_spec, FloatAxioms.opp_spec.
  destruct (Prim2SF x); reflexivity.
Qed.

Section HueTwistOdd.
Context `{ML : math.Lib}.

(** hueTwist is odd in the hue: mirroring the hue of a colour mirrors
    its twist, bit for bit (a NaN twist stays NaN). *)
Theorem hueTwist_odd (M S H convergeM : float) :
  hueTwist (MSH.mk M S (- H)) convergeM = - hueTwist (MSH.mk M S H) convergeM.
Proof.
  unfold hueTwist, signH, math.Abs. cbn [MSH.M MSH.S MSH.H].
  rewrite abs_opp, div_opp_l, !mul_opp_l, div_opp_l. reflexivity.
Qed.

End HueTwistOdd.

(* ------------------------------------------------------------------ *)
(** ** When Luminance.Palette returns *)

Lemma search_loop_all_false (f : nat -> bool) (fuel : nat) :
  forall i j : nat, (i <= j)%nat -> (j - i <= fuel)%nat ->
    (forall k, (k < j)%nat -> f k = false) ->
    sort.search_loop fuel f i j = j.
Proof.
  induction fuel as [|fuel IH]; intros i j Hij Hfuel Hf; cbn [sort.search_loop];
    [lia|].
  destruct (i <? j)%nat eqn:Hlt.
  - apply Nat.ltb_lt in Hlt. pose proof (midpoint_bounds i j Hlt) as Hh.
    rewrite (Hf ((i + j) / 2)%nat) by lia. cbn [negb].
    apply IH; [lia|lia|exact Hf].
  - apply Nat.ltb_ge in Hlt. lia.
Qed.

Lemma sample_all_returns at_ (vs : list float) :
  (exists cs, sample_all at_ vs = Ret cs)
  <-> Forall (fun v => exists c, at_ v = Ret (c, None)) vs.
Proof.
  induction vs as [|v vs IH]; cbn [sample_all].
  - split; [intros _; apply List.Forall_nil|intros _; eauto].
  - split.
    + intros [cs H]. destruct (at_ v) as [[c [e|]]|p] eqn:E; try discriminate H.
      destruct (sample_all at_ vs) as [cs'|p]; [|discriminate H].
      apply List.Forall_cons; [eauto|]. apply IH. eauto.
    + intros H. apply List.Forall_cons_iff in H as [[c Hc] Hvs].
      apply IH in Hvs as [cs Hcs]. rewrite Hc, Hcs. eauto.
Qed.

Section PaletteReturns2.
Context `{ML : math.Lib}.
Import Luminance.

(** With a NaN normalised scalar no scalar is [>=] it: the insertion
    index is len(scalars) and colors[i] panics. *)
Lemma Luminance_At_NaN (l : t) (scalar : float) :
  (max l =? 0) = false ->
  is_nan (scalar / max l) = true ->
  length (colors l) = length (scalars l) ->
  (0 < length (scalars l))%nat ->
  At_ l scalar
  = Panics (PanicIndex (Z.of_nat (length (scalars l))) (length (scalars l))).
Proof.
  intros E0 Hn Hlen Hpos. unfold At_. rewrite E0.
  rewrite (F64.ltb_nan_l _ _ Hn), (F64.ltb_nan_r _ _ Hn). cbn [orb].
  assert (Hi : sort.SearchFloat64s (scalars l) (scalar / max l) = length (scalars l)).
  { unfold sort.SearchFloat64s, sort.Search. apply search_loop_all_false; [lia|lia|].
    intros k Hk. destruct (scalars l !! k); [|reflexivity].
    apply F64.leb_nan_l, Hn. }
  rewrite Hi. destruct (length (scalars l)) as [|n] eqn:En; [lia|].
  cbn [Nat.eqb]. replace (S n - 1)%nat with n by lia.
  rewrite (index_nth (colors l) n (cieLAB.mk 0 0 0)) by lia. cbn [rbind].
  unfold index at 1. rewrite lookup_ge_None_2 by lia.
  rewrite Hlen. reflexivity.
Qed.

(** At returns a colour and no error exactly when max is not 0 and the
    normalised scalar lies within [0,1]. *)
Lemma Luminance_At_returns_color (l : t) (scalar : float) :
  length (colors l) = length (scalars l) ->
  last (scalars l) = Some 1 ->
  (exists c, At_ l scalar = Ret (c, None))
  <-> (max l =? 0) = false /\ in_unit (scalar / max l) = true.
Proof.
  intros Hlen Hlast.
  assert (Hpos : (0 < length (scalars l))%nat)
    by (destruct (scalars l); [discriminate|cbn; lia]).
  destruct (is_nan (scalar / max l)) eqn:Hn.
  - assert (Hu : in_unit (scalar / max l) = false)
      by (unfold in_unit; rewrite (F64.leb_nan_r _ _ Hn); reflexivity).
    rewrite Hu. split; [|intros [_ H]; discriminate H].
    intros [c H]. destruct (max l =? 0) eqn:E0.
    + unfold At_ in H. rewrite E0 in H. discriminate H.
    + rewrite Luminance_At_NaN in H by assumption. discriminate H.
  - rewrite Luminance_At_cases by assumption.
    pose proof (outside_unit_false (scalar / max l)) as Ho.
    unfold outside_unit in Ho.
    destruct (max l =? 0).
    { split; [intros [c H]; discriminate H|intros [H _]; discriminate H]. }
    destruct ((scalar / max l <? 0) || (scalar / max l >? 1)) eqn:E1.
    + split; [intros [c H]; discriminate H|]. intros [_ Hu].
      assert (Hf : true = false) by (apply Ho; right; exact Hu). discriminate Hf.
    + destruct (proj1 Ho eq_refl) as [Hn'|Hu]; [congruence|].
      split; [intros _; split; [reflexivity|exact Hu]|].
      intros _. destruct (_ =? _)%nat; eauto.
Qed.

(** Every running sum Palette samples lies, divided by max, within
    [0,1]. *)
Definition samples_in_range (hi : float) (nColors : Z) : bool :=
  forallb (fun v => in_unit (v / hi))
          (samples (Z.to_nat nColors) 0 (hi / float64_of_int (nColors - 1))).

Lemma Luminance_Palette_returns_samples (l : t) (nColors : Z) :
  length (colors l) = length (scalars l) ->
  last (scalars l) = Some 1 ->
  (exists cs, fst (Palette nColors l) = Ret cs)
  <-> makeslice_panics sizeof_Color nColors = false
      /\ samples_in_range (Luminance_domain_max l) nColors = true.
Proof.
  intros Hlen Hlast. destruct (makeslice_panics sizeof_Color nColors) eqn:Hm.
  { destruct (Palette_makeslice nColors Hm) as [_ H]. rewrite (H l).
    split; [intros [cs Hcs]; discriminate Hcs|intros [Hf _]; discriminate Hf]. }
  destruct (Palette_samples nColors Hm) as [_ H].
  rewrite (H l). cbv zeta. rewrite sample_all_returns. unfold samples_in_range.
  rewrite forallb_forall, List.Forall_forall.
  set (hi := Luminance_domain_max l).
  assert (Hhi : (hi =? 0) = false).
  { unfold hi, Luminance_domain_max. destruct (max l =? 0) eqn:E; [reflexivity|exact E]. }
  split.
  - intros Hall. split; [reflexivity|]. intros v Hv. specialize (Hall v Hv).
    apply Luminance_At_returns_color in Hall; [|assumption..]. apply Hall.
  - intros [_ Hall] v Hv. specialize (Hall v Hv).
    apply Luminance_At_returns_color; [assumption..|]. split; [exact Hhi|exact Hall].
Qed.


End PaletteReturns2.

(** The palette sizes up to 64 at which the running sums overshoot 1. *)
Definition overshooting_sizes : list Z :=
  [10; 12; 19; 21; 22; 26; 36; 37; 40; 41; 42; 43; 44; 46; 48; 49; 50; 51;
   52; 53; 56; 57; 58; 59; 61; 62]%Z.

Lemma overshooting_sizes_table :
  forallb (fun n => Bool.eqb (samples_in_range 1 n)
                             (negb (existsb (Z.eqb n) overshooting_sizes)))
          (map Z.of_nat (seq 0 65)) = true.
Proof. vm_compute. reflexivity. Qed.

Section PresetPalettes.
Context `{ML : math.Lib}.

(** On the four presets with no max set, Palette(n) for n <= 64 panics
    exactly for the 26 sizes at which the accumulated scalar overshoots
    1, and returns for the others, whatever the math library. *)
Theorem Luminance_presets_Palette_sizes (l : Luminance.t) (n : Z) :
  In l Luminance_presets -> (0 <= n <= 64)%Z ->
  (exists cs, fst (Luminance.Palette n l) = Ret cs)
  <-> ~ In n overshooting_sizes.
Proof.
  intros Hl Hn.
  assert (H : length (Luminance.colors l) = length (Luminance.scalars l)
              /\ last (Luminance.scalars l) = Some 1
              /\ Luminance_domain_max l = 1).
  { cbn [In Luminance_presets] in Hl; decompose [or] Hl; subst; try contradiction;
      repeat split; reflexivity. }
  destruct H as (Hlen & Hlast & Hmax).
  rewrite Luminance_Palette_returns_samples by assumption. rewrite Hmax.
  assert (Hm : makeslice_panics sizeof_Color n = false).
  { apply makeslice_Color. assert (64 < 2 ^ 44)%Z by reflexivity. lia. }
  rewrite Hm.
  assert (Hs : false = false /\ samples_in_range 1 n = true
               <-> samples_in_range 1 n = true) by tauto.
  rewrite Hs. clear Hs.
  pose proof overshooting_sizes_table as T. rewrite forallb_forall in T.
  specialize (T n). rewrite Bool.eqb_true_iff in T. rewrite T.
  - rewrite negb_true_iff, <- not_true_iff_false, existsb_exists.
    split; intros H.
    + intros Hin. apply H. exists n. split; [exact Hin|apply Z.eqb_refl].
    + intros (k & Hin & Hk). apply Z.eqb_eq in Hk. subst k. exact (H Hin).
  - apply in_map_iff. exists (Z.to_nat n). split; [lia|]. apply in_seq. lia.
Qed.

End PresetPalettes.


Lemma Luminance_presets_Palette_sizes_witness :
  (exists cs, fst (@Luminance.Palette approx.lib 9 Luminance.Kindlmann) = Ret cs)
  <-> ~ In 9%Z overshooting_sizes.
Proof.
  exact (@Luminance_presets_Palette_sizes approx.lib Luminance.Kindlmann 9
           (or_intror (or_intror (or_introl eq_refl)))
           ltac:(split; discriminate)).
Defined.



(** [<=] on floats is transitive. *)
Lemma SFleb_trans (x y z : spec_float) :
  SFleb x y = true -> SFleb y z = true -> SFleb x z = true.
Proof.
  unfold SFleb.
  destruct x as [[]|[]| |[] mx ex], y as [[]|[]| |[] my ey], z as [[]|[]| |[] mz ez];
    cbn [SFcompare]; try reflexivity; try discriminate;
    intros H1 H2; try discriminate H1; try discriminate H2;
    change (Pos.compare_cont Eq) with Pos.compare in *;
    destruct (Z.compare_spec ex ey), (Z.compare_spec ey ez), (Z.compare_spec ex ez);
    try lia; try discriminate H1; try discriminate H2; try reflexivity;
    destruct (Pos.compare_spec mx my), (Pos.compare_spec my mz), (Pos.compare_spec mx mz);
    cbn [CompOpp] in *;
    try lia; try discriminate H1; try discriminate H2; try reflexivity.
Qed.

Lemma leb_trans (x y z : float) :
  (x <=? y) = true -> (y <=? z) = true -> (x <=? z) = true.
Proof. rewrite !FloatAxioms.leb_spec. apply SFleb_trans. Qed.

Lemma ltb_leb (x y : float) : (x <? y) = true -> (x <=? y) = true.
Proof.
  rewrite FloatAxioms.ltb_spec, FloatAxioms.leb_spec. unfold SFltb, SFleb.
  destruct (SFcompare (Prim2SF x) (Prim2SF y)) as [[]|]; congruence.
Qed.

Lemma ltb_not_nan (x y : float) :
  (x <? y) = true -> is_nan x = false /\ is_nan y = false.
Proof.
  intros H. split.
  - destruct (is_nan x) eqn:E; [|reflexivity].
    rewrite (F64.ltb_nan_l _ _ E) in H. discriminate.
  - destruct (is_nan y) eqn:E; [|reflexivity].
    rewrite (F64.ltb_nan_r _ _ E) in H. discriminate.
Qed.

(** For numbers, not (x <= y) is y < x. *)
Lemma not_leb_ltb (x y : float) :
  is_nan x = false -> is_nan y = false -> (x <=? y) = false -> (y <? x) = true.
Proof.
  rewrite !F64.is_nan_false_spec, FloatAxioms.ltb_spec, FloatAxioms.leb_spec.
  unfold SFltb, SFleb. rewrite (SFcompare_swap (Prim2SF x) (Prim2SF y)).
  intros Hx Hy.
  destruct (SFcompare (Prim2SF x) (Prim2SF y)) as [[]|] eqn:E;
    cbn; try congruence.
  destruct (Prim2SF x) as [[]|[]| |[] mx ex], (Prim2SF y) as [[]|[]| |[] my ey];
    cbn in E; congruence.
Qed.

Lemma increasing_next (xs : list float) (k : nat) (v v' : float) :
  increasing xs = true -> xs !! k = Some v -> xs !! S k = Some v' ->
  (v <? v') = true.
Proof.
  revert k. induction xs as [|x xs IH]; intros k Hinc Hk Hk'; [discriminate Hk|].
  destruct xs as [|y xs]; [destruct k; discriminate Hk'|].
  cbn [increasing] in Hinc. apply andb_true_iff in Hinc as [Hxy Hinc].
  destruct k as [|k].
  - cbn in Hk, Hk'. congruence.
  - apply (IH k Hinc); assumption.
Qed.

Lemma increasing_le (xs : list float) (d k : nat) (v v' : float) :
  increasing xs = true -> xs !! k = Some v -> xs !! (S d + k)%nat = Some v' ->
  (v <? v') = true.
Proof.
  intros Hinc. revert v'. induction d as [|d IH]; intros v' Hk Hk'.
  - exact (increasing_next xs k v v' Hinc Hk Hk').
  - destruct (lookup_lt_is_Some_2 xs (S d + k)) as [w Hw].
    { apply lookup_lt_Some in Hk'. lia. }
    specialize (IH w Hk Hw).
    pose proof (increasing_next xs (S d + k) w v' Hinc Hw Hk') as Hn.
    destruct (ltb_not_nan _ _ IH) as [Hv _], (ltb_not_nan _ _ Hn) as [_ Hv'].
    destruct (v' <=? v) eqn:E.
    + assert (Hle : (w <=? v) = true)
        by (apply (leb_trans w v' v); [apply ltb_leb; exact Hn|exact E]).
      revert IH Hle. rewrite FloatAxioms.ltb_spec, FloatAxioms.leb_spec.
      unfold SFltb, SFleb. rewrite (SFcompare_swap (Prim2SF v) (Prim2SF w)).
      destruct (SFcompare (Prim2SF v) (Prim2SF w)) as [[]|]; cbn; congruence.
    + apply not_leb_ltb; assumption.
Qed.

Section Brackets.
Context `{ML : math.Lib}.
Import Luminance.

(** On a map whose scalars increase up to 1, the insertion index of a
    normalised scalar t within [0,1] is that of the segment holding t. *)
Lemma SearchFloat64s_brackets (a : list float) (t : float) :
  increasing a = true -> last a = Some 1 -> in_unit t = true ->
  let i := sort.SearchFloat64s a t in
  (i < length a)%nat
  /\ (t <=? nth i a 0) = true
  /\ (i <> 0%nat -> (nth (i - 1) a 0 <? t) = true).
Proof.
  intros Hinc Hlast Hu i.
  apply andb_true_iff in Hu as [Ht0 Ht1].
  assert (Hnan : is_nan t = false).
  { destruct (is_nan t) eqn:E; [|reflexivity].
    rewrite (F64.leb_nan_l _ _ E) in Ht1. discriminate. }
  assert (Hi : (i < length a)%nat) by (apply (SearchFloat64s_lt a t 1 Hlast); exact Ht1).
  destruct (SearchFloat64s_first a t) as [Hlo Hhi].
  { intros k k' v v' Hk Ev Ev' Hv.
    destruct (Nat.eq_dec k k') as [<-|Hne]; [congruence|].
    apply (leb_trans t v v'); [exact Hv|]. apply ltb_leb.
    apply (increasing_le a (k' - k - 1) k v v' Hinc Ev).
    replace (S (k' - k - 1) + k)%nat with k' by lia. exact Ev'. }
  fold i in Hlo, Hhi.
  destruct (lookup_lt_is_Some_2 a i Hi) as [si Hsi].
  split; [exact Hi|]. split.
  - rewrite (nth_lookup_Some _ _ 0 _ Hsi). exact (Hhi si Hsi).
  - intros Hi0. destruct (lookup_lt_is_Some_2 a (i - 1)) as [sp Hsp]; [lia|].
    rewrite (nth_lookup_Some _ _ 0 _ Hsp).
    assert (Hlt : (sp <? si) = true).
    { apply (increasing_next a (i - 1) sp si Hinc Hsp).
      replace (S (i - 1)) with i by lia. exact Hsi. }
    apply not_leb_ltb; [exact Hnan|exact (proj1 (ltb_not_nan _ _ Hlt))|].
    apply (Hlo (i - 1)%nat sp); [lia|exact Hsp].
Qed.

(** At interpolates between the control colours that bracket the
    normalised scalar: on a map with increasing scalars ending in 1 and
    t = scalar/max within [0,1], the colours used are those at i-1 and i
    with scalars[i-1] < t <= scalars[i] (the first colour alone when
    t <= scalars[0]). *)
Theorem Luminance_At_brackets (l : t) (scalar : float) :
  let t := scalar / max l in
  let i := sort.SearchFloat64s (scalars l) t in
  increasing (scalars l) = true ->
  length (colors l) = length (scalars l) ->
  last (scalars l) = Some 1 ->
  (max l =? 0) = false ->
  in_unit t = true ->
  (i < length (scalars l))%nat
  /\ (t <=? nth i (scalars l) 0) = true
  /\ (i <> 0%nat -> (nth (i - 1) (scalars l) 0 <? t) = true)
  /\ fst (At scalar l)
     = if (i =? 0)%nat
       then Ret (Some (cieLAB_sRGB (nth 0 (colors l) (cieLAB.mk 0 0 0)) (Alpha l)), None)
       else Ret (Some (sRGBA_fix (between l t i)), None).
Proof.
  intros t i Hinc Hlen Hlast E0 Hu.
  destruct (SearchFloat64s_brackets (scalars l) t Hinc Hlast Hu) as (Hi & Hhi & Hlo).
  fold i in Hi, Hhi, Hlo.
  split; [exact Hi|]. split; [exact Hhi|]. split; [exact Hlo|].
  unfold At. cbn [fst].
  assert (Ho : outside_unit t = false) by (apply outside_unit_false; right; exact Hu).
  unfold outside_unit in Ho.
  apply Luminance_At_color; assumption.
Qed.

End Brackets.

Section BracketsRuns.
#[local] Existing Instance approx.lib.

Lemma Luminance_At_brackets_witness :
  let l := Luminance.with_max 1 Luminance.Kindlmann in
  (5 < 11)%nat
  /\ (0.5 <=? 0.5273108089333358) = true
  /\ (5%nat <> 0%nat -> (0.4021480513626115 <? 0.5) = true)
  /\ fst (Luminance.At 0.5 l) = Ret (Some (sRGBA_fix (between l 0.5 5)), None).
Proof.
  exact (@Luminance_At_brackets approx.lib
           (Luminance.with_max 1 Luminance.Kindlmann) 0.5
           eq_refl eq_refl eq_refl eq_refl eq_refl).
Defined.

End BracketsRuns.

(** Multiplication commutes, bit for bit. *)
Lemma mul_comm (x y : float) : x * y = y * x.
Proof.
  apply Prim2SF_inj. rewrite !FloatAxioms.mul_spec.
  destruct (Prim2SF x) as [[]|[]| |sx mx ex], (Prim2SF y) as [[]|[]| |sy my ey];
    try reflexivity; try (destruct sx; reflexivity); try (destruct sy; reflexivity).
  unfold SF64mul, SFmul.
  rewrite (xorb_comm sy sx), (Pos.mul_comm my mx), (Z.add_comm ey ex). reflexivity.
Qed.

Lemma mul_one_l (x : float) : 1 * x = x.
Proof. rewrite mul_comm. apply F64.mul_one_r. Qed.

(** x - y and y - x are finite and not zero together. *)
Lemma sub_swap_finite_nonzero (x y : float) :
  F64.is_finite_nonzero (x - y) = F64.is_finite_nonzero (y - x).
Proof.
  unfold F64.is_finite_nonzero. rewrite !FloatAxioms.sub_spec.
  destruct (Prim2SF x) as [[]|[]| |sx mx ex], (Prim2SF y) as [[]|[]| |sy my ey];
    try reflexivity.
  unfold SF64sub, SFsub. rewrite (Z.min_comm ey ex).
  set (X := cond_Zopp sx (Z.pos (fst (shl_align mx ex (Z.min ex ey))))).
  set (Y := cond_Zopp sy (Z.pos (fst (shl_align my ey (Z.min ex ey))))).
  replace (Y - X)%Z with (- (X - Y))%Z by lia.
  assert (Hr : forall k e,
             match binary_round prec emax false k e with
             | S754_finite _ _ _ => true | _ => false end
             = match binary_round prec emax true k e with
               | S754_finite _ _ _ => true | _ => false end).
  { intros k e. unfold binary_round. destruct (shl_align k e _) as [mz ez].
    change true with (negb false) at 2. rewrite binary_round_aux_opp.
    destruct (binary_round_aux prec emax false (Z.pos mz) ez loc_Exact); reflexivity. }
  destruct (X - Y)%Z as [|k|k]; [reflexivity| |].
  - change (- Z.pos k)%Z with (Z.neg k). cbn [binary_normalize]. apply Hr.
  - change (- Z.neg k)%Z with (Z.pos k). cbn [binary_normalize]. symmetry. apply Hr.
Qed.

Lemma one_sub_finite_nonzero (s : float) :
  (0 <=? s) = true -> (s <? 1) = true -> F64.is_finite_nonzero (1 - s) = true.
Proof.
  intros H0 H1. destruct (0 <? s) eqn:Hpos.
  - rewrite sub_swap_finite_nonzero. apply F64.sub_one_finite_nonzero; assumption.
  - assert (Hz : is_zero s = true).
    { revert H0 Hpos. unfold is_zero.
      rewrite FloatAxioms.leb_spec, FloatAxioms.ltb_spec, FloatAxioms.eqb_spec.
      unfold SFleb, SFltb, SFeqb. rewrite (SFcompare_swap (Prim2SF 0) (Prim2SF s)).
      destruct (SFcompare (Prim2SF 0) (Prim2SF s)) as [[]|]; cbn; congruence. }
    rewrite (one_sub_zero _ Hz). reflexivity.
Qed.

Section LuminanceMax.
Context `{ML : math.Lib}.
Import Luminance.

(** At(max) is the last control colour up to the rounding of
    (c_last - c_prev) + c_prev in each of L, A and B, converted to sRGB
    and clamped: on a map with two or more increasing scalars from 0 up
    to 1 and a finite non-zero max, the interpolation fraction at
    t = max/max = 1 is exactly 1. *)
Theorem Luminance_At_max (l : t) (c1 c2 : cieLAB.t) :
  let n := length (scalars l) in
  increasing (scalars l) = true ->
  length (colors l) = n ->
  head (scalars l) = Some 0 ->
  last (scalars l) = Some 1 ->
  colors l !! (n - 2)%nat = Some c1 ->
  colors l !! (n - 1)%nat = Some c2 ->
  (2 <= n)%nat ->
  F64.is_finite_nonzero (max l) = true ->
  fst (At (max l) l)
  = Ret (Some (sRGBA_fix
                 (cieLAB_sRGB
                    {| cieLAB.L := (cieLAB.L c2 - cieLAB.L c1) + cieLAB.L c1;
                       cieLAB.A := (cieLAB.A c2 - cieLAB.A c1) + cieLAB.A c1;
                       cieLAB.B := (cieLAB.B c2 - cieLAB.B c1) + cieLAB.B c1 |}
                    (Alpha l))), None).
Proof.
  intros n Hinc Hlen Hhead Hlast Hc1 Hc2 Hn Hmax.
  destruct (finite_nonzero_not_nan _ Hmax) as [_ Hz]. unfold is_zero in Hz.
  unfold At. cbn [fst].
  pose proof (SearchFloat64s_brackets (scalars l) 1 Hinc Hlast eq_refl) as (Hi & Hhi & Hlo).
  set (i := sort.SearchFloat64s (scalars l) 1) in *. fold n in Hi.
  assert (Hlast' : scalars l !! (n - 1)%nat = Some 1).
  { rewrite last_lookup in Hlast. fold n in Hlast.
    replace (n - 1)%nat with (pred n) by lia. exact Hlast. }
  assert (Ei : i = (n - 1)%nat).
  { destruct (Nat.eq_dec i (n - 1)%nat) as [E|E]; [exact E|exfalso].
    destruct (lookup_lt_is_Some_2 (scalars l) i Hi) as [si Hsi].
    rewrite (nth_lookup_Some _ _ 0 _ Hsi) in Hhi.
    assert (Hlt : (si <? 1) = true).
    { apply (increasing_le (scalars l) (n - 1 - i - 1)%nat i si 1 Hinc Hsi).
      replace (S (n - 1 - i - 1) + i)%nat with (n - 1)%nat by lia. exact Hlast'. }
    revert Hlt Hhi. rewrite FloatAxioms.ltb_spec, FloatAxioms.leb_spec.
    unfold SFltb, SFleb. rewrite (SFcompare_swap (Prim2SF si) (Prim2SF 1)).
    destruct (SFcompare (Prim2SF si) (Prim2SF 1)) as [[]|]; cbn; congruence. }
  destruct (lookup_lt_is_Some_2 (scalars l) (n - 2)%nat) as [s1 Hs1]; [fold n; lia|].
  assert (Hs1lt : (s1 <? 1) = true).
  { apply (increasing_next (scalars l) (n - 2)%nat s1 1 Hinc Hs1).
    replace (S (n - 2)%nat) with (n - 1)%nat by lia. exact Hlast'. }
  assert (Hs1ge : (0 <=? s1) = true).
  { destruct (Nat.eq_dec n 2%nat) as [E2|E2].
    - assert (Some s1 = Some 0) as [= ->]; [|reflexivity].
      rewrite <- Hs1, <- Hhead, E2. cbn [Nat.sub]. destruct (scalars l); reflexivity.
    - apply ltb_leb. apply (increasing_le (scalars l) (n - 2 - 1)%nat 0%nat 0 s1 Hinc).
      + destruct (scalars l); [discriminate Hhead|]. cbn in Hhead |- *. exact Hhead.
      + replace (S (n - 2 - 1) + 0)%nat with (n - 2)%nat by lia. exact Hs1. }
  pose proof (one_sub_finite_nonzero s1 Hs1ge Hs1lt) as Hd.
  pose proof (Luminance_At_color l (max l)) as HA. cbv zeta in HA.
  rewrite (F64.div_self _ Hmax) in HA. fold i in HA.
  rewrite (HA Hz eq_refl Hlen Hi). clear HA.
  rewrite Ei. replace (n - 1 =? 0)%nat with false by (symmetry; apply Nat.eqb_neq; lia).
  unfold between. replace (n - 1 - 1)%nat with (n - 2)%nat by lia.
  rewrite (nth_lookup_Some _ _ _ _ Hc1), (nth_lookup_Some _ _ _ _ Hc2).
  rewrite (nth_lookup_Some _ _ _ _ Hs1), (nth_lookup_Some _ _ _ _ Hlast').
  rewrite (F64.div_self _ Hd), !mul_one_l. reflexivity.
Qed.

End LuminanceMax.

Lemma Luminance_At_max_witness :
  let l := Luminance.with_max 2 Luminance.BlackBody in
  fst (@Luminance.At approx.lib 2 l)
  = Ret (Some (sRGBA_fix
                 (@cieLAB_sRGB approx.lib
                    {| cieLAB.L := (100 - 84.13253643355525) + 84.13253643355525;
                       cieLAB.A := (0 - (-6.459770854468639)) + (-6.459770854468639);
                       cieLAB.B := (0 - 82.41994470228775) + 82.41994470228775 |}
                    1)), None).
Proof.
  exact (@Luminance_At_max approx.lib (Luminance.with_max 2 Luminance.BlackBody)
           (cieLAB.mk 84.13253643355525 (-6.459770854468639) 82.41994470228775)
           (cieLAB.mk 100 0 0)
           eq_refl eq_refl eq_refl eq_refl eq_refl eq_refl
           ltac:(cbn; lia) eq_refl).
Defined.


(* ------------------------------------------------------------------ *)
(** ** Three colours of a diverging preset *)

Definition DivergingMSH_presets : list DivergingMSH.t :=
  [DivergingMSH.SmoothBlueRed; DivergingMSH.SmoothPurpleOrange;
   DivergingMSH.SmoothGreenPurple; DivergingMSH.SmoothBlueTan;
   DivergingMSH.SmoothGreenRed].

Section PresetPalette3.
Context `{ML : math.Lib}.

(** The conversion MSH -> LAB -> XYZ -> linear RGB -> sRGB, opaque. *)
Definition MSH_sRGB (c : MSH.t) : sRGBA.t := cieLAB_sRGB (MSH_lab c) 1.

(** When Palette(3) returns on one of the five presets, its colours are
    the start colour, the neutral colour MSH{88, 0, 0} and the end
    colour, converted to sRGB: the samples are 0, 0.5 and 1 exactly. *)
Theorem DivergingMSH_presets_Palette_3 (p : DivergingMSH.t) (cs : Palette) :
  In p DivergingMSH_presets ->
  is_number (hueTwist (DivergingMSH.start p) 88) = true ->
  is_number (hueTwist (DivergingMSH.end_ p) 88) = true ->
  fst (DivergingMSH.Palette 3 p) = Ret cs ->
  cs = [Some (MSH_sRGB (DivergingMSH.start p)); Some (MSH_sRGB (MSH.mk 88 0 0));
        Some (MSH_sRGB (DivergingMSH.end_ p))].
Proof.
  intros Hp Hs He H.
  destruct (Palette_samples 3 eq_refl) as [HD _].
  specialize (HD p).
  assert (Hdom : DivergingMSH_domain p = (0, 1)).
  { cbn [In DivergingMSH_presets] in Hp; decompose [or] Hp; subst; try contradiction;
      reflexivity. }
  rewrite Hdom in HD. cbv zeta in HD. rewrite HD in H. clear HD.
  change (samples (Z.to_nat 3) 0 ((1 - 0) / float64_of_int (3 - 1)))
    with [0; 0.5; 1] in H.
  set (p' := DivergingMSH.with_max 1 (DivergingMSH.with_min 0 p)) in *.
  assert (Hp' : DivergingMSH.start p' = DivergingMSH.start p /\ DivergingMSH.end_ p' = DivergingMSH.end_ p /\ DivergingMSH.ConvergeM p' = 88
                /\ DivergingMSH.ConvergePoint p' = 0.5 /\ DivergingMSH.Alpha p' = 1 /\ DivergingMSH.min p' = 0 /\ DivergingMSH.max p' = 1
                /\ is_number (88 - MSH.M (DivergingMSH.start p)) = true
                /\ is_number (88 - MSH.M (DivergingMSH.end_ p)) = true
                /\ (88 - MSH.M (DivergingMSH.end_ p)) + MSH.M (DivergingMSH.end_ p) = 88
                /\ MSH.S (DivergingMSH.end_ p) * 0 = 0).
  { unfold p'. cbn [In DivergingMSH_presets] in Hp; decompose [or] Hp; subst;
      try contradiction; repeat split; reflexivity. }
  destruct Hp' as (Es & Ee & EM & EP & EA & Emin & Emax & Ns & Ne & E88 & ES0).
  assert (H0 : DivergingMSH.At_ p' 0 = (Some (MSH_sRGB (DivergingMSH.start p)), sRGBA_check (MSH_sRGB (DivergingMSH.start p)))).
  { unfold DivergingMSH.At_. rewrite Emin, Emax, EA. change (0 =? 1) with false. cbn iota.
    change ((0 - 0) / 1) with 0.
    rewrite interpolate_zero_eq; rewrite ?EP, ?Es, ?EM; try reflexivity; assumption. }
  assert (H1 : DivergingMSH.At_ p' 0.5 = (Some (MSH_sRGB (MSH.mk 88 0 0)),
                             sRGBA_check (MSH_sRGB (MSH.mk 88 0 0)))).
  { unfold DivergingMSH.At_. rewrite Emin, Emax, EA. change (0 =? 1) with false. cbn iota.
    change ((0.5 - 0) / 1) with 0.5. rewrite <- EP at 1 2.
    rewrite interpolate_at_ConvergePoint_eq by (rewrite EP; reflexivity).
    rewrite Ee, EM, E88, ES0. reflexivity. }
  assert (H2 : DivergingMSH.At_ p' 1 = (Some (MSH_sRGB (DivergingMSH.end_ p)), sRGBA_check (MSH_sRGB (DivergingMSH.end_ p)))).
  { unfold DivergingMSH.At_. rewrite Emin, Emax, EA. change (0 =? 1) with false. cbn iota.
    change ((1 - 0) / 1) with 1.
    rewrite interpolate_one_eq; rewrite ?EP, ?Ee, ?EM; try reflexivity; try assumption.
    change (1 / 0.5 - 1) with 1. rewrite F64.mul_one_r.
    destruct (DivergingMSH.end_ p); reflexivity. }
  cbn [sample_all] in H. rewrite H0, H1, H2 in H.
  destruct (sRGBA_check (MSH_sRGB (DivergingMSH.start p))); [discriminate H|].
  destruct (sRGBA_check (MSH_sRGB (MSH.mk 88 0 0))); [discriminate H|].
  destruct (sRGBA_check (MSH_sRGB (DivergingMSH.end_ p))); [discriminate H|].
  congruence.
Qed.

End PresetPalette3.

(** Three colours of SmoothBlueRed, run with [approx.lib]. *)
Definition SmoothBlueRed_3 : Palette :=
  Eval vm_compute in
    match fst (@DivergingMSH.Palette approx.lib 3 DivergingMSH.SmoothBlueRed) with
    | Ret cs => cs
    | Panics _ => []
    end.

Lemma DivergingMSH_presets_Palette_3_witness :
  SmoothBlueRed_3
  = [Some (@MSH_sRGB approx.lib (MSH.mk 80 1.08 (-1.1)));
     Some (@MSH_sRGB approx.lib (MSH.mk 88 0 0));
     Some (@MSH_sRGB approx.lib (MSH.mk 80 1.08 0.5))].
Proof.
  exact (@DivergingMSH_presets_Palette_3 approx.lib DivergingMSH.SmoothBlueRed
           SmoothBlueRed_3 (or_introl eq_refl) eq_refl eq_refl
           ltac:(vm_compute; reflexivity)).
Defined.


Module Bound.
Local Open Scope Z_scope.

(** No bit has been lost in the shifts so far. *)
Definition exact (r : shr_record) : Prop := shr_r r = false /\ shr_s r = false.

Lemma shr_1_exact (r : shr_record) :
  0 <= shr_m r -> exact r -> Z.even (shr_m r) = true -> exact (shr_1 r).
Proof.
  destruct r as [m rr ss]. unfold exact. cbn [shr_m shr_r shr_s].
  intros Hm [-> ->] He.
  destruct m as [|[p|p|]|p]; cbn in *; try discriminate; try lia; split; reflexivity.
Qed.

Lemma iter_pos_shr_exact (p : positive) :
  forall r : shr_record,
    0 <= shr_m r -> exact r -> (exists k, shr_m r = k * 2 ^ Z.pos p) ->
    exact (SpecFloat.iter_pos shr_1 p r).
Proof.
  induction p as [p IH|p IH|]; intros r Hr Hx [k Hk]; cbn [SpecFloat.iter_pos].
  - rewrite Rounding.pow2_xI in Hk.
    assert (Hk0 : 0 <= k).
    { assert (0 < 2 ^ Z.pos p) by (apply Z.pow_pos_nonneg; lia). nia. }
    assert (H1m : shr_m (shr_1 r) = k * (2 ^ Z.pos p * 2 ^ Z.pos p)).
    { rewrite Rounding.shr_1_m by lia. rewrite Hk.
      replace (k * (2 * (2 ^ Z.pos p * 2 ^ Z.pos p)))
        with (k * (2 ^ Z.pos p * 2 ^ Z.pos p) * 2) by ring.
      apply Z.div_mul. lia. }
    assert (H1x : exact (shr_1 r)).
    { apply shr_1_exact; [lia|exact Hx|]. rewrite Hk.
      replace (k * (2 * (2 ^ Z.pos p * 2 ^ Z.pos p)))
        with (2 * (k * (2 ^ Z.pos p * 2 ^ Z.pos p))) by ring.
      apply Z.even_even. }
    assert (H1p : 0 <= shr_m (shr_1 r)).
    { rewrite H1m. assert (0 < 2 ^ Z.pos p) by (apply Z.pow_pos_nonneg; lia). nia. }
    assert (H2m : shr_m (SpecFloat.iter_pos shr_1 p (shr_1 r)) = k * 2 ^ Z.pos p).
    { rewrite Rounding.iter_pos_shr_m by exact H1p. rewrite H1m.
      replace (k * (2 ^ Z.pos p * 2 ^ Z.pos p)) with (k * 2 ^ Z.pos p * 2 ^ Z.pos p) by ring.
      apply Z.div_mul. apply Z.pow_nonzero; lia. }
    apply IH.
    + rewrite H2m. assert (0 < 2 ^ Z.pos p) by (apply Z.pow_pos_nonneg; lia). nia.
    + apply IH; [exact H1p|exact H1x|]. exists (k * 2 ^ Z.pos p). rewrite H1m. ring.
    + exists k. exact H2m.
  - rewrite Rounding.pow2_xO in Hk.
    assert (Hk0 : 0 <= k).
    { assert (0 < 2 ^ Z.pos p) by (apply Z.pow_pos_nonneg; lia). nia. }
    assert (H2m : shr_m (SpecFloat.iter_pos shr_1 p r) = k * 2 ^ Z.pos p).
    { rewrite Rounding.iter_pos_shr_m by exact Hr. rewrite Hk.
      replace (k * (2 ^ Z.pos p * 2 ^ Z.pos p)) with (k * 2 ^ Z.pos p * 2 ^ Z.pos p) by ring.
      apply Z.div_mul. apply Z.pow_nonzero; lia. }
    apply IH.
    + rewrite H2m. assert (0 < 2 ^ Z.pos p) by (apply Z.pow_pos_nonneg; lia). nia.
    + apply IH; [exact Hr|exact Hx|]. exists (k * 2 ^ Z.pos p). rewrite Hk. ring.
    + exists k. exact H2m.
  - apply shr_1_exact; [exact Hr|exact Hx|]. rewrite Hk.
    change (2 ^ 1) with 2. rewrite Z.mul_comm. apply Z.even_even.
Qed.

(** Rounding to nearest moves a truncated mantissa up by at most one,
    and not at all when nothing was cut off. *)
Lemma round_nearest_even_bounds (m : Z) (l : location) :
  m <= round_nearest_even m l <= m + 1.
Proof.
  unfold round_nearest_even.
  destruct l as [|[]]; try destruct (Z.even m); lia.
Qed.

Lemma loc_of_exact (r : shr_record) : exact r -> loc_of_shr_record r = loc_Exact.
Proof. destruct r as [m rr ss]. intros [H1 H2]. cbn in H1, H2. subst. reflexivity. Qed.

(** The first shift of binary_round_aux on a positive mantissa. *)
Lemma shr_fexp_first (m : positive) (e : Z) :
  let n := fexp prec emax (Z.pos (digits2_pos m) + e) - e in
  0 < n ->
  exists r, shr_fexp prec emax (Z.pos m) e loc_Exact = (r, e + n)
            /\ shr_m r = Z.pos m / 2 ^ n
            /\ ((exists k, Z.pos m = k * 2 ^ n) -> exact r).
Proof.
  intros n Hn. unfold shr_fexp, shr. cbn [Zdigits2]. fold n.
  destruct n as [|p|p] eqn:En; try lia.
  eexists. split; [reflexivity|]. cbn [shr_record_of_loc]. split.
  - rewrite Rounding.iter_pos_shr_m by (cbn; lia). reflexivity.
  - intros Hk. apply iter_pos_shr_exact; [cbn; lia|split; reflexivity|exact Hk].
Qed.

(** The second shift only truncates. *)
Lemma shr_fexp_floor (m e : Z) :
  0 <= m ->
  exists r e', shr_fexp prec emax m e loc_Exact = (r, e')
               /\ 0 <= shr_m r
               /\ e <= e'
               /\ shr_m r * 2 ^ (e' - e) <= m
               /\ (e' = e \/ e' = fexp prec emax (Zdigits2 m + e)).
Proof.
  intros Hm. unfold shr_fexp, shr.
  destruct (fexp prec emax (Zdigits2 m + e) - e) as [|p|p] eqn:En.
  - do 2 eexists. split; [reflexivity|]. cbn [shr_record_of_loc shr_m].
    rewrite Z.sub_diag. change (2 ^ 0) with 1. repeat split; lia.
  - do 2 eexists. split; [reflexivity|]. cbn [shr_record_of_loc].
    rewrite Rounding.iter_pos_shr_m by (cbn; lia). cbn [shr_m].
    replace (e + Z.pos p - e) with (Z.pos p) by lia.
    assert (0 < 2 ^ Z.pos p) by (apply Z.pow_pos_nonneg; lia).
    repeat split; try lia.
    + apply Z.div_pos; lia.
    + rewrite Z.mul_comm. apply Z.mul_div_le. lia.
  - do 2 eexists. split; [reflexivity|]. cbn [shr_record_of_loc shr_m].
    rewrite Z.sub_diag. change (2 ^ 0) with 1. repeat split; lia.
Qed.

Lemma bounded_spec (m : positive) (e : Z) :
  bounded prec emax m e = true ->
  fexp prec emax (Z.pos (digits2_pos m) + e) = e /\ e <= 971
  /\ -1074 <= e /\ Z.pos (digits2_pos m) <= 53
  /\ (e = -1074 \/ Z.pos (digits2_pos m) = 53).
Proof.
  unfold bounded, canonical_mantissa. intros H.
  apply andb_true_iff in H as [H1 H2].
  apply Z.eqb_eq in H1. apply Z.leb_le in H2. change (emax - prec) with 971 in H2.
  pose proof H1 as H1'. rewrite Rounding.fexp_eq in H1'. lia.
Qed.

Lemma pow2_split (a b K : Z) :
  0 <= a + K -> a <= b -> 2 ^ (b + K) = 2 ^ (b - a) * 2 ^ (a + K).
Proof.
  intros H1 H2. rewrite <- Z.pow_add_r by lia. f_equal. lia.
Qed.

(** A product or sum that does not exceed a representable number B is
    not rounded above B: B lies on the grid the result is rounded to. *)
Lemma round_aux_le (m mB : positive) (e eB K : Z) :
  0 <= e + K -> 0 <= eB + K -> e <= 971 ->
  bounded prec emax mB eB = true ->
  Z.pos m * 2 ^ (e + K) <= Z.pos mB * 2 ^ (eB + K) ->
  match binary_round_aux prec emax false (Z.pos m) e loc_Exact with
  | S754_zero _ => True
  | S754_finite s m3 e3 =>
    s = false /\ e <= e3 /\ Z.pos m3 * 2 ^ (e3 + K) <= Z.pos mB * 2 ^ (eB + K)
  | _ => False
  end.
Proof.
  intros HeK HeBK He HB Hle.
  destruct (bounded_spec mB eB HB) as (HcB & HeB & HeB' & HdB & _).
  pose proof (Rounding.digits2_pos_bounds m) as [Dlo Dhi].
  pose proof (Rounding.digits2_pos_bounds mB) as [DBlo DBhi].
  rewrite Rounding.fexp_eq in HcB.
  set (d := Z.pos (digits2_pos m)) in *. set (dB := Z.pos (digits2_pos mB)) in *.
  set (VB := Z.pos mB * 2 ^ (eB + K)) in *.
  assert (Hd1 : 1 <= d) by (unfold d; lia).
  assert (HdB1 : 1 <= dB) by (unfold dB; lia).
  assert (PeK : 0 < 2 ^ (e + K)) by (apply Z.pow_pos_nonneg; lia).
  assert (PeBK : 0 < 2 ^ (eB + K)) by (apply Z.pow_pos_nonneg; lia).
  assert (HVB : VB < 2 ^ (dB + eB + K)).
  { unfold VB. replace (dB + eB + K) with (dB + (eB + K)) by lia.
    rewrite (Z.pow_add_r 2 dB (eB + K)) by lia.
    apply Z.mul_lt_mono_pos_r; [exact PeBK|exact DBhi]. }
  assert (Hmag : d + e <= dB + eB).
  { assert (H : 2 ^ (d - 1 + (e + K)) < 2 ^ (dB + eB + K)).
    { eapply Z.le_lt_trans; [|exact HVB]. eapply Z.le_trans; [|exact Hle].
      rewrite (Z.pow_add_r 2 (d - 1) (e + K)) by lia.
      apply Z.mul_le_mono_nonneg_r; lia. }
    destruct (Z_lt_le_dec (d - 1 + (e + K)) (dB + eB + K)) as [Hlt|Hge]; [lia|].
    apply (Z.pow_le_mono_r 2) in Hge; lia. }
  set (f := fexp prec emax (d + e)).
  assert (Hf : f = Z.max (d + e - 53) (-1074)) by reflexivity.
  assert (HfB : f <= eB) by lia.
  destruct (Z_le_gt_dec (f - e) 0) as [Hn|Hn].
  - rewrite Rounding.binary_round_aux_noop by (fold d f; lia).
    repeat split; [lia|exact Hle].
  - assert (Hn' : 0 < f - e) by lia.
    destruct (shr_fexp_first m e Hn') as (r1 & E1 & Hq & Hx).
    fold d f in E1, Hq, Hx.
    unfold binary_round_aux. rewrite E1.
    replace (e + (f - e)) with f by lia.
    set (n := f - e) in *.
    set (q := shr_m r1) in *.
    assert (Pn : 0 < 2 ^ n) by (apply Z.pow_pos_nonneg; lia).
    assert (PfK : 0 < 2 ^ (f + K)) by (apply Z.pow_pos_nonneg; lia).
    set (MB := Z.pos mB * 2 ^ (eB - f)).
    assert (HMB : VB = MB * 2 ^ (f + K)).
    { unfold VB, MB. rewrite (pow2_split f eB K) by lia. ring. }
    assert (HfK : 2 ^ (f + K) = 2 ^ n * 2 ^ (e + K)).
    { unfold n. apply pow2_split; lia. }
    assert (HmMB : Z.pos m <= MB * 2 ^ n).
    { apply (Z.mul_le_mono_pos_r _ _ (2 ^ (e + K))); [exact PeK|].
      rewrite <- Z.mul_assoc, <- HfK, <- HMB. exact Hle. }
    assert (Hq0 : 0 <= q) by (rewrite Hq; apply Z.div_pos; lia).
    assert (HqMB : q <= MB).
    { rewrite Hq. apply Z.div_le_upper_bound; [exact Pn|]. rewrite Z.mul_comm. exact HmMB. }
    set (m2 := round_nearest_even q (loc_of_shr_record r1)).
    assert (Hm2 : 0 <= m2 <= MB).
    { pose proof (round_nearest_even_bounds q (loc_of_shr_record r1)) as Hb.
      fold m2 in Hb. split; [lia|].
      destruct (Z.eq_dec q MB) as [Eq|Ne]; [|lia].
      assert (Hex : exact r1).
      { apply Hx. exists MB.
        pose proof (Z.mul_div_le (Z.pos m) (2 ^ n) Pn) as Hmd.
        rewrite <- Hq, Eq in Hmd. lia. }
      unfold m2. rewrite (loc_of_exact _ Hex). cbn [round_nearest_even]. lia. }
    destruct (shr_fexp_floor m2 f (proj1 Hm2)) as (r2 & e2 & E2 & H2n & H2e & H2v & H2c).
    rewrite E2.
    assert (Hval : shr_m r2 * 2 ^ (e2 + K) <= VB).
    { rewrite HMB, (pow2_split f e2 K) by lia. rewrite Z.mul_assoc.
      apply Z.mul_le_mono_nonneg_r; lia. }
    destruct (shr_m r2) as [|m3|m3] eqn:Em3; [exact I| |lia].
    destruct (e2 <=? emax - prec) eqn:El.
    + repeat split; [lia|exact Hval].
    + exfalso. apply Z.leb_gt in El. change (emax - prec) with 971 in El.
      destruct H2c as [->| ->]; [lia|].
      rewrite Rounding.fexp_eq in El.
      destruct m2 as [|pp|pp]; [cbn [Zdigits2] in El; lia| |lia].
      cbn [Zdigits2] in El.
      pose proof (Rounding.digits2_pos_bounds pp) as [Plo _].
      set (d2 := Z.pos (digits2_pos pp)) in *.
      assert (H : 2 ^ (d2 - 1 + (f + K)) < 2 ^ (dB + eB + K)).
      { eapply Z.le_lt_trans; [|exact HVB]. rewrite HMB.
        rewrite (Z.pow_add_r 2 (d2 - 1) (f + K)) by (unfold d2; lia).
        apply Z.mul_le_mono_nonneg_r; lia. }
      destruct (Z_lt_le_dec (d2 - 1 + (f + K)) (dB + eB + K)) as [Hlt|Hge]; [lia|].
      apply (Z.pow_le_mono_r 2) in Hge; lia.
Qed.

(** On valid numbers the comparison of (exponent, mantissa) pairs is
    the comparison of the values mantissa * 2^exponent. *)
Lemma value_lt_of_exponent (m1 m2 : positive) (e1 e2 K : Z) :
  bounded prec emax m1 e1 = true -> bounded prec emax m2 e2 = true ->
  0 <= e1 + K -> e1 < e2 ->
  Z.pos m1 * 2 ^ (e1 + K) < Z.pos m2 * 2 ^ (e2 + K).
Proof.
  intros H1 H2 HK Hlt.
  destruct (bounded_spec m1 e1 H1) as (_ & _ & Hlo1 & Hd1 & _).
  destruct (bounded_spec m2 e2 H2) as (_ & _ & _ & _ & Hn2).
  pose proof (Rounding.digits2_pos_bounds m1) as [_ B1].
  pose proof (Rounding.digits2_pos_bounds m2) as [B2 _].
  destruct Hn2 as [Hn2|Hn2]; [lia|]. rewrite Hn2 in B2.
  change (2 ^ (53 - 1)) with (2 ^ 52) in B2.
  assert (B1' : Z.pos m1 < 2 * 2 ^ 52).
  { eapply Z.lt_le_trans; [exact B1|]. change (2 * 2 ^ 52) with (2 ^ 53).
    apply Z.pow_le_mono_r; lia. }
  set (T := 2 ^ 52) in *. assert (HT : 0 < T) by reflexivity. clearbody T.
  rewrite (pow2_split e1 e2 K) by lia.
  set (P := 2 ^ (e1 + K)). assert (HP : 0 < P) by (apply Z.pow_pos_nonneg; lia).
  assert (HQ : 2 <= 2 ^ (e2 - e1)).
  { change 2 with (2 ^ 1) at 1. apply Z.pow_le_mono_r; lia. }
  set (Q := 2 ^ (e2 - e1)) in *. clearbody P Q.
  assert (Z.pos m1 * P < 2 * T * P) by (apply Z.mul_lt_mono_pos_r; assumption).
  assert (2 * T * P <= Z.pos m2 * (Q * P)); [|lia].
  rewrite Z.mul_assoc. apply Z.mul_le_mono_nonneg_r; [lia|].
  nia.
Qed.

Lemma SFleb_value (m1 m2 : positive) (e1 e2 K : Z) :
  bounded prec emax m1 e1 = true -> bounded prec emax m2 e2 = true ->
  0 <= e1 + K -> 0 <= e2 + K ->
  SFleb (S754_finite false m1 e1) (S754_finite false m2 e2) = true
  <-> Z.pos m1 * 2 ^ (e1 + K) <= Z.pos m2 * 2 ^ (e2 + K).
Proof.
  intros H1 H2 HK1 HK2. unfold SFleb. cbn [SFcompare].
  change (Pos.compare_cont Eq m1 m2) with (Pos.compare m1 m2).
  destruct (Z.compare_spec e1 e2) as [E|E|E].
  - subst e2. assert (HP : 0 < 2 ^ (e1 + K)) by (apply Z.pow_pos_nonneg; lia).
    destruct (Pos.compare_spec m1 m2) as [Em|Em|Em].
    + subst. split; [lia|reflexivity].
    + split; [intros _|reflexivity]. apply Z.mul_le_mono_nonneg_r; lia.
    + split; [discriminate|]. intros H. exfalso.
      apply Z.mul_le_mono_pos_r in H; [lia|exact HP].
  - pose proof (value_lt_of_exponent m1 m2 e1 e2 K H1 H2 HK1 E). split; [lia|reflexivity].
  - pose proof (value_lt_of_exponent m2 m1 e2 e1 K H2 H1 HK2 E). split; [discriminate|lia].
Qed.

End Bound.

(** The exact product of X and Y does not exceed B (all three positive
    numbers). *)
Definition product_le (X Y B : float) : bool :=
  match Prim2SF X, Prim2SF Y, Prim2SF B with
  | S754_finite false mX eX, S754_finite false mY eY, S754_finite false mB eB =>
    (Z.pos mX * Z.pos mY * 2 ^ (eX + eY + 2148) <=? Z.pos mB * 2 ^ (eB + 2148))%Z
  | _, _, _ => false
  end.

Lemma nonneg_le_finite (x X : float) (mX : positive) (eX : Z) :
  Prim2SF X = S754_finite false mX eX ->
  (0 <=? x) = true -> (x <=? X) = true ->
  (exists s, Prim2SF x = S754_zero s)
  \/ (exists m e, Prim2SF x = S754_finite false m e).
Proof.
  rewrite !FloatAxioms.leb_spec. intros ->. change (Prim2SF 0) with (S754_zero false).
  destruct (Prim2SF x) as [s|[]| |[] m e]; intros H0 H1;
    try discriminate H0; try discriminate H1; eauto.
Qed.

(** Rounded multiplication does not leave a representable bound: for
    0 <= x <= X <= 1 and 0 <= y <= Y with X * Y <= B exactly, the
    product x * y as computed lies within [0, B]. *)
Lemma mul_le_bound (x y X Y B : float) :
  (0 <=? x) = true -> (x <=? X) = true -> (X <=? 1) = true ->
  (0 <=? y) = true -> (y <=? Y) = true ->
  product_le X Y B = true ->
  (0 <=? x * y) = true /\ (x * y <=? B) = true.
Proof.
  intros Hx0 HxX HX1 Hy0 HyY HP.
  pose proof (Prim2SF_valid x) as Vx. pose proof (Prim2SF_valid y) as Vy.
  pose proof (Prim2SF_valid X) as VX. pose proof (Prim2SF_valid Y) as VY.
  pose proof (Prim2SF_valid B) as VB. pose proof (Prim2SF_valid (x * y)) as Vxy.
  pose proof (leb_trans _ _ _ HxX HX1) as Hx1.
  unfold product_le in HP.
  destruct (Prim2SF X) as [| | |[] mX eX] eqn:EX; try discriminate HP.
  destruct (Prim2SF Y) as [| | |[] mY eY] eqn:EY; try discriminate HP.
  destruct (Prim2SF B) as [| | |[] mB eB] eqn:EB; try discriminate HP.
  apply Z.leb_le in HP.
  destruct (nonneg_le_finite x X mX eX EX Hx0 HxX) as [[sx Ex]|(mx & ex & Ex)];
    destruct (nonneg_le_finite y Y mY eY EY Hy0 HyY) as [[sy Ey]|(my & ey & Ey)];
    rewrite !FloatAxioms.leb_spec, FloatAxioms.mul_spec, Ex, Ey, EB;
    change (Prim2SF 0) with (S754_zero false);
    try (split; reflexivity).
  revert Hx1 HxX HyY Vxy.
  rewrite !FloatAxioms.leb_spec, FloatAxioms.mul_spec, Ex, Ey, EX, EY.
  change (Prim2SF 1) with (S754_finite false 4503599627370496 (-52)).
  cbn [valid_binary] in Vx, Vy, VX, VY, VB. rewrite Ex in Vx. rewrite Ey in Vy.
  cbn [valid_binary] in Vx, Vy.
  destruct (Bound.bounded_spec _ _ Vx) as (_ & _ & Hex & _).
  destruct (Bound.bounded_spec _ _ Vy) as (_ & Hey' & Hey & _).
  destruct (Bound.bounded_spec _ _ VX) as (_ & _ & HeX & _).
  destruct (Bound.bounded_spec _ _ VY) as (_ & _ & HeY & _).
  destruct (Bound.bounded_spec _ _ VB) as (_ & _ & HeB & _).
  intros Hx1 HxX HyY.
  assert (Hex1 : (ex <= -52)%Z).
  { revert Hx1. unfold SFleb. cbn [SFcompare].
    destruct (Z.compare_spec ex (-52)) as [E|E|E]; [lia|lia|discriminate]. }
  apply (Bound.SFleb_value _ _ _ _ 1074 Vx VX) in HxX; [|lia|lia].
  apply (Bound.SFleb_value _ _ _ _ 1074 Vy VY) in HyY; [|lia|lia].
  unfold SF64mul, SFmul. cbn [xorb].
  assert (Hle : (Z.pos (mx * my) * 2 ^ (ex + ey + 2148)
                 <= Z.pos mB * 2 ^ (eB + 2148))%Z).
  { eapply Z.le_trans; [|exact HP].
    assert (E1 : (Z.pos (mx * my) * 2 ^ (ex + ey + 2148)
                  = (Z.pos mx * 2 ^ (ex + 1074)) * (Z.pos my * 2 ^ (ey + 1074)))%Z).
    { replace (ex + ey + 2148)%Z with ((ex + 1074) + (ey + 1074))%Z by lia.
      rewrite (Z.pow_add_r 2 (ex + 1074) (ey + 1074)) by lia.
      rewrite Pos2Z.inj_mul. ring. }
    assert (E2 : (Z.pos mX * Z.pos mY * 2 ^ (eX + eY + 2148)
                  = (Z.pos mX * 2 ^ (eX + 1074)) * (Z.pos mY * 2 ^ (eY + 1074)))%Z).
    { replace (eX + eY + 2148)%Z with ((eX + 1074) + (eY + 1074))%Z by lia.
      rewrite (Z.pow_add_r 2 (eX + 1074) (eY + 1074)) by lia. ring. }
    rewrite E1, E2.
    assert (0 < 2 ^ (ex + 1074))%Z by (apply Z.pow_pos_nonneg; lia).
    assert (0 < 2 ^ (ey + 1074))%Z by (apply Z.pow_pos_nonneg; lia).
    apply Z.mul_le_mono_nonneg;
      [apply Z.mul_nonneg_nonneg; lia|exact HxX
      |apply Z.mul_nonneg_nonneg; lia|exact HyY]. }
  pose proof (Bound.round_aux_le (mx * my) mB (ex + ey) eB 2148
                ltac:(lia) ltac:(lia) ltac:(lia) VB Hle) as Hr.
  destruct (binary_round_aux prec emax false (Z.pos (mx * my)) (ex + ey) loc_Exact)
    as [s3| | |s3 m3 e3]; try contradiction; intros Vxy.
  - split; reflexivity.
  - destruct Hr as (-> & He3 & Hv). split; [reflexivity|].
    apply (Bound.SFleb_value _ _ _ _ 2148 Vxy VB); [lia|lia|exact Hv].
Qed.

(** [uint32(y)] of a number within [0, 65535] is defined, and within
    [0, 65535]. *)
Lemma uint32_of_float64_16bit (y : float) :
  (0 <=? y) = true -> (y <=? 65535) = true ->
  exists n, uint32_of_float64 y = Some n /\ (0 <= n <= 65535)%Z.
Proof.
  intros H0 H1. pose proof (Prim2SF_valid y) as Vy.
  assert (E65 : Prim2SF 65535 = S754_finite false 9007061815787520 (-37)) by reflexivity.
  assert (V65 : bounded prec emax 9007061815787520 (-37) = true) by reflexivity.
  assert (Hm65 : (Z.pos 9007061815787520 * 2 ^ (-37 + 1074) = 65535 * 2 ^ 1074)%Z)
    by reflexivity.
  destruct (nonneg_le_finite y 65535 _ _ E65 H0 H1) as [[s Ey]|(m & e & Ey)].
  - exists 0%Z. unfold uint32_of_float64, float64_trunc. rewrite Ey.
    split; [reflexivity|lia].
  - rewrite Ey in Vy. cbn [valid_binary] in Vy.
    destruct (Bound.bounded_spec _ _ Vy) as (_ & _ & He & _).
    rewrite FloatAxioms.leb_spec, Ey, E65 in H1.
    apply (Bound.SFleb_value _ _ _ _ 1074 Vy V65) in H1; [|lia|lia].
    rewrite Hm65 in H1. clear Hm65 V65 E65.
    assert (Hn : (0 <= Z.shiftl (Z.pos m) e <= 65535)%Z).
    { destruct (Z_le_gt_dec 0 e) as [Hpos|Hneg].
      - rewrite Z.shiftl_mul_pow2 by lia.
        replace (e + 1074)%Z with (1074 + e)%Z in H1 by lia.
        rewrite (Z.pow_add_r 2 1074 e) in H1 by lia.
        assert (HC : (0 < 2 ^ 1074)%Z) by (apply Z.pow_pos_nonneg; lia).
        assert (HE : (0 < 2 ^ e)%Z) by (apply Z.pow_pos_nonneg; lia).
        set (C := (2 ^ 1074)%Z) in *. clearbody C.
        split; [apply Z.mul_nonneg_nonneg; lia|].
        apply (Z.mul_le_mono_pos_r _ _ C HC).
        replace (Z.pos m * 2 ^ e * C)%Z with (Z.pos m * (C * 2 ^ e))%Z by ring.
        exact H1.
      - rewrite Z.shiftl_div_pow2 by lia.
        assert (HE : (0 < 2 ^ (- e))%Z) by (apply Z.pow_pos_nonneg; lia).
        assert (HD : (0 < 2 ^ (e + 1074))%Z) by (apply Z.pow_pos_nonneg; lia).
        assert (HS : (2 ^ 1074 = 2 ^ (- e) * 2 ^ (e + 1074))%Z).
        { rewrite <- Z.pow_add_r by lia. f_equal. lia. }
        rewrite HS in H1.
        set (D := (2 ^ (e + 1074))%Z) in *. set (E := (2 ^ (- e))%Z) in *.
        clearbody D E.
        split; [apply Z.div_pos; lia|].
        apply Z.div_le_upper_bound; [exact HE|].
        apply (Z.mul_le_mono_pos_r _ _ D HD).
        replace (E * 65535 * D)%Z with (65535 * (E * D))%Z by ring. exact H1. }
    exists (Z.shiftl (Z.pos m) e). unfold uint32_of_float64, float64_trunc. rewrite Ey.
    split; [|exact Hn].
    replace ((0 <=? Z.shiftl (Z.pos m) e) && (Z.shiftl (Z.pos m) e <? 2 ^ 32))%Z
      with true; [reflexivity|].
    symmetry. apply andb_true_iff. split; [apply Z.leb_le; lia|].
    apply Z.ltb_lt. change (2 ^ 32)%Z with 4294967296%Z. lia.
Qed.


(** ** The gamma functions *)

(** Rounding keeps the sign it is given: the result is a zero, a finite
    number or an infinity of that sign. *)
Lemma binary_round_aux_sign (s : bool) (m : positive) (e : Z) :
  match binary_round_aux prec emax s (Z.pos m) e loc_Exact with
  | S754_zero s' | S754_infinity s' | S754_finite s' _ _ => s' = s
  | S754_nan => False
  end.
Proof.
  unfold binary_round_aux.
  destruct (Bound.shr_fexp_floor (Z.pos m) e ltac:(lia))
    as (r1 & e1 & E1 & H1 & _).
  rewrite E1.
  pose proof (Bound.round_nearest_even_bounds (shr_m r1) (loc_of_shr_record r1)) as Hb.
  destruct (Bound.shr_fexp_floor (round_nearest_even (shr_m r1) (loc_of_shr_record r1)) e1
              ltac:(lia)) as (r2 & e2 & E2 & H2 & _).
  rewrite E2. destruct (shr_m r2) as [|m3|m3]; [reflexivity| |lia].
  destruct (e2 <=? emax - prec)%Z; reflexivity.
Qed.

(** A positive finite number times a number that is not above zero is
    not above zero. *)
Lemma mul_pos_nonpos (c v : float) :
  F64.is_finite_nonzero c = true ->
  (0 <? c) = true -> (v <=? 0) = true -> (c * v <=? 0) = true.
Proof.
  unfold F64.is_finite_nonzero.
  rewrite FloatAxioms.ltb_spec, !FloatAxioms.leb_spec, FloatAxioms.mul_spec.
  change (Prim2SF 0) with (S754_zero false).
  destruct (Prim2SF c) as [[]|[]| |[] mc ec], (Prim2SF v) as [[]|[]| |[] mv ev];
    intros Hf Hc Hv; try discriminate Hf; try discriminate Hc; try discriminate Hv;
    try reflexivity.
  unfold SF64mul, SFmul. cbn [xorb].
  pose proof (binary_round_aux_sign true (mc * mv) (ec + ev)) as Hs.
  destruct (binary_round_aux prec emax true (Z.pos (mc * mv)) (ec + ev) loc_Exact)
    as [s'|s'| |s' m' e']; try contradiction; subst s'; reflexivity.
Qed.

(** A float is NaN, or at least zero, or below zero. *)
Lemma float_cases (v : float) :
  is_nan v = true \/ (0 <=? v) = true \/ (v <? 0) = true.
Proof.
  destruct (is_nan v) eqn:En; [left; reflexivity|right].
  destruct (0 <=? v) eqn:E; [left; reflexivity|right].
  apply not_leb_ltb; [reflexivity|exact En|exact E].
Qed.

Lemma leb_not_gtb (x y : float) : (x <=? y) = true -> (x >? y) = false.
Proof.
  rewrite FloatAxioms.ltb_spec, FloatAxioms.leb_spec. unfold SFltb, SFleb.
  rewrite (SFcompare_swap (Prim2SF x) (Prim2SF y)).
  destruct (SFcompare (Prim2SF x) (Prim2SF y)) as [[]|]; cbn; congruence.
Qed.

Section Gamma.
Context `{ML : math.Lib}.

(** convert.go, linearToS and sToLinear: the two gamma functions
    switch branches consistently from linear RGB to sRGB.  When
    linearToS takes its linear branch (v not above 0.0031308, NaN
    included) its result 12.92 * v is not above 0.04045, so sToLinear
    takes its linear branch on it and math.Pow is not called. *)
Theorem gamma_linear_branch (v : float) :
  (v >? 0.0031308) = false ->
  linearToS v = 12.92 * v
  /\ (linearToS v >? 0.04045) = false
  /\ sToLinear (linearToS v) = 12.92 * v / 12.92.
Proof.
  intros Hv.
  assert (E : linearToS v = 12.92 * v) by (unfold linearToS; rewrite Hv; reflexivity).
  assert (Hlin : (12.92 * v >? 0.04045) = false).
  { destruct (float_cases v) as [Hn|[H0|Hneg]].
    - apply F64.ltb_nan_r, F64.mul_nan_r, Hn.
    - rewrite mul_comm. apply leb_not_gtb.
      apply (mul_le_bound v 12.92 0.0031308 12.92 0.04045); try reflexivity;
        [exact H0|].
      apply not_gtb_leb; [|reflexivity|exact Hv].
      destruct (is_nan v) eqn:En; [|reflexivity].
      rewrite (F64.leb_nan_r _ _ En) in H0. discriminate.
    - apply leb_not_gtb. apply (leb_trans _ 0); [|reflexivity].
      apply mul_pos_nonpos; [reflexivity|reflexivity|apply ltb_leb; exact Hneg]. }
  split; [exact E|]. rewrite E. split; [exact Hlin|].
  unfold sToLinear. rewrite Hlin. reflexivity.
Qed.

End Gamma.

Lemma gamma_linear_branch_witness :
  @linearToS approx.lib 0.001 = 12.92 * 0.001
  /\ (@linearToS approx.lib 0.001 >? 0.04045) = false
  /\ @sToLinear approx.lib (@linearToS approx.lib 0.001) = 12.92 * 0.001 / 12.92.
Proof. exact (@gamma_linear_branch approx.lib 0.001 eq_refl). Defined.

(** ** Rounding to nearest even is monotone *)

Module Nearest.
Local Open Scope Z_scope.

(** Some bit below position [k] is set. *)
Definition low_bits (m k : Z) : bool := negb (m mod 2 ^ k =? 0).

Lemma bit_spec (m a : Z) :
  0 <= a -> (m / 2 ^ a) mod 2 = Z.b2z (Z.testbit m a).
Proof. intros Ha. symmetry. apply Z.testbit_spec'. exact Ha. Qed.

Lemma mod_split (m a : Z) :
  0 <= m -> 0 <= a ->
  m mod 2 ^ (a + 1) = m mod 2 ^ a + 2 ^ a * Z.b2z (Z.testbit m a).
Proof.
  intros Hm Ha. rewrite Z.pow_add_r by lia. change (2 ^ 1) with 2.
  assert (0 < 2 ^ a) by (apply Z.pow_pos_nonneg; lia).
  rewrite Z.rem_mul_r by lia. rewrite bit_spec by lia. reflexivity.
Qed.

Lemma low_bits_split (m a k : Z) :
  0 <= m -> 0 <= a -> 0 <= k ->
  low_bits m (a + 1 + k)
  = low_bits (m / 2 ^ (a + 1)) k || Z.testbit m a || low_bits m a.
Proof.
  intros Hm Ha Hk. unfold low_bits.
  assert (Pa : 0 < 2 ^ a) by (apply Z.pow_pos_nonneg; lia).
  assert (Pa1 : 0 < 2 ^ (a + 1)) by (apply Z.pow_pos_nonneg; lia).
  assert (Pk : 0 < 2 ^ k) by (apply Z.pow_pos_nonneg; lia).
  rewrite (Z.pow_add_r 2 (a + 1) k) by lia.
  rewrite Z.rem_mul_r by lia. rewrite mod_split by lia.
  pose proof (Z.mod_pos_bound m (2 ^ a) Pa) as HL.
  pose proof (Z.mod_pos_bound (m / 2 ^ (a + 1)) (2 ^ k) Pk) as HQ.
  set (L := m mod 2 ^ a) in *. set (Q := (m / 2 ^ (a + 1)) mod 2 ^ k) in *.
  set (A := 2 ^ a) in *. set (A1 := 2 ^ (a + 1)) in *.
  destruct (Z.testbit m a); cbn [Z.b2z].
  - rewrite orb_true_r. cbn [orb]. apply negb_true_iff, Z.eqb_neq. nia.
  - rewrite orb_false_r, Z.mul_0_r, Z.add_0_r.
    destruct (Z.eqb_spec Q 0) as [EQ|NQ], (Z.eqb_spec L 0) as [EL|NL]; cbn [negb orb].
    + apply negb_false_iff, Z.eqb_eq. rewrite EQ, EL. lia.
    + apply negb_true_iff, Z.eqb_neq. rewrite EQ. lia.
    + apply negb_true_iff, Z.eqb_neq. nia.
    + apply negb_true_iff, Z.eqb_neq. nia.
Qed.

(** The round and sticky bits after one shift and after [p] shifts. *)
Lemma shr_1_bits (r : shr_record) :
  0 <= shr_m r ->
  shr_r (shr_1 r) = Z.testbit (shr_m r) 0
  /\ shr_s (shr_1 r) = shr_r r || shr_s r.
Proof.
  destruct r as [m rr ss]. cbn [shr_m shr_r shr_s]. intros Hm.
  destruct m as [|[p|p|]|p]; cbn; try lia; split; reflexivity.
Qed.

Lemma iter_pos_shr_bits (p : positive) :
  forall r : shr_record,
    0 <= shr_m r ->
    shr_r (SpecFloat.iter_pos shr_1 p r) = Z.testbit (shr_m r) (Z.pos p - 1)
    /\ shr_s (SpecFloat.iter_pos shr_1 p r)
       = low_bits (shr_m r) (Z.pos p - 1) || shr_r r || shr_s r.
Proof.
  induction p as [p IH|p IH|]; intros r Hr; cbn [SpecFloat.iter_pos].
  - set (r0 := shr_1 r). set (r1 := SpecFloat.iter_pos shr_1 p r0).
    destruct (shr_1_bits r Hr) as [B0r B0s]. fold r0 in B0r, B0s.
    assert (M0 : shr_m r0 = shr_m r / 2) by (apply Rounding.shr_1_m; exact Hr).
    assert (H0 : 0 <= shr_m r0) by (rewrite M0; apply Z.div_pos; lia).
    assert (M1 : shr_m r1 = shr_m r0 / 2 ^ Z.pos p)
      by (apply Rounding.iter_pos_shr_m; exact H0).
    assert (H1 : 0 <= shr_m r1) by (rewrite M1; apply Z.div_pos; lia).
    destruct (IH r0 H0) as [B1r B1s]. fold r1 in B1r, B1s.
    destruct (IH r1 H1) as [B2r B2s].
    assert (M1' : shr_m r1 = shr_m r / 2 ^ (Z.pos p + 1)).
    { rewrite M1, M0. rewrite Z.div_div by lia.
      rewrite Z.pow_add_r by lia. f_equal. change (2 ^ 1) with 2. lia. }
    assert (M0' : shr_m r0 = shr_m r / 2 ^ (0 + 1)) by exact M0.
    split.
    + rewrite B2r, M1'. rewrite Z.div_pow2_bits by lia. f_equal. lia.
    + rewrite B2s, B1r, B1s, B0r, B0s.
      replace (Z.pos p~1 - 1) with (Z.pos p + 1 + (Z.pos p - 1)) by lia.
      rewrite (low_bits_split (shr_m r) (Z.pos p) (Z.pos p - 1)) by lia.
      rewrite <- M1'.
      assert (Eb : Z.testbit (shr_m r0) (Z.pos p - 1) = Z.testbit (shr_m r) (Z.pos p)).
      { rewrite M0'. rewrite Z.div_pow2_bits by lia. f_equal. lia. }
      rewrite Eb.
      replace (low_bits (shr_m r) (Z.pos p))
        with (low_bits (shr_m r0) (Z.pos p - 1) || Z.testbit (shr_m r) 0).
      * destruct (low_bits (shr_m r1) (Z.pos p - 1)), (Z.testbit (shr_m r) (Z.pos p)),
          (low_bits (shr_m r0) (Z.pos p - 1)), (Z.testbit (shr_m r) 0),
          (shr_r r), (shr_s r); reflexivity.
      * replace (Z.pos p) with (0 + 1 + (Z.pos p - 1)) at 2 by lia.
        rewrite (low_bits_split (shr_m r) 0 (Z.pos p - 1)) by lia.
        rewrite <- M0'. unfold low_bits at 3. change (2 ^ 0) with 1.
        rewrite Z.mod_1_r. cbn [Z.eqb negb]. rewrite orb_false_r. reflexivity.
  - set (r1 := SpecFloat.iter_pos shr_1 p r).
    assert (M1 : shr_m r1 = shr_m r / 2 ^ Z.pos p)
      by (apply Rounding.iter_pos_shr_m; exact Hr).
    assert (H1 : 0 <= shr_m r1) by (rewrite M1; apply Z.div_pos; lia).
    destruct (IH r Hr) as [B1r B1s]. fold r1 in B1r, B1s.
    destruct (IH r1 H1) as [B2r B2s].
    split.
    + rewrite B2r, M1. rewrite Z.div_pow2_bits by lia. f_equal. lia.
    + rewrite B2s, B1r, B1s.
      replace (Z.pos p~0 - 1) with (Z.pos p - 1 + 1 + (Z.pos p - 1)) by lia.
      rewrite (low_bits_split (shr_m r) (Z.pos p - 1) (Z.pos p - 1)) by lia.
      replace (Z.pos p - 1 + 1) with (Z.pos p) by lia. rewrite <- M1.
      destruct (low_bits (shr_m r1) (Z.pos p - 1)), (Z.testbit (shr_m r) (Z.pos p - 1)),
        (low_bits (shr_m r) (Z.pos p - 1)), (shr_r r), (shr_s r); reflexivity.
  - destruct (shr_1_bits r Hr) as [Br Bs]. split; [exact Br|].
    rewrite Bs. unfold low_bits. change (2 ^ (1 - 1)) with 1.
    rewrite Z.mod_1_r. reflexivity.
Qed.

(** The first shift of binary_round_aux and the rounding decision it
    leads to: the truncated mantissa q is kept exactly when the part cut
    off is below one half, or is one half and q is even. *)
Lemma first_shift_round (m : positive) (e : Z) :
  let n := fexp prec emax (Z.pos (digits2_pos m) + e) - e in
  0 < n ->
  let q := Z.pos m / 2 ^ n in
  let rem := Z.pos m mod 2 ^ n in
  exists r, shr_fexp prec emax (Z.pos m) e loc_Exact = (r, e + n)
            /\ shr_m r = q
            /\ (round_nearest_even q (loc_of_shr_record r) = q
                <-> 2 * rem < 2 ^ n \/ (2 * rem = 2 ^ n /\ Z.even q = true))
            /\ q <= round_nearest_even q (loc_of_shr_record r) <= q + 1.
Proof.
  intros n Hn q rem. unfold shr_fexp, shr. cbn [Zdigits2]. fold n.
  destruct n as [|p|p] eqn:En; try lia.
  eexists. split; [reflexivity|]. cbn [shr_record_of_loc].
  set (r0 := {| shr_m := Z.pos m; shr_r := false; shr_s := false |}).
  assert (H0 : 0 <= shr_m r0) by (cbn; lia).
  pose proof (Rounding.iter_pos_shr_m p r0 H0) as Hm.
  destruct (iter_pos_shr_bits p r0 H0) as [Hr Hs].
  cbn [r0 shr_m shr_r shr_s] in Hm, Hr, Hs. rewrite !orb_false_r in Hs.
  split; [exact Hm|].
  split; [|apply Bound.round_nearest_even_bounds].
  assert (Hrem : rem = Z.pos m mod 2 ^ (Z.pos p - 1)
                       + 2 ^ (Z.pos p - 1) * Z.b2z (Z.testbit (Z.pos m) (Z.pos p - 1))).
  { unfold rem. replace (Z.pos p) with (Z.pos p - 1 + 1) at 1 by lia.
    apply mod_split; lia. }
  assert (Hpow : 2 ^ Z.pos p = 2 * 2 ^ (Z.pos p - 1)).
  { replace (Z.pos p) with (1 + (Z.pos p - 1)) at 1 by lia.
    rewrite Z.pow_add_r by lia. reflexivity. }
  assert (Ph : 0 < 2 ^ (Z.pos p - 1)) by (apply Z.pow_pos_nonneg; lia).
  pose proof (Z.mod_pos_bound (Z.pos m) (2 ^ (Z.pos p - 1)) Ph) as HL.
  unfold low_bits in Hs.
  set (L := Z.pos m mod 2 ^ (Z.pos p - 1)) in *.
  set (h := 2 ^ (Z.pos p - 1)) in *.
  destruct (SpecFloat.iter_pos shr_1 p r0) as [q' rr ss].
  cbn [shr_m shr_r shr_s] in Hm, Hr, Hs. subst q'. fold q.
  rewrite Hpow, Hrem. rewrite <- Hr. rewrite Hs.
  destruct rr; cbn [Z.b2z loc_of_shr_record].
  - destruct (Z.eqb_spec L 0) as [EL|NL]; cbn [negb round_nearest_even].
    + destruct (Z.even q) eqn:Ev.
      * split; [intros _; right; split; [lia|reflexivity]|intros _; reflexivity].
      * split; [intros H; lia|intros [H|[_ H]]; [lia|discriminate H]].
    + split; [intros H; lia|intros [H|[H _]]; lia].
  - destruct (Z.eqb_spec L 0) as [EL|NL]; cbn [negb round_nearest_even];
      split; intros H; try reflexivity; left; lia.
Qed.

(** The second shift of binary_round_aux loses nothing: the rounded
    mantissa has at most 53 digits, or is 2^53. *)
Lemma second_shift_exact (m2 f : Z) :
  0 <= m2 <= 2 ^ 53 -> -1074 <= f ->
  exists r e', shr_fexp prec emax m2 f loc_Exact = (r, e')
               /\ f <= e' /\ shr_m r * 2 ^ (e' - f) = m2.
Proof.
  intros Hm Hf. unfold shr_fexp, shr.
  destruct m2 as [|pp|pp]; [| |lia].
  - cbn [Zdigits2]. rewrite Rounding.fexp_eq.
    destruct (Z.max (0 + f - 53) (-1074) - f) as [|n|n] eqn:En; try lia;
      do 2 eexists; (split; [reflexivity|]); cbn [shr_record_of_loc shr_m]; lia.
  - cbn [Zdigits2]. rewrite Rounding.fexp_eq.
    pose proof (Rounding.digits2_pos_bounds pp) as [Dlo Dhi].
    set (d := Z.pos (digits2_pos pp)) in *.
    assert (Hd : d <= 54).
    { destruct (Z_le_gt_dec d 54) as [H|H]; [exact H|exfalso].
      assert (2 ^ 54 <= 2 ^ (d - 1)) by (apply Z.pow_le_mono_r; lia).
      assert (2 ^ 53 < 2 ^ 54) by reflexivity. lia. }
    destruct (Z.max (d + f - 53) (-1074) - f) as [|n|n] eqn:En.
    + do 2 eexists. split; [reflexivity|]. cbn [shr_record_of_loc shr_m].
      rewrite Z.sub_diag. change (2 ^ 0) with 1. lia.
    + assert (Ed : d = 54) by lia. assert (En1 : Z.pos n = 1) by lia.
      injection En1 as ->.
      assert (Epp : Z.pos pp = 2 ^ 53).
      { rewrite Ed in Dlo. change (2 ^ (54 - 1)) with (2 ^ 53) in Dlo. lia. }
      do 2 eexists. split; [reflexivity|]. cbn [shr_record_of_loc SpecFloat.iter_pos].
      rewrite Rounding.shr_1_m by (cbn; lia). cbn [shr_m].
      replace (f + 1 - f) with 1 by lia. rewrite Epp.
      split; [lia|reflexivity].
    + do 2 eexists. split; [reflexivity|]. cbn [shr_record_of_loc shr_m].
      rewrite Z.sub_diag. change (2 ^ 0) with 1. lia.
Qed.

Lemma magnitude_le (m1 m2 : positive) (e1 e2 K : Z) :
  0 <= e1 + K -> 0 <= e2 + K ->
  Z.pos m1 * 2 ^ (e1 + K) <= Z.pos m2 * 2 ^ (e2 + K) ->
  Z.pos (digits2_pos m1) + e1 <= Z.pos (digits2_pos m2) + e2.
Proof.
  intros H1 H2 Hle.
  pose proof (Rounding.digits2_pos_bounds m1) as [D1 _].
  pose proof (Rounding.digits2_pos_bounds m2) as [_ D2].
  set (d1 := Z.pos (digits2_pos m1)) in *. set (d2 := Z.pos (digits2_pos m2)) in *.
  assert (Hd1 : 1 <= d1) by (unfold d1; lia).
  assert (Hd2 : 1 <= d2) by (unfold d2; lia).
  assert (P1 : 0 < 2 ^ (e1 + K)) by (apply Z.pow_pos_nonneg; lia).
  assert (P2 : 0 < 2 ^ (e2 + K)) by (apply Z.pow_pos_nonneg; lia).
  assert (H : 2 ^ (d1 - 1 + (e1 + K)) < 2 ^ (d2 + (e2 + K))).
  { rewrite (Z.pow_add_r 2 (d1 - 1) (e1 + K)), (Z.pow_add_r 2 d2 (e2 + K)) by lia.
    eapply Z.le_lt_trans; [|apply Z.mul_lt_mono_pos_r; [exact P2|exact D2]].
    eapply Z.le_trans; [|exact Hle]. apply Z.mul_le_mono_nonneg_r; lia. }
  destruct (Z_lt_le_dec (d1 - 1 + (e1 + K)) (d2 + (e2 + K))) as [Hlt|Hge]; [lia|].
  apply (Z.pow_le_mono_r 2) in Hge; lia.
Qed.

(** The outcome of rounding two products or sums, the first of which
    is not above the second. *)
Definition rounds_le (K e1 : Z) (r1 r2 : spec_float) : Prop :=
  r1 = r2
  \/ match r2 with
     | S754_finite false mB eB =>
       match r1 with
       | S754_zero _ => True
       | S754_finite s m3 e3 =>
         s = false /\ e1 <= e3 /\ Z.pos m3 * 2 ^ (e3 + K) <= Z.pos mB * 2 ^ (eB + K)
       | _ => False
       end
     | _ => False
     end.

Lemma same_cell (q1 q2 a1 a2 U : Z) :
  0 <= a1 < U -> 0 <= a2 < U ->
  q2 * U < q1 * U + a1 -> q1 * U + a1 <= q2 * U + a2 ->
  q1 = q2 /\ a1 <= a2.
Proof.
  intros H1 H2 Hlt Hle.
  assert (q1 = q2) by nia. subst. lia.
Qed.

(** Rounding to nearest even is monotone: of two exact positive
    values, the smaller is not rounded above the rounding of the
    larger. *)
Lemma round_aux_mono (m1 m2 : positive) (e1 e2 K : Z) :
  0 <= e1 + K -> 0 <= e2 + K -> e1 <= 971 -> e2 <= 971 ->
  Z.pos m1 * 2 ^ (e1 + K) <= Z.pos m2 * 2 ^ (e2 + K) ->
  valid_binary
    (binary_round_aux prec emax false (Z.pos m2) e2 loc_Exact) = true ->
  (forall s, binary_round_aux prec emax false (Z.pos m2) e2 loc_Exact
             <> S754_infinity s) ->
  rounds_le K e1 (binary_round_aux prec emax false (Z.pos m1) e1 loc_Exact)
                 (binary_round_aux prec emax false (Z.pos m2) e2 loc_Exact).
Proof.
  intros H1K H2K He1 He2 Hle Hv Hinf.
  pose proof (magnitude_le m1 m2 e1 e2 K H1K H2K Hle) as Hmag.
  pose proof (Rounding.digits2_pos_bounds m1) as [D1lo D1hi].
  pose proof (Rounding.digits2_pos_bounds m2) as [D2lo D2hi].
  assert (P1 : 0 < 2 ^ (e1 + K)) by (apply Z.pow_pos_nonneg; lia).
  assert (P2 : 0 < 2 ^ (e2 + K)) by (apply Z.pow_pos_nonneg; lia).
  destruct (Z_le_gt_dec (fexp prec emax (Z.pos (digits2_pos m2) + e2) - e2) 0)
    as [Hn2|Hn2].
  - (* the larger value is representable as it is *)
    revert Hv Hinf. rewrite (Rounding.binary_round_aux_noop false m2 e2) by lia.
    cbn [valid_binary]. intros Hv _. right.
    exact (Bound.round_aux_le m1 m2 e1 e2 K H1K H2K He1 Hv Hle).
  - assert (Hn2' : 0 < fexp prec emax (Z.pos (digits2_pos m2) + e2) - e2) by lia.
    destruct (first_shift_round m2 e2 Hn2') as (rr2 & E2 & Hq2 & Hrne2 & Hb2).
    set (d1 := Z.pos (digits2_pos m1)) in *. set (d2 := Z.pos (digits2_pos m2)) in *.
    assert (Hd1 : 1 <= d1) by (unfold d1; lia).
    assert (Hd2 : 1 <= d2) by (unfold d2; lia).
    set (f1 := fexp prec emax (d1 + e1)) in *. set (f2 := fexp prec emax (d2 + e2)) in *.
    assert (Hf1 : f1 = Z.max (d1 + e1 - 53) (-1074)) by reflexivity.
    assert (Hf2 : f2 = Z.max (d2 + e2 - 53) (-1074)) by reflexivity.
    set (n2 := f2 - e2) in *.
    set (q2 := Z.pos m2 / 2 ^ n2) in *.
    set (a2 := Z.pos m2 mod 2 ^ n2) in *.
    assert (Pn2 : 0 < 2 ^ n2) by (apply Z.pow_pos_nonneg; lia).
    pose proof (Z.div_mod (Z.pos m2) (2 ^ n2) ltac:(lia)) as Hdm2.
    pose proof (Z.mod_pos_bound (Z.pos m2) (2 ^ n2) Pn2) as Ha2.
    fold q2 a2 in Hdm2, Ha2.
    assert (Hq2lo : 0 <= q2) by (apply Z.div_pos; lia).
    assert (Hq2hi : q2 < 2 ^ 53).
    { apply Z.div_lt_upper_bound; [exact Pn2|].
      eapply Z.lt_le_trans; [exact D2hi|].
      rewrite <- Z.pow_add_r by lia. apply Z.pow_le_mono_r; lia. }
    set (c2 := round_nearest_even q2 (loc_of_shr_record rr2)) in *.
    assert (Hf2lo : -1074 <= f2) by lia.
    replace (e2 + n2) with f2 in E2 by (unfold n2; lia).
    destruct (second_shift_exact c2 f2 ltac:(lia) Hf2lo) as (rr2' & e2' & E2' & Hf2' & Hv2').
    assert (HfK : 2 ^ (f2 + K) = 2 ^ n2 * 2 ^ (e2 + K)).
    { unfold n2. apply Bound.pow2_split; lia. }
    assert (PfK : 0 < 2 ^ (f2 + K)) by (apply Z.pow_pos_nonneg; lia).
    destruct (Z_le_gt_dec (Z.pos m1 * 2 ^ (e1 + K)) (c2 * 2 ^ (f2 + K))) as [HA|HB].
    + (* the smaller value is not above the rounding of the larger *)
      right. revert Hv Hinf. unfold binary_round_aux at 1 2 3.
      rewrite E2, Hq2. fold c2. rewrite E2'.
      assert (Hval : shr_m rr2' * 2 ^ (e2' + K) = c2 * 2 ^ (f2 + K)).
      { rewrite (Bound.pow2_split f2 e2' K) by lia. rewrite Z.mul_assoc, Hv2'.
        reflexivity. }
      destruct (shr_m rr2') as [|m'|m'] eqn:Em'; [lia| |lia].
      destruct (e2' <=? emax - prec) eqn:El.
      * cbn [valid_binary]. intros Hv _.
        apply (Bound.round_aux_le m1 m' e1 e2' K H1K ltac:(lia) He1 Hv). lia.
      * intros _ Hinf. exfalso. exact (Hinf false eq_refl).
    + (* the larger value is rounded down, and the smaller one lies
         between it and its rounding *)
      assert (Hc2 : c2 = q2).
      { destruct (Z.eq_dec c2 q2) as [E|N]; [exact E|exfalso].
        assert (E : c2 = q2 + 1) by lia. rewrite E, HfK in HB.
        assert (Z.pos m2 * 2 ^ (e2 + K) < (q2 + 1) * (2 ^ n2 * 2 ^ (e2 + K))).
        { rewrite Z.mul_assoc. apply Z.mul_lt_mono_pos_r; [exact P2|]. lia. }
        lia. }
      pose proof (proj1 Hrne2 Hc2) as Hdown2.
      rewrite Hc2 in HB.
      assert (D1hi' : Z.pos m1 * 2 ^ (e1 + K) < 2 ^ (d1 + e1 + K)).
      { replace (d1 + e1 + K) with (d1 + (e1 + K)) by lia.
        rewrite (Z.pow_add_r 2 d1 (e1 + K)) by lia.
        apply Z.mul_lt_mono_pos_r; [exact P1|exact D1hi]. }
      assert (Hff : f1 = f2).
      { destruct (Z.eq_dec f2 (-1074)) as [E|N]; [lia|].
        assert (En2 : n2 = d2 - 53) by lia.
        assert (Hq52 : 2 ^ 52 <= q2).
        { apply Z.div_le_lower_bound; [exact Pn2|].
          rewrite Z.mul_comm, <- Z.pow_add_r by lia.
          replace (52 + n2) with (d2 - 1) by lia. exact D2lo. }
        assert (H : 2 ^ (52 + (f2 + K)) < 2 ^ (d1 + e1 + K)).
        { eapply Z.le_lt_trans; [|exact D1hi']. eapply Z.le_trans; [|apply Z.lt_le_incl, Z.gt_lt, HB].
          rewrite (Z.pow_add_r 2 52 (f2 + K)) by lia.
          apply Z.mul_le_mono_nonneg_r; lia. }
        destruct (Z_lt_le_dec (52 + (f2 + K)) (d1 + e1 + K)) as [Hlt|Hge]; [lia|].
        apply (Z.pow_le_mono_r 2) in Hge; lia. }
      assert (Hv2 : Z.pos m2 * 2 ^ (e2 + K) = q2 * 2 ^ (f2 + K) + a2 * 2 ^ (e2 + K)).
      { rewrite HfK, Hdm2. ring. }
      assert (Ha2' : 0 <= a2 * 2 ^ (e2 + K) < 2 ^ (f2 + K)).
      { rewrite HfK. split; [apply Z.mul_nonneg_nonneg; lia|].
        apply Z.mul_lt_mono_pos_r; [exact P2|lia]. }
      destruct (Z_le_gt_dec (f1 - e1) 0) as [Hn1|Hn1].
      * exfalso.
        assert (Hv1 : Z.pos m1 * 2 ^ (e1 + K)
                      = Z.pos m1 * 2 ^ (e1 - f2) * 2 ^ (f2 + K)).
        { rewrite (Bound.pow2_split f2 e1 K) by lia. ring. }
        assert (P : 0 < 2 ^ (e1 - f2)) by (apply Z.pow_pos_nonneg; lia).
        set (N := Z.pos m1 * 2 ^ (e1 - f2)) in *.
        rewrite Hv1 in HB, Hle. rewrite Hv2 in Hle.
        set (U := 2 ^ (f2 + K)) in *.
        destruct (same_cell N q2 0 _ U ltac:(lia) Ha2' ltac:(lia) ltac:(lia)) as [EN _].
        rewrite EN in HB. lia.
      * assert (Hn1' : 0 < fexp prec emax (Z.pos (digits2_pos m1) + e1) - e1).
        { fold d1 f1. lia. }
        destruct (first_shift_round m1 e1 Hn1') as (rr1 & E1 & Hq1 & Hrne1 & Hb1).
        fold d1 f1 in E1, Hq1, Hrne1, Hb1.
        set (n1 := f1 - e1) in *.
        set (q1 := Z.pos m1 / 2 ^ n1) in *.
        set (a1 := Z.pos m1 mod 2 ^ n1) in *.
        assert (Pn1 : 0 < 2 ^ n1) by (apply Z.pow_pos_nonneg; lia).
        pose proof (Z.div_mod (Z.pos m1) (2 ^ n1) ltac:(lia)) as Hdm1.
        pose proof (Z.mod_pos_bound (Z.pos m1) (2 ^ n1) Pn1) as Ha1.
        fold q1 a1 in Hdm1, Ha1.
        assert (HfK1 : 2 ^ (f2 + K) = 2 ^ n1 * 2 ^ (e1 + K)).
        { unfold n1. rewrite Hff. apply Bound.pow2_split; lia. }
        assert (Hv1 : Z.pos m1 * 2 ^ (e1 + K)
                      = q1 * 2 ^ (f2 + K) + a1 * 2 ^ (e1 + K)).
        { rewrite HfK1, Hdm1. ring. }
        assert (Ha1' : 0 <= a1 * 2 ^ (e1 + K) < 2 ^ (f2 + K)).
        { rewrite HfK1. split; [apply Z.mul_nonneg_nonneg; lia|].
          apply Z.mul_lt_mono_pos_r; [exact P1|lia]. }
        rewrite Hv1 in HB, Hle. rewrite Hv2 in Hle.
        destruct (same_cell q1 q2 _ _ _ Ha1' Ha2' ltac:(lia) Hle) as [Eq Hrem].
        assert (Hdown1 : 2 * a1 < 2 ^ n1 \/ (2 * a1 = 2 ^ n1 /\ Z.even q1 = true)).
        { rewrite Eq.
          assert (H : 2 * a1 <= 2 ^ n1
                      /\ (2 * a2 < 2 ^ n2 -> 2 * a1 < 2 ^ n1)).
          { split.
            - apply (Z.mul_le_mono_pos_r _ _ (2 ^ (e1 + K))); [exact P1|].
              rewrite <- HfK1, HfK.
              assert (2 * a2 * 2 ^ (e2 + K) <= 2 ^ n2 * 2 ^ (e2 + K)).
              { apply Z.mul_le_mono_nonneg_r; lia. }
              lia.
            - intros Hlt. apply (Z.mul_lt_mono_pos_r (2 ^ (e1 + K))); [exact P1|].
              rewrite <- HfK1, HfK.
              assert (2 * a2 * 2 ^ (e2 + K) < 2 ^ n2 * 2 ^ (e2 + K)).
              { apply Z.mul_lt_mono_pos_r; [exact P2|exact Hlt]. }
              lia. }
          destruct H as [H1 H2]. destruct Hdown2 as [Hlt|[Heq Hev]].
          - left. exact (H2 Hlt).
          - destruct (Z.eq_dec (2 * a1) (2 ^ n1)) as [E|N]; [right; split; assumption|].
            left. lia. }
        apply (proj2 Hrne1) in Hdown1.
        left. unfold binary_round_aux.
        rewrite E1, Hq1, Hdown1, E2, Hq2. fold c2. rewrite Hc2, Eq.
        replace (e1 + n1) with f2 by (unfold n1; lia). reflexivity.
Qed.

End Nearest.

(** ** Alpha-premultiplied colours *)

Lemma SFleb_refl (x y : spec_float) : SFleb x y = true -> SFleb x x = true.
Proof.
  unfold SFleb. destruct x as [s|[]| |[] m e], y as [s'|[]| |[] m' e'];
    cbn [SFcompare]; try discriminate; try reflexivity; intros _;
    rewrite Z.compare_refl, ?Pos.compare_cont_refl; reflexivity.
Qed.

Lemma leb_refl (x y : float) : (x <=? y) = true -> (x <=? x) = true.
Proof. rewrite !FloatAxioms.leb_spec. apply SFleb_refl. Qed.

Lemma product_le_one_l (Y : float) (mY : positive) (eY : Z) :
  Prim2SF Y = S754_finite false mY eY -> product_le 1 Y Y = true.
Proof.
  intros E. pose proof (Prim2SF_valid Y) as V. rewrite E in V. cbn [valid_binary] in V.
  destruct (Bound.bounded_spec _ _ V) as (_ & _ & He & _).
  unfold product_le. rewrite E.
  change (Prim2SF 1) with (S754_finite false 4503599627370496 (-52)).
  apply Z.leb_le.
  rewrite (Bound.pow2_split (-52 + eY) eY 2148) by lia.
  replace (eY - (-52 + eY))%Z with 52%Z by lia.
  change (2 ^ 52)%Z with 4503599627370496%Z.
  apply Z.eq_le_incl. ring.
Qed.

(** A number between 0 and 1 times a finite number that is not
    negative: the product lies between 0 and that number. *)
Lemma mul_unit_le (x c : float) :
  (0 <=? x) = true -> (x <=? 1) = true ->
  (0 <=? c) = true -> (c <? infinity) = true ->
  (0 <=? x * c) = true /\ (x * c <=? c) = true.
Proof.
  intros Hx0 Hx1 Hc0 Hci.
  destruct (Prim2SF c) as [sc|[]| |[] mc ec] eqn:Ec;
    try (rewrite FloatAxioms.leb_spec, Ec in Hc0; discriminate Hc0);
    try (rewrite FloatAxioms.ltb_spec, Ec in Hci; discriminate Hci).
  - assert (E1 : Prim2SF 1 = S754_finite false 4503599627370496 (-52)) by reflexivity.
    destruct (nonneg_le_finite x 1 _ _ E1 Hx0 Hx1) as [[s Ex]|(m & e & Ex)];
      rewrite !FloatAxioms.leb_spec, FloatAxioms.mul_spec, Ex, Ec;
      split; reflexivity.
  - apply (mul_le_bound x c 1 c c Hx0 Hx1 eq_refl Hc0).
    + rewrite FloatAxioms.leb_spec, Ec. unfold SFleb. cbn [SFcompare].
      rewrite Z.compare_refl, Pos.compare_cont_refl. reflexivity.
    + exact (product_le_one_l c mc ec Ec).
Qed.

(** Multiplication by a finite number that is not negative is monotone
    on the numbers between 0 and 1. *)
Lemma mul_mono (x1 x2 c : float) :
  (0 <=? x1) = true -> (x1 <=? x2) = true -> (x2 <=? 1) = true ->
  (0 <=? c) = true -> (c <? infinity) = true ->
  (x1 * c <=? x2 * c) = true.
Proof.
  intros H0 H12 H21 Hc0 Hci.
  pose proof (leb_trans _ _ _ H12 H21) as H11.
  pose proof (leb_trans _ _ _ H0 H12) as H02.
  destruct (mul_unit_le x2 c H02 H21 Hc0 Hci) as [P0 Pc].
  pose proof (Prim2SF_valid x1) as V1. pose proof (Prim2SF_valid x2) as V2.
  pose proof (Prim2SF_valid c) as Vc.
  pose proof (Prim2SF_valid (x1 * c)) as V1c.
  pose proof (Prim2SF_valid (x2 * c)) as V2c.
  assert (E1 : Prim2SF 1 = S754_finite false 4503599627370496 (-52)) by reflexivity.
  revert P0 Pc V1c V2c.
  destruct (nonneg_le_finite x1 1 _ _ E1 H0 H11) as [[s1 Ex1]|(m1 & e1 & Ex1)].
  { rewrite !FloatAxioms.leb_spec, !FloatAxioms.mul_spec, Ex1.
    change (Prim2SF 0) with (S754_zero false). intros P0 _ _ _.
    destruct (Prim2SF c) as [sc|[]| |[] mc ec] eqn:Ec;
      try (rewrite FloatAxioms.leb_spec, Ec in Hc0; discriminate Hc0);
      try (rewrite FloatAxioms.ltb_spec, Ec in Hci; discriminate Hci);
      exact P0. }
  destruct (nonneg_le_finite x2 1 _ _ E1 H02 H21) as [[s2 Ex2]|(m2 & e2 & Ex2)].
  { rewrite FloatAxioms.leb_spec, Ex1, Ex2 in H12. discriminate H12. }
  rewrite !FloatAxioms.leb_spec, !FloatAxioms.mul_spec, Ex1, Ex2.
  destruct (Prim2SF c) as [sc|[]| |[] mc ec] eqn:Ec;
    try (rewrite FloatAxioms.leb_spec, Ec in Hc0; discriminate Hc0);
    try (rewrite FloatAxioms.ltb_spec, Ec in Hci; discriminate Hci).
  { intros _ _ _ _. reflexivity. }
  rewrite Ex1 in V1. rewrite Ex2 in V2. cbn [valid_binary] in V1, V2, Vc.
  destruct (Bound.bounded_spec _ _ V1) as (_ & _ & Hlo1 & _).
  destruct (Bound.bounded_spec _ _ V2) as (_ & _ & Hlo2 & _).
  destruct (Bound.bounded_spec _ _ Vc) as (_ & Hhic & Hloc & _).
  assert (He1 : (e1 <= -52)%Z).
  { rewrite FloatAxioms.leb_spec, Ex1, E1 in H11. revert H11. unfold SFleb.
    cbn [SFcompare].
    destruct (Z.compare_spec e1 (-52)) as [E|E|E]; [lia|lia|discriminate]. }
  assert (He2 : (e2 <= -52)%Z).
  { rewrite FloatAxioms.leb_spec, Ex2, E1 in H21. revert H21. unfold SFleb.
    cbn [SFcompare].
    destruct (Z.compare_spec e2 (-52)) as [E|E|E]; [lia|lia|discriminate]. }
  rewrite FloatAxioms.leb_spec, Ex1, Ex2 in H12.
  apply (Bound.SFleb_value _ _ _ _ 1074 V1 V2) in H12; [|lia|lia].
  unfold SF64mul, SFmul. cbn [xorb].
  assert (Hle : (Z.pos (m1 * mc) * 2 ^ (e1 + ec + 2148)
                 <= Z.pos (m2 * mc) * 2 ^ (e2 + ec + 2148))%Z).
  { assert (E : forall m e, (0 <= e + 1074)%Z ->
                 (Z.pos (m * mc) * 2 ^ (e + ec + 2148)
                  = (Z.pos m * 2 ^ (e + 1074)) * (Z.pos mc * 2 ^ (ec + 1074)))%Z).
    { intros m e He. replace (e + ec + 2148)%Z with ((e + 1074) + (ec + 1074))%Z by lia.
      rewrite (Z.pow_add_r 2 (e + 1074) (ec + 1074)) by lia.
      rewrite Pos2Z.inj_mul. ring. }
    rewrite !E by lia.
    assert (0 < 2 ^ (ec + 1074))%Z by (apply Z.pow_pos_nonneg; lia).
    apply Z.mul_le_mono_nonneg_r; [apply Z.mul_nonneg_nonneg; lia|exact H12]. }
  intros P0 Pc V1c V2c.
  assert (Hinf : forall s,
             binary_round_aux prec emax false (Z.pos (m2 * mc)) (e2 + ec) loc_Exact
             <> S754_infinity s).
  { intros s E. rewrite E in P0, Pc. destruct s; discriminate. }
  pose proof (Nearest.round_aux_mono (m1 * mc) (m2 * mc) (e1 + ec) (e2 + ec) 2148
                ltac:(lia) ltac:(lia) ltac:(lia) ltac:(lia) Hle V2c Hinf) as [Heq|Hr].
  - rewrite Heq. exact (SFleb_refl _ _ Pc).
  - destruct (binary_round_aux prec emax false (Z.pos (m2 * mc)) (e2 + ec) loc_Exact)
      as [| | |[] mB eB]; try contradiction.
    destruct (binary_round_aux prec emax false (Z.pos (m1 * mc)) (e1 + ec) loc_Exact)
      as [s3| | |s3 m3 e3]; try contradiction.
    + reflexivity.
    + destruct Hr as (-> & He3 & Hv).
      cbn [valid_binary] in V1c, V2c.
      destruct (Bound.bounded_spec _ _ V2c) as (_ & _ & HloB & _).
      apply (Bound.SFleb_value _ _ _ _ 2148 V1c V2c); [lia|lia|exact Hv].
Qed.

(** Shifting by e is the floor of the value scaled by 2^K. *)
Lemma shiftl_scaled (m e K : Z) :
  (0 <= K)%Z -> (0 <= e + K)%Z -> Z.shiftl m e = (m * 2 ^ (e + K) / 2 ^ K)%Z.
Proof.
  intros HK He. destruct (Z_le_gt_dec 0 e) as [Hpos|Hneg].
  - rewrite Z.shiftl_mul_pow2 by lia. rewrite (Z.pow_add_r 2 e K) by lia.
    rewrite Z.mul_assoc. symmetry. apply Z.div_mul.
    apply Z.pow_nonzero; lia.
  - rewrite Z.shiftl_div_pow2 by lia.
    replace (2 ^ K)%Z with (2 ^ (- e) * 2 ^ (e + K))%Z.
    + symmetry. apply Z.div_mul_cancel_r; apply Z.pow_nonzero; lia.
    + rewrite <- Z.pow_add_r by lia. f_equal. lia.
Qed.

Lemma uint32_of_float64_Some (x : float) (n : Z) :
  uint32_of_float64 x = Some n -> float64_trunc x = Some n /\ (0 <= n)%Z.
Proof.
  unfold uint32_of_float64. destruct (float64_trunc x) as [k|]; [|discriminate].
  destruct ((0 <=? k) && (k <? 2 ^ 32))%Z eqn:R; [|discriminate].
  apply andb_true_iff in R as [R0 _]. apply Z.leb_le in R0.
  intros [= <-]. split; [reflexivity|exact R0].
Qed.

(** The conversion to uint32 is monotone where it is defined. *)
Lemma uint32_of_float64_mono (x y : float) (n1 n2 : Z) :
  (x <=? y) = true ->
  uint32_of_float64 x = Some n1 -> uint32_of_float64 y = Some n2 ->
  (n1 <= n2)%Z.
Proof.
  intros Hxy H1 H2.
  apply uint32_of_float64_Some in H1 as [H1 P1], H2 as [H2 P2].
  pose proof (Prim2SF_valid x) as Vx. pose proof (Prim2SF_valid y) as Vy.
  rewrite FloatAxioms.leb_spec in Hxy. revert Hxy Vx Vy H1 H2.
  unfold float64_trunc.
  destruct (Prim2SF x) as [sx| | |sx mx ex]; try discriminate;
    destruct (Prim2SF y) as [sy| | |sy my ey]; try discriminate;
    intros Hxy Vx Vy E1 E2; injection E1 as E1; injection E2 as E2.
  - lia.
  - lia.
  - destruct sx; [|destruct sy; discriminate Hxy].
    pose proof (Z.shiftl_nonneg (Z.pos mx) ex) as Hs. lia.
  - destruct sx.
    { pose proof (Z.shiftl_nonneg (Z.pos mx) ex) as Hs. lia. }
    destruct sy; [discriminate Hxy|].
    cbn [valid_binary] in Vx, Vy.
    destruct (Bound.bounded_spec _ _ Vx) as (_ & _ & Hlox & _).
    destruct (Bound.bounded_spec _ _ Vy) as (_ & _ & Hloy & _).
    apply (Bound.SFleb_value _ _ _ _ 1074 Vx Vy) in Hxy; [|lia|lia].
    subst n1 n2.
    rewrite (shiftl_scaled (Z.pos mx) ex 1074), (shiftl_scaled (Z.pos my) ey 1074) by lia.
    apply Z.div_le_mono; [apply Z.pow_pos_nonneg; lia|exact Hxy].
Qed.

Lemma unit_lt_infinity (x : float) : in_unit x = true -> (x <? infinity) = true.
Proof.
  intros H. apply andb_true_iff in H as [H0 H1].
  assert (E1 : Prim2SF 1 = S754_finite false 4503599627370496 (-52)) by reflexivity.
  rewrite FloatAxioms.ltb_spec.
  destruct (nonneg_le_finite x 1 _ _ E1 H0 H1) as [[s Ex]|(m & e & Ex)];
    rewrite Ex; reflexivity.
Qed.

(** convert.go, sRGBA.RGBA: the colour returned is alpha-premultiplied
    as color.Color asks for.  When the four components of c lie in
    [0, 1], red, green and blue are not above alpha, which is at most
    0xffff. *)
Theorem sRGBA_RGBA_premultiplied (c : sRGBA.t) :
  Forall (fun x => in_unit x = true) [sRGBA.R c; sRGBA.G c; sRGBA.B c; sRGBA.A c] ->
  exists r g b a,
    sRGBA_RGBA c = (Some r, Some g, Some b, Some a)
    /\ Forall (fun n => (0 <= n <= a)%Z) [r; g; b]
    /\ (a <= 65535)%Z.
Proof.
  destruct c as [R G B A]. cbn [sRGBA.R sRGBA.G sRGBA.B sRGBA.A]. intros H.
  apply List.Forall_cons_iff in H as [HR H]. apply List.Forall_cons_iff in H as [HG H].
  apply List.Forall_cons_iff in H as [HB H]. apply List.Forall_cons_iff in H as [HA _].
  pose proof (unit_lt_infinity A HA) as HAi.
  apply andb_true_iff in HA as [HA0 HA1].
  assert (Ha : exists n, uint32_of_float64 (A * 65535) = Some n /\ (0 <= n <= 65535)%Z).
  { destruct (mul_le_bound A 65535 1 65535 65535 HA0 HA1 eq_refl eq_refl eq_refl
                eq_refl) as [Q0 Q1].
    apply uint32_of_float64_16bit; assumption. }
  destruct Ha as (a & Ea & Ha).
  assert (Hch : forall x, in_unit x = true ->
                 exists n, uint32_of_float64 (x * A * 65535) = Some n
                           /\ (0 <= n <= a)%Z).
  { intros x Hx. apply andb_true_iff in Hx as [Hx0 Hx1].
    destruct (mul_unit_le x A Hx0 Hx1 HA0 HAi) as [P0 P1].
    pose proof (mul_mono (x * A) A 65535 P0 P1 HA1 eq_refl eq_refl) as Hm.
    destruct (mul_le_bound (x * A) 65535 1 65535 65535 P0 (leb_trans _ _ _ P1 HA1)
                eq_refl eq_refl eq_refl eq_refl) as [Q0 Q1].
    destruct (uint32_of_float64_16bit _ Q0 Q1) as (n & En & Hn).
    exists n. split; [exact En|]. split; [lia|].
    exact (uint32_of_float64_mono _ _ n a Hm En Ea). }
  destruct (Hch R HR) as (r & Er & Hr), (Hch G HG) as (g & Eg & Hg),
    (Hch B HB) as (b & Eb & Hb).
  exists r, g, b, a. unfold sRGBA_RGBA. rewrite Er, Eg, Eb, Ea.
  split; [reflexivity|]. split; [|lia].
  repeat apply List.Forall_cons; try apply List.Forall_nil; assumption.
Qed.

Lemma sRGBA_RGBA_premultiplied_witness :
  exists r g b a,
    sRGBA_RGBA (sRGBA.mk 0.3 0.6 1 0.7) = (Some r, Some g, Some b, Some a)
    /\ Forall (fun n => (0 <= n <= a)%Z) [r; g; b]
    /\ (a <= 65535)%Z.
Proof.
  exact (sRGBA_RGBA_premultiplied (sRGBA.mk 0.3 0.6 1 0.7)
           ltac:(repeat apply List.Forall_cons; try apply List.Forall_nil; reflexivity)).
Defined.
